(** * Verification of [email_sender.py]

    A shallow embedding of the recipient sanitisation pipeline, the token
    provider, the per-message retry loop and the campaign runner of
    [src/email_sender.py], with the properties of the specification stated
    and proved over it.

    Conventions of the embedding.
    - A Python [str] is a [string]; a character is a code point below 256,
      so the character tables of Python ([str.isspace], [str.lower], the
      word characters of [re]) are given for that range.
    - Python integers are [Z].  [time.time()] and the sleep durations are
      seconds, kept exact in [Z] (rounding of floating point is outside the
      model).
    - The outside world (clock, identity provider, HTTP endpoints, asset
      files, ledger file) answers through the fields of an environment
      record; the calls the code makes are recorded in a trace.
    - Exceptions are values: a computation returns or raises, and the
      state survives a raise.  [response.json()] raises the
      [JSONDecodeError] of [requests], which is a [RequestException]
      (requests 2.27 and later).
    - Console output is left out.
    - The identity provider answers every exchange, with a token or
      without; writing a line to the open ledger and closing it
      succeed. *)

From Stdlib Require Import ZArith Lia Bool Ascii String List.
From stdpp Require Import base option list gmap sets strings pretty.

Local Open Scope Z_scope.

(* ===================================================================== *)
(** * Characters and strings as Python sees them                          *)
(* ===================================================================== *)

Module PyStr.

Definition code (c : ascii) : N := N_of_ascii c.

Definition between (lo hi : N) (c : ascii) : bool :=
  ((lo <=? code c) && (code c <=? hi))%N.

Definition is_ascii_upper (c : ascii) : bool := between 65 90 c.
Definition is_ascii_lower (c : ascii) : bool := between 97 122 c.
Definition is_ascii_alpha (c : ascii) : bool :=
  is_ascii_lower c || is_ascii_upper c.
Definition is_ascii_digit (c : ascii) : bool := between 48 57 c.

(** [str.isspace] on one character: TAB..CR, FS..US, SPACE, NEL, NBSP. *)
Definition isspace (c : ascii) : bool :=
  between 9 13 c || between 28 32 c
  || (code c =? 133)%N || (code c =? 160)%N.

(** The word characters of [\w] / [\b] for a [str] pattern:
    alphanumeric code points and the underscore. *)
Definition isalnum (c : ascii) : bool :=
  is_ascii_digit c || is_ascii_alpha c
  || (code c =? 170)%N || (code c =? 178)%N || (code c =? 179)%N
  || (code c =? 181)%N || (code c =? 185)%N || (code c =? 186)%N
  || between 188 190 c || between 192 214 c || between 216 246 c
  || between 248 255 c.

Definition is_word (c : ascii) : bool := isalnum c || (code c =? 95)%N.

(** [str.lower] on one character: A-Z and the upper-case letters
    U+00C0..U+00DE (but not the multiplication sign) move up by 32. *)
Definition lower_char (c : ascii) : ascii :=
  if is_ascii_upper c || (between 192 222 c && negb (code c =? 215)%N)
  then ascii_of_N (code c + 32) else c.

Fixpoint lower (s : string) : string :=
  match s with
  | EmptyString => EmptyString
  | String c s' => String (lower_char c) (lower s')
  end.

(** [s.lstrip()], [s.rstrip()] and [s.strip()], for a given notion of
    white space. *)
Fixpoint lstrip_by (sp : ascii -> bool) (s : string) : string :=
  match s with
  | EmptyString => EmptyString
  | String c s' => if sp c then lstrip_by sp s' else s
  end.

Fixpoint rstrip_by (sp : ascii -> bool) (s : string) : string :=
  match s with
  | EmptyString => EmptyString
  | String c s' =>
      match rstrip_by sp s' with
      | EmptyString => if sp c then EmptyString else String c EmptyString
      | r => String c r
      end
  end.

Definition strip (s : string) : string :=
  rstrip_by isspace (lstrip_by isspace s).

(** Truthiness of a [str]: non-empty. *)
Definition truthy (s : string) : bool :=
  match s with EmptyString => false | _ => true end.

(** [sub in s]. *)
Fixpoint contains (sub s : string) : bool :=
  String.prefix sub s
  || match s with
     | EmptyString => false
     | String _ s' => contains sub s'
     end.

(** [s.split(sep)] for a one-character separator. *)
Fixpoint split (sep : ascii) (s : string) : list string :=
  match s with
  | EmptyString => [EmptyString]
  | String c s' =>
      if Ascii.eqb c sep then EmptyString :: split sep s'
      else match split sep s' with
           | [] => [String c EmptyString]
           | w :: ws => String c w :: ws
           end
  end.

(** [s[:n]]. *)
Fixpoint take (n : nat) (s : string) : string :=
  match n, s with
  | S n', String c s' => String c (take n' s')
  | _, _ => EmptyString
  end.

Definition LF : ascii := ascii_of_N 10.
Definition CR : ascii := ascii_of_N 13.

(** The lines a text-mode file yields when iterated (universal
    newlines: LF, CR and CR LF each end a line).  The terminator is left
    out: every caller strips the line. *)
Fixpoint file_lines (s : string) : list string :=
  match s with
  | EmptyString => []
  | String c s' =>
      if Ascii.eqb c LF then EmptyString :: file_lines s'
      else if Ascii.eqb c CR then
        match s' with
        | String c' s'' =>
            if Ascii.eqb c' LF then EmptyString :: file_lines s''
            else EmptyString :: file_lines s'
        | EmptyString => [EmptyString]
        end
      else match file_lines s' with
           | [] => [String c EmptyString]
           | w :: ws => String c w :: ws
           end
  end.

(** ** [int(s)] for a [str]

    White space around the literal is dropped (the separators FS..US
    are not white space here), then an optional sign and decimal digits
    follow, single underscores allowed between digits.  More than 4300
    digits are refused.  [None] stands for [ValueError]. *)
Definition is_int_space (c : ascii) : bool :=
  between 9 13 c || (code c =? 32)%N || (code c =? 133)%N
  || (code c =? 160)%N.

Definition max_str_digits : nat := 4300.

Fixpoint parse_digits (s : string) (acc : Z) (n : nat)
    (after_digit : bool) : option (Z * nat) :=
  match s with
  | EmptyString => if after_digit then Some (acc, n) else None
  | String c s' =>
      if is_ascii_digit c then
        parse_digits s' (10 * acc + (Z.of_N (code c) - 48)) (S n) true
      else if (code c =? 95)%N then
        if after_digit then parse_digits s' acc n false else None
      else None
  end.

Definition parse_unsigned (s : string) : option Z :=
  match parse_digits s 0 0 false with
  | Some (v, n) => if (n <=? max_str_digits)%nat then Some v else None
  | None => None
  end.

Definition int_of_str (s : string) : option Z :=
  match rstrip_by is_int_space (lstrip_by is_int_space s) with
  | String c s' =>
      if (code c =? 43)%N then parse_unsigned s'
      else if (code c =? 45)%N then
        match parse_unsigned s' with Some v => Some (- v) | None => None end
      else parse_unsigned (String c s')
  | EmptyString => None
  end.

End PyStr.

(* ===================================================================== *)
(** * The fragment of [re] the program uses                               *)
(* ===================================================================== *)

Module Re.
Import PyStr.

(** A pattern is a sequence of items: anchors, a literal character, or
    a greedy repetition [[cls]{min,}] of a character class. *)
Inductive item : Type :=
| Bol                                       (* ^  *)
| Eol                                       (* $  *)
| WordBoundary                              (* \b *)
| Char (c : ascii)
| Many (cls : ascii -> bool) (min : nat).

Definition pattern := list item.

(** [$] without MULTILINE: at the end of the string, or just before a
    line feed that ends the string. *)
Definition at_end (s : string) : bool :=
  match s with
  | EmptyString => true
  | String c EmptyString => Ascii.eqb c LF
  | _ => false
  end.

Definition word_before (prev : option ascii) : bool :=
  match prev with Some c => is_word c | None => false end.

Definition word_after (s : string) : bool :=
  match s with String c _ => is_word c | EmptyString => false end.

Definition at_boundary (prev : option ascii) (s : string) : bool :=
  xorb (word_before prev) (word_after s).

(** Greedy repetition with backtracking: take as many characters of
    the class as there are, then give them back one at a time until the
    rest of the pattern, [k], matches.  [n] counts what was taken. *)
Fixpoint match_many (cls : ascii -> bool) (min : nat)
    (k : option ascii -> string -> option string)
    (n : nat) (prev : option ascii) (s : string) : option string :=
  let stop := if (min <=? n)%nat then k prev s else None in
  match s with
  | String c s' =>
      if cls c then
        match match_many cls min k (S n) (Some c) s' with
        | Some r => Some r
        | None => stop
        end
      else stop
  | EmptyString => stop
  end.

(** Match [pat] at the current position; [prev] is the character just
    before it ([None] at the start of the string).  The result is the
    text left after the match. *)
Fixpoint match_here (pat : pattern) (prev : option ascii) (s : string)
    : option string :=
  match pat with
  | [] => Some s
  | Bol :: pat' =>
      match prev with None => match_here pat' prev s | Some _ => None end
  | Eol :: pat' => if at_end s then match_here pat' prev s else None
  | WordBoundary :: pat' =>
      if at_boundary prev s then match_here pat' prev s else None
  | Char c :: pat' =>
      match s with
      | String c' s' =>
          if Ascii.eqb c c' then match_here pat' (Some c') s' else None
      | EmptyString => None
      end
  | Many cls min :: pat' => match_many cls min (match_here pat') 0 prev s
  end.

(** [bool(re.match(pat, s))]. *)
Definition re_match (pat : pattern) (s : string) : bool :=
  match match_here pat None s with Some _ => true | None => false end.

(** [re.findall(pat, s)] for a pattern without groups: the leftmost
    matches, left to right, without overlap.  [skip] counts the
    characters of the last match still to be passed over.  The patterns
    of this program contain a literal character, so no match is empty;
    an empty match is passed over. *)
Fixpoint findall_from (pat : pattern) (skip : nat) (prev : option ascii)
    (s : string) : list string :=
  match s with
  | EmptyString => []
  | String c s' =>
      match skip with
      | S k => findall_from pat k (Some c) s'
      | O =>
          match match_here pat prev s with
          | Some rest =>
              match (String.length s - String.length rest)%nat with
              | S k => take (S k) s :: findall_from pat k (Some c) s'
              | O => findall_from pat 0 (Some c) s'
              end
          | None => findall_from pat 0 (Some c) s'
          end
      end
  end.

Definition findall (pat : pattern) (s : string) : list string :=
  findall_from pat 0 None s.

End Re.

(* ===================================================================== *)
(** * Validator                                                           *)
(* ===================================================================== *)

Import PyStr Re.

Definition in_chars (cs : string) (c : ascii) : bool :=
  existsb (Ascii.eqb c) (list_ascii_of_string cs).

(** [[a-zA-Z0-9._%+-]] *)
Definition local_class (c : ascii) : bool :=
  is_ascii_alpha c || is_ascii_digit c || in_chars "._%+-" c.

(** [[a-zA-Z0-9.-]] *)
Definition domain_class (c : ascii) : bool :=
  is_ascii_alpha c || is_ascii_digit c || in_chars ".-" c.

(** [^[a-zA-Z0-9._%+-]+@[a-zA-Z0-9.-]+\.[a-zA-Z]{2,}$] *)
Definition valid_pattern : pattern :=
  [Bol; Many local_class 1; Char "@"; Many domain_class 1; Char ".";
   Many is_ascii_alpha 2; Eol].

(** [\b[a-zA-Z0-9._%+-]+@[a-zA-Z0-9.-]+\.[a-zA-Z]{2,}\b] *)
Definition email_pattern : pattern :=
  [WordBoundary; Many local_class 1; Char "@"; Many domain_class 1;
   Char "."; Many is_ascii_alpha 2; WordBoundary].

Definition is_valid_email (email : string) : bool :=
  re_match valid_pattern email.

Definition extract_email_from_line (line : string) : option string :=
  let line := strip line in
  if truthy line then
    match List.find is_valid_email (findall email_pattern line) with
    | Some m => Some (lower m)
    | None => None
    end
  else None.

(* ===================================================================== *)
(** * Sanitisation pipeline                                               *)
(* ===================================================================== *)

(** ** The external validator as the pipeline sees it *)

(** A counter of a mass-validation answer, as [+=] on an integer takes
    it: an integer (a JSON integer, [true] or [false]), or a value that
    cannot be added to an integer (a string, [null], a list, an object),
    on which [+=] raises [TypeError].  (A counter with a fraction would
    turn the sum into a floating-point number; that is outside the
    model.) *)
Inductive counter : Type :=
| Count (n : Z)
| NotCount.

(** The JSON object of a mass-validation answer; an absent key is
    [None]. *)
Record mass_result : Type := MassResult {
  session : option string;
    (* as the f-string of the view URL writes it; [None] also for a value
       that is false without being a string *)
  r_total : option counter;
  r_invalid_format : option counter;
  r_invalid_dns : option counter;
  r_disposable : option counter;
  r_valid : option counter
}.

(** What [requests.get] on the mass endpoint does for a batch: raise, or
    answer with a status and a body that [response.json()] decodes
    ([None] when decoding raises or the value is not an object). *)
Inductive mass_outcome : Type :=
| MassRaises
| MassResponse (status_code : Z) (json : option mass_result).

(** What [requests.get] on the session-view endpoint does. *)
Inductive view_outcome : Type :=
| ViewRaises
| ViewResponse (status_code : Z) (text : string).

(** The service, asked about the batch that starts at index [i]. *)
Record disify : Type := Disify {
  mass : nat -> list string -> mass_outcome;
  view : nat -> string -> view_outcome
}.

(** The statistics dictionary of [validate_emails_with_disify]. *)
Record disify_stats : Type := DisifyStats {
  d_total : Z;
  d_invalid_format : Z;
  d_invalid_dns : Z;
  d_disposable : Z;
  d_unique : Z;
  d_valid : Z
}.

(** The statistics dictionary of [filter_and_validate_emails]. *)
Record stats : Type := Stats {
  total_lines : Z;
  extracted_emails : Z;
  duplicates_removed : Z;
  invalid_lines : Z;
  invalid_emails : Z;
  format_valid_emails : Z;
  disposable_emails : Z;
  invalid_dns : Z;
  final_valid_emails : Z
}.

Definition len {A} (l : list A) : Z := Z.of_nat (length l).

Definition batch_size : nat := 500.

(** [range(0, n, batch_size)] *)
Definition batch_starts (n : nat) : list nat :=
  List.map (fun j => (j * batch_size)%nat)
           (seq 0 ((n + (batch_size - 1)) / batch_size)).

(** [email_list[i:i + batch_size]] *)
Definition batch_at (email_list : list string) (i : nat) : list string :=
  firstn batch_size (skipn i email_list).

(** The fallback of both handlers: format validation only. *)
Definition fallback (batch all_valid_emails : list string) : list string :=
  all_valid_emails ++ List.filter is_valid_email batch.

(** [result.get(key, 0)] where it is an integer. *)
Definition get0 (v : option counter) : Z :=
  match v with
  | Some (Count n) => n
  | _ => 0
  end.

(** [total_stats[key] += result.get(key, 0)]: the new value of the
    counter, [None] when the addition raises. *)
Definition add_to (acc : Z) (v : option counter) : option Z :=
  match v with
  | None => Some acc
  | Some (Count n) => Some (acc + n)
  | Some NotCount => None
  end.

(** The five additions of a turn, in the order of the code.  The boolean
    tells whether one of them raised; the counters before it keep their
    new values. *)
Definition accumulate (result : mass_result) (ts : disify_stats)
    : disify_stats * bool :=
  match add_to (d_total ts) (r_total result) with
  | None => (ts, true)
  | Some total =>
      let ts1 :=
        DisifyStats total (d_invalid_format ts) (d_invalid_dns ts)
                    (d_disposable ts) (d_unique ts) (d_valid ts) in
      match add_to (d_invalid_format ts) (r_invalid_format result) with
      | None => (ts1, true)
      | Some invalid_format =>
          let ts2 :=
            DisifyStats total invalid_format (d_invalid_dns ts)
                        (d_disposable ts) (d_unique ts) (d_valid ts) in
          match add_to (d_invalid_dns ts) (r_invalid_dns result) with
          | None => (ts2, true)
          | Some invalid_dns =>
              let ts3 :=
                DisifyStats total invalid_format invalid_dns
                            (d_disposable ts) (d_unique ts) (d_valid ts) in
              match add_to (d_disposable ts) (r_disposable result) with
              | None => (ts3, true)
              | Some disposable =>
                  let ts4 :=
                    DisifyStats total invalid_format invalid_dns disposable
                                (d_unique ts) (d_valid ts) in
                  match add_to (d_valid ts) (r_valid result) with
                  | None => (ts4, true)
                  | Some valid =>
                      (DisifyStats total invalid_format invalid_dns
                                   disposable (d_unique ts) valid, false)
                  end
              end
          end
      end
  end.

(** [[e.strip() for e in text.split("\n") if e.strip()]] *)
Definition view_lines (text : string) : list string :=
  List.map strip (List.filter (fun e => truthy (strip e)) (split LF text)).

(** One turn of the batch loop, on the state
    [(all_valid_emails, total_stats)].  Every exception inside the [try]
    goes to the handler, which falls back to the format validation of the
    batch: also the [TypeError] of a counter that is no number, raised
    after the lines of the view joined the list. *)
Definition disify_batch (D : disify) (email_list : list string) (i : nat)
    (st : list string * disify_stats) : list string * disify_stats :=
  let '(all_valid_emails, total_stats) := st in
  let batch := batch_at email_list i in
  match mass D i batch with
  | MassRaises => (fallback batch all_valid_emails, total_stats)
  | MassResponse status_code json =>
      if status_code =? 200 then
        match json with
        | None => (fallback batch all_valid_emails, total_stats)
        | Some result =>
            let counted (valid : list string) :=
              let '(ts, raised) := accumulate result total_stats in
              if raised then (fallback batch valid, ts) else (valid, ts)
            in
            match session result with
            | Some s =>
                if truthy s then
                  match view D i s with
                  | ViewRaises => (fallback batch all_valid_emails, total_stats)
                  | ViewResponse vstatus vtext =>
                      if vstatus =? 200 then
                        let valid_emails_text := strip vtext in
                        if truthy valid_emails_text then
                          counted
                            (all_valid_emails ++ view_lines valid_emails_text)
                        else counted all_valid_emails
                      else counted all_valid_emails
                  end
                else counted all_valid_emails
            | None => counted all_valid_emails
            end
        end
      else (fallback batch all_valid_emails, total_stats)
  end.

(** The batch loop over the start indices still to be processed. *)
Fixpoint disify_loop (D : disify) (email_list : list string)
    (starts : list nat) (st : list string * disify_stats)
    : list string * disify_stats :=
  match starts with
  | [] => st
  | i :: starts' =>
      disify_loop D email_list starts' (disify_batch D email_list i st)
  end.

Definition with_valid (ts : disify_stats) (v : Z) : disify_stats :=
  {| d_total := d_total ts; d_invalid_format := d_invalid_format ts;
     d_invalid_dns := d_invalid_dns ts; d_disposable := d_disposable ts;
     d_unique := d_unique ts; d_valid := v |}.

Definition validate_emails_with_disify (D : disify)
    (email_list : list string) : list string * disify_stats :=
  match email_list with
  | [] => ([], DisifyStats 0 0 0 0 0 0)
  | _ =>
      let '(all_valid_emails, total_stats) :=
        disify_loop D email_list (batch_starts (length email_list))
          ([], DisifyStats 0 0 0 0 (len email_list) 0) in
      (all_valid_emails, with_valid total_stats (len all_valid_emails))
  end.

(** ** The four stages *)

(** Step 1, on the state [(extracted_emails, invalid_lines)]. *)
Fixpoint extract_loop (i : Z) (emails : list string)
    (st : list string * list (Z * string))
    : list string * list (Z * string) :=
  match emails with
  | [] => st
  | line :: emails' =>
      let '(extracted, invalid) := st in
      extract_loop (i + 1) emails'
        match extract_email_from_line line with
        | Some email =>
            if truthy email then (extracted ++ [email], invalid)
            else (extracted, invalid ++ [(i, take 50 line)])
        | None => (extracted, invalid ++ [(i, take 50 line)])
        end
  end.

(** Step 2, on the state [(seen, unique_emails, duplicates_count)]. *)
Fixpoint dedup_loop (extracted : list string)
    (st : gset string * list string * Z) : gset string * list string * Z :=
  match extracted with
  | [] => st
  | email :: extracted' =>
      let '(seen, unique_emails, duplicates_count) := st in
      dedup_loop extracted'
        (if decide (email ∈ seen)
         then (seen, unique_emails, duplicates_count + 1)
         else ({[email]} ∪ seen, unique_emails ++ [email], duplicates_count))
  end.

(** Step 3, on the state [(format_valid_emails, invalid_emails)]. *)
Fixpoint format_loop (unique_emails : list string)
    (st : list string * list string) : list string * list string :=
  match unique_emails with
  | [] => st
  | email :: unique' =>
      let '(valid, invalid) := st in
      format_loop unique'
        (if is_valid_email email then (valid ++ [email], invalid)
         else (valid, invalid ++ [email]))
  end.

Definition filter_and_validate_emails (D : disify) (emails : list string)
    (use_disify : bool) : list string * stats :=
  let '(extracted, invalid_lns) := extract_loop 1 emails ([], []) in
  let '(_, unique_emails, duplicates_count) :=
    dedup_loop extracted (∅, [], 0) in
  let '(format_valid, invalid) := format_loop unique_emails ([], []) in
  let '(final_valid, dstats) :=
    if use_disify && negb (bool_decide (format_valid = [])) then
      validate_emails_with_disify D format_valid
    else
      (format_valid,
       DisifyStats (len format_valid) 0 0 0 (len format_valid)
                   (len format_valid)) in
  (final_valid,
   {| total_lines := len emails;
      extracted_emails := len extracted;
      duplicates_removed := duplicates_count;
      invalid_lines := len invalid_lns;
      invalid_emails := len invalid;
      format_valid_emails := len format_valid;
      disposable_emails := d_disposable dstats;
      invalid_dns := d_invalid_dns dstats;
      final_valid_emails := len final_valid |}).

(* ===================================================================== *)
(** * The world of the sender                                             *)
(* ===================================================================== *)

(** Exceptions.  The retry loop handles
    [requests.exceptions.RequestException] and nothing else; the campaign
    loop handles every [Exception].  The text is [str(e)]. *)
Inductive exn : Type :=
| RequestException (msg : string)
| Exception (msg : string).

Definition exn_str (e : exn) : string :=
  match e with RequestException m => m | Exception m => m end.

(** The dictionary [acquire_token_for_client] returns. *)
Record token_result : Type := TokenResult {
  t_access_token : option string;
  t_expires_in : option Z;
  t_error_description : option string;
  t_error : option string
}.

(** What [response.json()] does: a value, kept as its [str(...)], or a
    [JSONDecodeError], which [requests] raises as a
    [RequestException]. *)
Inductive json_body : Type :=
| JsonValue (repr : string)
| JsonError (msg : string).

(** The parts of a [requests.Response] the sender reads. *)
Record response : Type := Response {
  status_code : Z;
  text : string;
  retry_after : option string;          (* headers.get("Retry-After") *)
  json : json_body
}.

Inductive post_outcome : Type :=
| PostRaises (msg : string)             (* a RequestException *)
| PostResponse (r : response).

(** The environment: what the n-th call of each kind meets. *)
Record env : Type := Env {
  time_at : nat -> Z;                              (* time.time() *)
  acquire_token_for_client : nat -> token_result;
    (* the identity provider always answers with a dictionary *)
  post : nat -> post_outcome;                      (* requests.post *)
  asset_error : string -> option string;
    (* the logo and attachment files, prepared for a recipient: the text
       of the exception when reading them raises *)
  ledger_read_error : option nat;
    (* reading the ledger raises after that many lines *)
  ledger_open_error : bool;
    (* opening the ledger for appending raises *)
  long_sleep_error : Z -> option string
    (* time.sleep for a duration of more than ten minutes: the text of
       the error when the platform refuses it *)
}.

Inductive event : Type :=
| Exchange
| Post (recipient token : string)
| Sleep (seconds : Z)
| Append (line : string).

(** The mutable state: the two attributes of the sender, the cursors of
    the environment, the ledger file ([None]: no such file) and the trace
    of the calls made so far. *)
Record state : Type := State {
  access_token : option string;
  token_expires_at : option Z;
  time_reads : nat;
  exchanges : nat;
  posts : nat;
  ledger : option string;
  trace : list event
}.

Inductive outcome (A : Type) : Type :=
| Ret (a : A)
| Raise (e : exn).
Arguments Ret {A} a.
Arguments Raise {A} e.

(** A computation reads the environment and threads the state; the state
    survives an exception. *)
Definition M (A : Type) : Type := env -> state -> outcome A * state.

Definition ret {A} (a : A) : M A := fun _ st => (Ret a, st).

Definition raise {A} (e : exn) : M A := fun _ st => (Raise e, st).

Definition bind {A B} (m : M A) (f : A -> M B) : M B :=
  fun E st =>
    match m E st with
    | (Ret a, st') => f a E st'
    | (Raise e, st') => (Raise e, st')
    end.

(** [try: m except C as e: h e], where [handles] tells the exceptions of
    class [C]. *)
Definition try_except {A} (handles : exn -> bool) (m : M A)
    (h : exn -> M A) : M A :=
  fun E st =>
    match m E st with
    | (Raise e, st') => if handles e then h e E st' else (Raise e, st')
    | r => r
    end.

Definition is_request_exception (e : exn) : bool :=
  match e with RequestException _ => true | Exception _ => false end.

Definition any_exception (e : exn) : bool := true.

Declare Scope monad_scope.
Delimit Scope monad_scope with M.
Notation "'let*' x ':=' m 'in' k" := (bind m (fun x => k))
  (at level 10, x name, m at level 100, k at level 200) : monad_scope.
Local Open Scope monad_scope.

Definition get_state : M state := fun _ st => (Ret st, st).

(** The elementary changes of the state. *)
Definition log (ev : event) (st : state) : state :=
  {| access_token := access_token st;
     token_expires_at := token_expires_at st;
     time_reads := time_reads st; exchanges := exchanges st;
     posts := posts st; ledger := ledger st;
     trace := trace st ++ [ev] |}.

Definition tick (st : state) : state :=
  {| access_token := access_token st;
     token_expires_at := token_expires_at st;
     time_reads := S (time_reads st); exchanges := exchanges st;
     posts := posts st; ledger := ledger st; trace := trace st |}.

Definition next_exchange (st : state) : state :=
  {| access_token := access_token st;
     token_expires_at := token_expires_at st;
     time_reads := time_reads st; exchanges := S (exchanges st);
     posts := posts st; ledger := ledger st; trace := trace st |}.

Definition next_post (st : state) : state :=
  {| access_token := access_token st;
     token_expires_at := token_expires_at st;
     time_reads := time_reads st; exchanges := exchanges st;
     posts := S (posts st); ledger := ledger st; trace := trace st |}.

Definition with_token (t : string) (st : state) : state :=
  {| access_token := Some t; token_expires_at := token_expires_at st;
     time_reads := time_reads st; exchanges := exchanges st;
     posts := posts st; ledger := ledger st; trace := trace st |}.

Definition with_expiry (t : Z) (st : state) : state :=
  {| access_token := access_token st; token_expires_at := Some t;
     time_reads := time_reads st; exchanges := exchanges st;
     posts := posts st; ledger := ledger st; trace := trace st |}.

Definition set_ledger (content : string) (st : state) : state :=
  {| access_token := access_token st;
     token_expires_at := token_expires_at st;
     time_reads := time_reads st; exchanges := exchanges st;
     posts := posts st; ledger := Some content; trace := trace st |}.

(** [time.time()] *)
Definition time : M Z :=
  fun E st => (Ret (time_at E (time_reads st)), tick st).

(** CPython keeps a duration as a count of nanoseconds in 64 bits. *)
Definition sleep_max : Z := 9223372036.

(** Whether [time.sleep] refuses a duration, and with which text: an
    [OverflowError] beyond [sleep_max] seconds in either direction (the
    text is that of CPython 3.11), a [ValueError] for any other negative
    duration.  Durations up to ten minutes, the longest the program
    computes itself, are taken on every platform; a longer one, which only
    a Retry-After header can ask for, may be refused by the platform (an
    [OSError] when the end of the wait cannot be represented). *)
Definition sleep_refusal (E : env) (seconds : Z) : option string :=
  if (seconds <? - sleep_max) || (sleep_max <? seconds)
  then Some "timestamp too large to convert to C _PyTime_t"
  else if seconds <? 0 then Some "sleep length must be non-negative"
  else if seconds <=? 600 then None
  else long_sleep_error E seconds.

(** [time.sleep(seconds)] *)
Definition sleep (seconds : Z) : M unit :=
  fun E st =>
    match sleep_refusal E seconds with
    | Some msg => (Raise (Exception msg), st)
    | None => (Ret tt, log (Sleep seconds) st)
    end.

(** [self.app.acquire_token_for_client(scopes=self.scope)] *)
Definition acquire_token : M token_result :=
  fun E st =>
    (Ret (acquire_token_for_client E (exchanges st)),
     log Exchange (next_exchange st)).

(** [requests.post(url, headers=headers, json=message, timeout=30)] *)
Definition requests_post (recipient token : string) : M response :=
  fun E st =>
    let st' := log (Post recipient token) (next_post st) in
    match post E (posts st) with
    | PostRaises msg => (Raise (RequestException msg), st')
    | PostResponse r => (Ret r, st')
    end.

Definition set_access_token (t : string) : M unit :=
  fun _ st => (Ret tt, with_token t st).

Definition set_token_expires_at (t : Z) : M unit :=
  fun _ st => (Ret tt, with_expiry t st).

(* ===================================================================== *)
(** * Token provider                                                      *)
(* ===================================================================== *)

(** Truthiness of the two attributes: [None], the empty string and zero
    are false. *)
Definition token_set (st : state) : option string :=
  match access_token st with
  | Some t => if truthy t then Some t else None
  | None => None
  end.

Definition expiry_set (st : state) : option Z :=
  match token_expires_at st with
  | Some t => if t =? 0 then None else Some t
  | None => None
  end.

Definition get_access_token (force_refresh : bool) : M string :=
  let* st := get_state in
  let* cached :=
    if negb force_refresh then
      match token_set st, expiry_set st with
      | Some token, Some expires_at =>
          let* current_time := time in
          if current_time <? expires_at - 300 then ret (Some token)
          else ret None
      | _, _ => ret None
      end
    else ret None in
  match cached with
  | Some token => ret token
  | None =>
      let* result := acquire_token in
      match t_access_token result with
      | Some token =>
          let* _ := set_access_token token in
          let expires_in := default 3600 (t_expires_in result) in
          let* now := time in
          let* _ := set_token_expires_at (now + expires_in) in
          ret token
      | None =>
          let error_msg :=
            default (default "Unknown error" (t_error result))
                    (t_error_description result) in
          raise (Exception ("Failed to acquire token: " +:+ error_msg))
      end
  end.

(* ===================================================================== *)
(** * Delivery client                                                     *)
(* ===================================================================== *)

(** The dictionary [send_email] returns; an absent key is [None]. *)
Module Result.
Record t : Type := Make {
  success : bool;
  recipient : string;
  status_code : option Z;
  error : option string;
  message : option string
}.
End Result.

Definition sent_ok (recipient_email : string) (status : Z) : Result.t :=
  Result.Make true recipient_email (Some status) None
              (Some "Email sent successfully").

Definition failed (recipient_email : string) (status : option Z)
    (error : string) : Result.t :=
  Result.Make false recipient_email status (Some error) None.

(** [response.json() if response.text else {}], as its [str(...)]. *)
Definition error_data_of (r : response) : M string :=
  if truthy (text r) then
    match json r with
    | JsonValue repr => ret repr
    | JsonError msg => raise (RequestException msg)
    end
  else ret "{}".

(** The logo and the attachment are read and encoded; a missing or
    unreadable file raises. *)
Definition prepare_message (recipient_email : string) : M unit :=
  fun E st =>
    match asset_error E recipient_email with
    | Some msg => (Raise (Exception msg), st)
    | None => (Ret tt, st)
    end.

(** [min(60 * (2 ** attempt), 600)] *)
Definition throttle_backoff (attempt : Z) : Z := Z.min (60 * 2 ^ attempt) 600.

(** [min(2 ** attempt, 30)] *)
Definition transient_backoff (attempt : Z) : Z := Z.min (2 ^ attempt) 30.

(** The value of [wait_seconds] after the Retry-After header was read. *)
Definition wait_seconds_of (r : response) : option Z :=
  match retry_after r with
  | Some h => if truthy h then int_of_str h else None
  | None => None
  end.

(** [wait_time] in the throttling branch: [if wait_seconds: ... else: ...]. *)
Definition wait_time_of (wait_seconds : option Z) (attempt : Z) : Z :=
  match wait_seconds with
  | Some w => if w =? 0 then throttle_backoff attempt else w
  | None => throttle_backoff attempt
  end.

(** One turn of the retry loop.  [Some result] is [return result];
    [None] is [continue]. *)
Definition attempt_once (recipient_email access_token : string)
    (max_retries attempt : Z) : M (option Result.t) :=
  try_except is_request_exception
    (let* response := requests_post recipient_email access_token in
     let other_error :=
       ret (Some (failed recipient_email (Some (status_code response))
                         (text response))) in
     if status_code response =? 202 then
       ret (Some (sent_ok recipient_email (status_code response)))
     else if status_code response =? 401 then
       let* error_data := error_data_of response in
       if contains "InvalidAuthenticationToken" error_data
          || contains "expired" (lower error_data)
       then
         let* _ := get_access_token true in
         ret (Some (failed recipient_email (Some (status_code response))
                           "Token expired"))
       else other_error
     else if (status_code response =? 429)
             || contains "ApplicationThrottled" (text response)
     then
       let* _ := error_data_of response in
       let wait_seconds := wait_seconds_of response in
       if attempt <? max_retries - 1 then
         let* _ := sleep (wait_time_of wait_seconds attempt) in
         ret None
       else
         ret (Some (failed recipient_email (Some (status_code response))
                           (text response)))
     else other_error)
    (fun e =>
       if attempt <? max_retries - 1 then
         let* _ := sleep (transient_backoff attempt) in
         ret None
       else
         ret (Some (failed recipient_email None
                           ("Request exception: " +:+ exn_str e)))).

(** [for attempt in range(max_retries): ...], over the attempts still to
    be made; [None] when the loop runs to its end. *)
Fixpoint retry_loop (recipient_email access_token : string)
    (max_retries : Z) (attempts : list Z) : M (option Result.t) :=
  match attempts with
  | [] => ret None
  | attempt :: attempts' =>
      let* r := attempt_once recipient_email access_token max_retries
                             attempt in
      match r with
      | Some result => ret (Some result)
      | None => retry_loop recipient_email access_token max_retries attempts'
      end
  end.

(** [range(n)] *)
Definition range (n : Z) : list Z := List.map Z.of_nat (seq 0 (Z.to_nat n)).

Definition send_email (recipient_email : string) (max_retries : Z)
    : M Result.t :=
  let* access_token := get_access_token false in
  let* _ := prepare_message recipient_email in
  let* r := retry_loop recipient_email access_token max_retries
                       (range max_retries) in
  match r with
  | Some result => ret result
  | None =>
      ret (failed recipient_email None
                  ("Failed after " +:+ pretty max_retries +:+ " attempts"))
  end.

(* ===================================================================== *)
(** * Campaign runner                                                     *)
(* ===================================================================== *)

(** The ledger is read line by line; every non-empty stripped line joins
    the set.  An error while reading keeps what was read before it. *)
Definition add_line (sent_emails : gset string) (line : string)
    : gset string :=
  let email := strip line in
  if truthy email then {[email]} ∪ sent_emails else sent_emails.

Definition load_progress (progress_file : bool) : M (gset string) :=
  fun E st =>
    match progress_file, ledger st with
    | true, Some content =>
        let lines := file_lines content in
        let lines_read :=
          match ledger_read_error E with
          | Some n => firstn n lines
          | None => lines
          end in
        (Ret (fold_left add_line lines_read ∅), st)
    | _, _ => (Ret ∅, st)
    end.

(** [open(progress_file, "a")]: creates the file when there is none.
    The result tells whether [progress_fp] is a file object. *)
Definition open_append (progress_file : bool) : M bool :=
  fun E st =>
    if progress_file && negb (ledger_open_error E)
    then (Ret true, set_ledger (default EmptyString (ledger st)) st)
    else (Ret false, st).

(** [progress_fp.write(f"{recipient}\n"); progress_fp.flush()].  Writing
    to the open file does not fail. *)
Definition write_line (recipient : string) : M unit :=
  fun E st =>
    (Ret tt,
     log (Append recipient)
       (set_ledger
          (default EmptyString (ledger st) +:+ recipient
           +:+ String LF EmptyString) st)).

Definition when (b : bool) (m : M unit) : M unit := if b then m else ret tt.

(** [str(result.get('status_code', ''))] *)
Definition status_str (r : Result.t) : string :=
  match Result.status_code r with
  | Some z => pretty z
  | None => EmptyString
  end.

(** The body of the [try] for one recipient, on the local variables
    [(sent_emails, results)]. *)
Definition send_one (total : Z) (progress_fp : bool) (i : Z)
    (recipient : string) (sent_emails : gset string)
    (results : list Result.t) : M (gset string * list Result.t) :=
  let* result := send_email recipient 5 in
  let* sent_emails' :=
    if Result.success result then
      let* _ := when progress_fp (write_line recipient) in
      ret ({[recipient]} ∪ sent_emails)
    else
      let error_msg := default "Unknown error" (Result.error result) in
      let* _ :=
        when (contains "ApplicationThrottled" error_msg
              || contains "429" (status_str result))
             (sleep 30) in
      ret sent_emails in
  let results' := results ++ [result] in
  let* _ := when (i <? total) (sleep 5) in
  ret (sent_emails', results').

(** The [try] for one recipient with its handler.  Only [send_email]
    can raise inside the [try], and it runs before the local variables
    change, so the handler sees them as the turn found them. *)
Definition send_guarded (total : Z) (progress_fp : bool) (i : Z)
    (recipient : string) (sent_emails : gset string)
    (results : list Result.t) : M (gset string * list Result.t) :=
  try_except any_exception
    (send_one total progress_fp i recipient sent_emails results)
    (fun e =>
       ret (sent_emails, results ++ [failed recipient None (exn_str e)])).

(** [for i, recipient in enumerate(recipient_list, 1): ...] *)
Fixpoint send_loop (total : Z) (progress_fp : bool) (i : Z)
    (recipient_list : list string) (sent_emails : gset string)
    (results : list Result.t) : M (list Result.t) :=
  match recipient_list with
  | [] => ret results
  | recipient :: rest =>
      if decide (recipient ∈ sent_emails) then
        send_loop total progress_fp (i + 1) rest sent_emails results
      else
        let* locals :=
          send_guarded total progress_fp i recipient sent_emails results in
        send_loop total progress_fp (i + 1) rest (fst locals) (snd locals)
  end.

(** [delay_seconds] is left out: the loop overwrites it with 5.0 before
    its only use. *)
Definition send_emails_one_by_one (recipient_list : list string)
    (start_index : Z) (progress_file : bool) : M (list Result.t) :=
  let* sent_emails := load_progress progress_file in
  let recipient_list :=
    if start_index >? 0 then skipn (Z.to_nat start_index) recipient_list
    else recipient_list in
  let* progress_fp := open_append progress_file in
  send_loop (len recipient_list) progress_fp 1 recipient_list sent_emails [].

(* ===================================================================== *)
(** * Notions of the specification                                        *)
(* ===================================================================== *)

(** ** The address format *)

Definition all_in (cls : ascii -> bool) (s : string) : bool :=
  forallb cls (list_ascii_of_string s).

(** The format in the words of the specification: [local@domain.tld]
    with a non-empty local part in [[A-Za-z0-9._%+-]], a non-empty domain
    in [[A-Za-z0-9.-]] and a top-level domain of two or more letters, as
    the whole string. *)
Definition well_formed (s : string) : Prop :=
  exists local domain tld,
    s = local +:+ "@" +:+ domain +:+ "." +:+ tld
    /\ all_in local_class local = true /\ (1 <= String.length local)%nat
    /\ all_in domain_class domain = true /\ (1 <= String.length domain)%nat
    /\ all_in is_ascii_alpha tld = true /\ (2 <= String.length tld)%nat.

(** The character before the position reached after [taken] was read. *)
Fixpoint last_char (prev : option ascii) (taken : string) : option ascii :=
  match taken with
  | EmptyString => prev
  | String c taken' => last_char (Some c) taken'
  end.

(** A character an extracted address can hold. *)
Definition address_char (c : ascii) : bool :=
  local_class c || Ascii.eqb c "@".

(** ** Deduplication *)

(** The deduplication stage in the words of the specification: an
    address is kept when it does not occur earlier in the input
    ([before] holds what came earlier), and counted otherwise. *)
Fixpoint first_occurrences (before l : list string) : list string :=
  match l with
  | [] => []
  | x :: l' =>
      if decide (x ∈ before) then first_occurrences (before ++ [x]) l'
      else x :: first_occurrences (before ++ [x]) l'
  end.

Fixpoint later_occurrences (before l : list string) : Z :=
  match l with
  | [] => 0
  | x :: l' =>
      if decide (x ∈ before) then 1 + later_occurrences (before ++ [x]) l'
      else later_occurrences (before ++ [x]) l'
  end.

(** ** External validation *)

(** The ways the exchange for the batch that starts at [i] can fail:
    the request raises, it answers with another status than 200, the
    body of the answer does not decode, or the follow-up request for the
    session raises. *)
Inductive batch_fails (D : disify) (email_list : list string) (i : nat)
    : Prop :=
| request_raises :
    mass D i (batch_at email_list i) = MassRaises ->
    batch_fails D email_list i
| status_not_200 (status : Z) (body : option mass_result) :
    mass D i (batch_at email_list i) = MassResponse status body ->
    status <> 200 ->
    batch_fails D email_list i
| body_undecodable :
    mass D i (batch_at email_list i) = MassResponse 200 None ->
    batch_fails D email_list i
| view_raises (result : mass_result) (s : string) :
    mass D i (batch_at email_list i) = MassResponse 200 (Some result) ->
    session result = Some s -> truthy s = true ->
    view D i s = ViewRaises ->
    batch_fails D email_list i.

(** ** Token provider *)

(** The cached token [tok] exists with a recorded expiry, and the clock
    reads less than that expiry minus 300 seconds.  ("Exists" and
    "recorded" are the truth tests of the code: the attribute is set,
    and is not the empty string, respectively not zero.) *)
Definition cache_fresh (E : env) (st : state) (tok : string) : Prop :=
  token_set st = Some tok
  /\ exists expires_at, expiry_set st = Some expires_at
       /\ time_at E (time_reads st) < expires_at - 300.

(** The state in which the exchange starts: the clock was read once
    before when a cached token had to be checked for freshness. *)
Definition before_exchange (force_refresh : bool) (st : state) : state :=
  if negb force_refresh then
    match token_set st, expiry_set st with
    | Some _, Some _ => tick st
    | _, _ => st
    end
  else st.

(** The state after a token exchange that answered with [token] and
    [expires_in], started in [st]. *)
Definition refreshed (E : env) (token : string) (expires_in : option Z)
    (st : state) : state :=
  with_expiry (time_at E (time_reads st) + default 3600 expires_in)
    (tick (with_token token (log Exchange (next_exchange st)))).

(** ** Delivery client *)

(** The signal of an expired token in the decoded body [d] of a 401
    answer. *)
Definition token_expired_signal (d : string) : Prop :=
  contains "InvalidAuthenticationToken" d = true
  \/ contains "expired" d = true.

(** [response.json() if response.text else {}] does not raise: the body
    is empty, or it is JSON. *)
Definition decodes (r : response) : Prop :=
  truthy (text r) = false \/ exists d, json r = JsonValue d.

(** A throttling answer without a Retry-After header whose body
    decodes. *)
Definition throttled_plain (r : response) : Prop :=
  status_code r = 429 /\ retry_after r = None /\ decodes r.

(** The same answer without its Retry-After header. *)
Definition without_header (r : response) : response :=
  Response (status_code r) (text r) None (json r).

(** The state after the request of an attempt was posted. *)
Definition posted (recipient token : string) (st : state) : state :=
  log (Post recipient token) (next_post st).

(** ** Campaign runner *)

(** An event of sending to [x]: an exchange, a sleep, or a request for
    [x]. *)
Definition mail_event (x : string) (ev : event) : Prop :=
  match ev with
  | Exchange | Sleep _ => True
  | Post x' _ => x' = x
  | Append _ => False
  end.

(** An event that concerns the recipient [r]: a request for it, or its
    address being appended to the ledger. *)
Definition about (r : string) (ev : event) : Prop :=
  match ev with
  | Post x _ | Append x => x = r
  | Exchange | Sleep _ => False
  end.

(** From [st] to [st'] the ledger is untouched and the trace grows by
    events that satisfy [P]. *)
Definition steps (P : event -> Prop) (st st' : state) : Prop :=
  ledger st' = ledger st
  /\ exists evs, trace st' = trace st ++ evs /\ Forall P evs.

(** A computation that steps by [P] and returns values in [Q]. *)
Definition frames {A} (P : event -> Prop) (Q : A -> Prop) (m : M A) : Prop :=
  forall E st,
    steps P st (snd (m E st)) /\ forall a, fst (m E st) = Ret a -> Q a.

(** No line break inside. *)
Definition no_line_break (x : string) : bool :=
  forallb (fun c => negb (Ascii.eqb c LF) && negb (Ascii.eqb c CR))
          (list_ascii_of_string x).

(** An address the ledger can hold on a line of its own: not empty,
    nothing for [strip] to remove, no line break inside. *)
Definition ledger_safe (x : string) : Prop :=
  truthy x = true /\ strip x = x /\ no_line_break x = true.

(** A ledger file whose last line, if any, is ended by a line feed. *)
Fixpoint ends_with_lf (s : string) : bool :=
  match s with
  | EmptyString => true
  | String c s' =>
      match s' with
      | EmptyString => Ascii.eqb c LF
      | String _ _ => ends_with_lf s'
      end
  end.

Definition ledger_terminated (file : option string) : Prop :=
  match file with
  | Some content => ends_with_lf content = true
  | None => True
  end.

(** Every line of the file, stripped and non-empty: the set a complete
    reading of the ledger loads. *)
Definition ledger_set (content : string) : gset string :=
  fold_left add_line (file_lines content) ∅.

(* ===================================================================== *)
(** * Sample environments                                                 *)
(* ===================================================================== *)

(** A validation service that answers every request with status 500. *)
Definition disify_down : disify :=
  Disify (fun _ _ => MassResponse 500 None) (fun _ _ => ViewRaises).

(** A clock that starts at 1000 and advances by one second per
    reading. *)
Definition sample_clock (n : nat) : Z := 1000 + Z.of_nat n.

(** The answer of the identity provider that grants [token]. *)
Definition grant (token : string) (expires_in : option Z) : token_result :=
  TokenResult (Some token) expires_in None None.

(** The provider grants the token ["T"] for an hour, the mail endpoint
    meets every request with [r], assets and ledger are in order. *)
Definition always (r : post_outcome) : env :=
  Env sample_clock (fun _ => grant "T" (Some 3600)) (fun _ => r)
      (fun _ => None) None false (fun _ => None).

(** A sender that was just constructed, with no ledger file around. *)
Definition fresh : state := State None None 0 0 0 None [].

(** The text of a [JSONDecodeError]. *)
Definition json_error_msg : string :=
  "Expecting value: line 1 column 1 (char 0)".

(** 429 with a JSON body, as the provider sends it. *)
Definition throttled_json (header : option string) : response :=
  Response 429 "{}" header (JsonValue "{}").

(** 429 with a body that is not JSON, as a gateway in between sends
    it. *)
Definition throttled_text (header : option string) : response :=
  Response 429 "Too Many Requests" header (JsonError json_error_msg).

Definition dquote : string := String (ascii_of_N 34) EmptyString.

(** 401 for an expired token; the body is the JSON string that names
    the error. *)
Definition unauthorized : response :=
  Response 401 (dquote +:+ "InvalidAuthenticationToken" +:+ dquote) None
           (JsonValue "InvalidAuthenticationToken").

(** 401 with a body that is not JSON, as a gateway in between sends
    it. *)
Definition unauthorized_text : response :=
  Response 401 "Token expired" None (JsonError json_error_msg).

(** A mail endpoint that accepts everything. *)
Definition accepting : env :=
  always (PostResponse
            (Response 202 EmptyString None (JsonError json_error_msg))).

(** The first of five attempts meets a transport error, the second is
    answered with 401; the provider then grants ["T2"]. *)
Definition expired_at_second : env :=
  Env sample_clock (fun _ => grant "T2" None)
      (fun n => match n with
                | O => PostRaises "timed out"
                | _ => PostResponse unauthorized
                end)
      (fun _ => None) None false (fun _ => None).

(* ===================================================================== *)
(** * Notions for the budget of a call                                    *)
(* ===================================================================== *)

Definition is_post (ev : event) : bool :=
  match ev with Post _ _ => true | _ => false end.

Definition is_exchange (ev : event) : bool :=
  match ev with Exchange => true | _ => false end.

Definition is_sleep (ev : event) : bool :=
  match ev with Sleep _ => true | _ => false end.

(** How many events of a kind a trace holds. *)
Definition count (kind : event -> bool) (evs : list event) : nat :=
  length (List.filter kind evs).

(* ===================================================================== *)
(** * Notions for the answers of the mail endpoint                        *)
(* ===================================================================== *)

(** The decoded body carries no signal of an expired token, as the code
    tests it. *)
Definition no_expiry_signal (d : string) : Prop :=
  contains "InvalidAuthenticationToken" d = false
  /\ contains "expired" (lower d) = false.

(** An answer that is neither an acceptance, nor a throttling answer,
    nor a 401 that the code takes for an expired token: any other
    status without the throttling marker in its body, or a 401 whose
    body is empty or decodes to something without the signal. *)
Definition plain_rejection (r : response) : Prop :=
  status_code r <> 202
  /\ ((status_code r <> 401 /\ status_code r <> 429
       /\ contains "ApplicationThrottled" (text r) = false)
      \/ (status_code r = 401
          /\ (truthy (text r) = false
              \/ exists d, json r = JsonValue d /\ no_expiry_signal d))).

(** A throttling answer: status 429, or the marker in the body of an
    answer that is neither 202 nor 401. *)
Definition throttling (r : response) : Prop :=
  status_code r <> 202 /\ status_code r <> 401
  /\ (status_code r = 429
      \/ contains "ApplicationThrottled" (text r) = true).

(** The events of [n] attempts that each post and then sleep, the
    [k]-th for [w k] seconds. *)
Definition posts_and_sleeps (recipient token : string) (w : Z -> Z)
    (attempts : list Z) : list event :=
  concat (List.map (fun k => [Post recipient token; Sleep (w k)]) attempts).

(** A mail endpoint whose connection fails every time. *)
Definition unreachable : env := always (PostRaises "timed out").

(** The answer of a server in trouble. *)
Definition server_error : response :=
  Response 500 "Internal Server Error" None (JsonError json_error_msg).

(** The text of the [ValueError] of [time.sleep] for a negative
    duration. *)
Definition negative_sleep_msg : string := "sleep length must be non-negative".

(** A duration that [time.sleep] takes: not negative, not beyond
    [sleep_max], and not refused by the platform. *)
Definition sleep_taken (E : env) (seconds : Z) : Prop :=
  0 <= seconds <= sleep_max
  /\ (600 < seconds -> long_sleep_error E seconds = None).

(** A throttling answer with a Retry-After header. *)
Definition retry_in (h : string) : response := throttled_json (Some h).

(** The first request is answered with [r], every later one is
    accepted. *)
Definition first_then_accept (r : response) : env :=
  Env sample_clock (fun _ => grant "T" (Some 3600))
      (fun n => match n with
                | O => PostResponse r
                | _ => PostResponse
                         (Response 202 EmptyString None
                            (JsonError json_error_msg))
                end)
      (fun _ => None) None false (fun _ => None).

(** A throttling answer without a Retry-After header whose body
    decodes. *)
Definition throttled_bare (r : response) : Prop :=
  throttling r /\ retry_after r = None /\ decodes r.

(* ===================================================================== *)
(** * Notions for the token provider                                      *)
(* ===================================================================== *)

(** The text of the error the provider's answer carries:
    [result.get("error_description", result.get("error", "Unknown error"))]. *)
Definition token_error_msg (result : token_result) : string :=
  default (default "Unknown error" (t_error result))
          (t_error_description result).

(** The answer of the identity provider that refuses. *)
Definition refusal (error error_description : option string) : token_result :=
  TokenResult None None error_description error.

(** An identity provider that refuses every exchange. *)
Definition refusing : env :=
  Env sample_clock
      (fun _ => refusal (Some "invalid_client") (Some "AADSTS7000215"))
      (fun _ => PostResponse unauthorized) (fun _ => None) None false
      (fun _ => None).

(** A provider that grants ["T"] for [expires_in] seconds. *)
Definition granting (expires_in : option Z) : env :=
  Env sample_clock (fun _ => grant "T" expires_in)
      (fun _ => PostRaises "timed out") (fun _ => None) None false
      (fun _ => None).

(* ===================================================================== *)
(** * Notions for the campaign runner                                     *)
(* ===================================================================== *)

(** The recipients a run goes through: [recipient_list[start_index:]]
    when [start_index] is positive, the whole list otherwise. *)
Definition remaining (start_index : Z) (recipient_list : list string)
    : list string :=
  if start_index >? 0 then skipn (Z.to_nat start_index) recipient_list
  else recipient_list.

(** The set a run loads from the ledger at startup. *)
Definition loaded (progress_file : bool) (E : env) (st : state)
    : gset string :=
  match load_progress progress_file E st with
  | (Ret sent_emails, _) => sent_emails
  | (Raise _, _) => ∅
  end.

(** The recipients of the successful results. *)
Definition delivered (results : list Result.t) : list string :=
  List.map Result.recipient (List.filter Result.success results).

(** The file after a line was written for each of [xs], in order. *)
Definition with_lines (file : option string) (xs : list string)
    : option string :=
  fold_left
    (fun f x => Some (default EmptyString f +:+ x +:+ String LF EmptyString))
    xs file.

(** The text of the lines written for [xs]: each address followed by a
    line feed. *)
Definition ledger_lines (xs : list string) : string :=
  fold_right (fun x acc => x +:+ String LF EmptyString +:+ acc)
             EmptyString xs.

(** The members of a set, as a list. *)
Definition members (s : gset string) : list string := elements s.

(* ===================================================================== *)
(** * Notions for the extraction                                          *)
(* ===================================================================== *)

(** A character that sets an address apart from the text around it:
    not a word character and none that the pattern of an address takes
    (a blank, a comma, a bracket, a quote, ...). *)
Definition separator (c : ascii) : bool :=
  negb (is_word c) && negb (local_class c).

(** The text before an address: without [@], and ended by a separator
    when it is not empty. *)
Definition leads_in (pre : string) : Prop :=
  all_in (fun c => negb (Ascii.eqb c "@")) pre = true
  /\ match last_char None pre with
     | Some c => separator c = true
     | None => True
     end.

(** The text after an address: empty, or begun by a separator. *)
Definition leads_out (post : string) : Prop :=
  match post with
  | String c _ => separator c = true
  | EmptyString => True
  end.

(* ===================================================================== *)
(** * Loading the recipients                                              *)
(* ===================================================================== *)

(** The lines a text-mode file yields when iterated, each with the line
    feed that ends it (universal newlines: CR and CR LF are read as LF);
    the last line has none when the file does not end with a line
    break. *)
Fixpoint raw_lines (s : string) : list string :=
  match s with
  | EmptyString => []
  | String c s' =>
      if Ascii.eqb c LF then String LF EmptyString :: raw_lines s'
      else if Ascii.eqb c CR then
        match s' with
        | String c' s'' =>
            if Ascii.eqb c' LF then String LF EmptyString :: raw_lines s''
            else String LF EmptyString :: raw_lines s'
        | EmptyString => [String LF EmptyString]
        end
      else match raw_lines s' with
           | [] => [String c EmptyString]
           | w :: ws => String c w :: ws
           end
  end.

(** The recipients file as the loader finds it: not there; there, but
    opening it or decoding it as UTF-8 raises, with the given text; or
    there with its text. *)
Inductive text_file : Type :=
| NoFile
| BadFile (msg : string)
| TextFile (content : string).

(** [load_recipients_from_file]: [file] is the file at [file_path].  The
    lines are read before the pipeline starts, so a file that cannot be
    read to its end gives no recipients at all. *)
Definition load_recipients_from_file (D : disify) (file_path : string)
    (file : text_file) (use_disify : bool)
    : outcome (list string * stats) :=
  match file with
  | NoFile => Raise (Exception ("Recipients file not found: " +:+ file_path))
  | BadFile msg => Raise (Exception msg)
  | TextFile content =>
      Ret (filter_and_validate_emails D (raw_lines content) use_disify)
  end.

(** An address as the pipeline leaves it and takes it: well formed, in
    lower case, beginning with a letter, a digit or an underscore. *)
Definition plain_address (e : string) : Prop :=
  well_formed e /\ lower e = e /\ word_after e = true.

(* ===================================================================== *)
(** * Notions for the external validation                                 *)
(* ===================================================================== *)

(** A string that is not empty and has no white space at either end. *)
Definition trimmed (e : string) : Prop := truthy e = true /\ strip e = e.

(** A service that answers every batch with the session ["s1"], and
    the view of that session with [text]. *)
Definition answering (text : string) : disify :=
  Disify
    (fun _ _ =>
       MassResponse 200
         (Some (MassResult (Some "s1") (Some (Count 3)) (Some (Count 1))
                           None None (Some (Count 2)))))
    (fun _ _ => ViewResponse 200 text).

(** The counters of an answer are integers where they are present. *)
Definition numeric (result : mass_result) : Prop :=
  r_total result <> Some NotCount
  /\ r_invalid_format result <> Some NotCount
  /\ r_invalid_dns result <> Some NotCount
  /\ r_disposable result <> Some NotCount
  /\ r_valid result <> Some NotCount.

(** A service that answers like [answering], with the string ["n/a"] as
    its counter of disposable addresses. *)
Definition miscounting (text : string) : disify :=
  Disify
    (fun _ _ =>
       MassResponse 200
         (Some (MassResult (Some "s1") (Some (Count 3)) (Some (Count 1))
                           None (Some NotCount) (Some (Count 2)))))
    (fun _ _ => ViewResponse 200 text).

(* ===================================================================== *)
(** * Notions for running the pipeline twice                              *)
(* ===================================================================== *)

Definition is_ascii (c : ascii) : bool := (code c <? 128)%N.

(** A text of ASCII characters only. *)
Definition ascii_text (s : string) : Prop := all_in is_ascii s = true.

(** What follows the local part in [email_pattern]. *)
Definition address_tail : pattern :=
  [Char "@"; Many domain_class 1; Char "."; Many is_ascii_alpha 2;
   WordBoundary].

(** From the start of [s], a run of local-part characters, which may be
    empty, leads to an [@] where the rest of an address matches. *)
Definition reaches_at (s : string) : Prop :=
  exists taken rest,
    s = taken +:+ rest /\ all_in local_class taken = true
    /\ is_Some (match_here address_tail None rest).

(** The letter e with an acute accent (U+00E9). *)
Definition e_acute : ascii := ascii_of_N 233.

(** The second request meets a server error, every other one is
    accepted. *)
Definition second_fails : env :=
  Env sample_clock (fun _ => grant "T" (Some 3600))
      (fun n => match n with
                | S O => PostResponse server_error
                | _ => PostResponse
                         (Response 202 EmptyString None
                            (JsonError json_error_msg))
                end)
      (fun _ => None) None false (fun _ => None).

(** The recipients of a list that are not in a set, in order. *)
Definition outside (s : gset string) (l : list string) : list string :=
  List.filter (fun x => bool_decide (x ∉ s)) l.

(* ===================================================================== *)
(** * Logo and attachment                                                 *)
(* ===================================================================== *)

(** ** [base64.b64encode] *)

Definition b64_alphabet : string :=
  "ABCDEFGHIJKLMNOPQRSTUVWXYZabcdefghijklmnopqrstuvwxyz0123456789+/".

Definition pad : ascii := "=".

(** The character for a group of six bits. *)
Definition b64_char (n : N) : ascii :=
  default pad (String.get (N.to_nat n) b64_alphabet).

(** [base64.b64encode(data).decode("utf-8")]: three bytes give four
    characters; one or two bytes left over give two or three
    characters and padding. *)
Fixpoint b64encode (data : list Byte.byte) : string :=
  match data with
  | [] => EmptyString
  | [a] =>
      let n := (Byte.to_N a * 65536)%N in
      String (b64_char (n / 262144))
        (String (b64_char ((n / 4096) mod 64))
           (String pad (String pad EmptyString)))
  | [a; b] =>
      let n := (Byte.to_N a * 65536 + Byte.to_N b * 256)%N in
      String (b64_char (n / 262144))
        (String (b64_char ((n / 4096) mod 64))
           (String (b64_char ((n / 64) mod 64)) (String pad EmptyString)))
  | a :: b :: c :: rest =>
      let n := (Byte.to_N a * 65536 + Byte.to_N b * 256 + Byte.to_N c)%N in
      String (b64_char (n / 262144))
        (String (b64_char ((n / 4096) mod 64))
           (String (b64_char ((n / 64) mod 64))
              (String (b64_char (n mod 64)) (b64encode rest))))
  end.

(** ** Strings, once more *)

(** [s.split(sep, 1)] for a one-character separator. *)
Fixpoint split_once (sep : ascii) (s : string) : list string :=
  match s with
  | EmptyString => [EmptyString]
  | String c s' =>
      if Ascii.eqb c sep then [EmptyString; s']
      else match split_once sep s' with
           | [] => [String c EmptyString]
           | w :: ws => String c w :: ws
           end
  end.

(** [s.replace(old, new)] for a non-empty [old]: the occurrences are
    taken from left to right, without overlap.  [skip] counts the
    characters of the occurrence just replaced that are still to be
    passed over. *)
Fixpoint replace_from (old new : string) (skip : nat) (s : string)
    : string :=
  match s with
  | EmptyString => EmptyString
  | String c s' =>
      match skip with
      | S k => replace_from old new k s'
      | O =>
          if String.prefix old s
          then new +:+ replace_from old new (String.length old - 1) s'
          else String c (replace_from old new 0 s')
      end
  end.

Definition replace (old new s : string) : string := replace_from old new 0 s.

(** ** The files and the network, as the two functions see them

    The files stay as they are during a call, and asking whether a path
    exists does not raise. *)

(** A [Path] object, by what the code reads of it: [str(p)], [p.name]
    and [p.suffix]. *)
Record path : Type := MkPath {
  path_str : string;
  path_name : string;
  path_suffix : string
}.

(** [Path(name)] for one of the file names the code tries. *)
Definition local_file (name suffix : string) : path :=
  MkPath name name suffix.

(** A file: not there, there but not readable ([open] raises an error
    with the given text), or there with its bytes. *)
Inductive file : Type :=
| Absent
| Unreadable (msg : string)
| Content (data : list Byte.byte).

(** What [requests.get(logo_url, timeout=10)] does. *)
Inductive get_outcome : Type :=
| GetRaises (msg : string)
| GetResponse (status_code : Z) (content : list Byte.byte)
              (content_type : option string).
    (* response.content and response.headers.get('Content-Type') *)

Record assets : Type := Assets {
  fs : string -> file;                  (* the files, by [str(path)] *)
  http_get : string -> get_outcome;
  PIL_AVAILABLE : bool;
  to_jpeg : string -> option (list Byte.byte)
    (* the conversion of the image at a path to JPEG by PIL, [None] when
       any step of it raises *)
}.

(** [p.exists()] *)
Definition path_exists (A : assets) (p : path) : bool :=
  match fs A (path_str p) with Absent => false | _ => true end.

(** ** [get_logo_base64] *)

(** [f"data:{content_type};base64,{logo_base64}"] *)
Definition data_uri (content_type : string) (data : list Byte.byte)
    : string :=
  "data:" +:+ content_type +:+ ";base64," +:+ b64encode data.

(** The content type of a downloaded logo, from the URL and the
    Content-Type header of the answer. *)
Definition url_content_type (logo_url : string) (header : option string)
    : string :=
  let content_type := default "image/gif" header in
  if contains "gif" (lower logo_url) || contains "gif" (lower content_type)
  then "image/gif"
  else if contains "png" (lower logo_url)
          || contains "png" (lower content_type)
  then "image/png"
  else if contains "jpg" (lower logo_url) || contains "jpeg" (lower logo_url)
          || contains "jpeg" (lower content_type)
  then "image/jpeg"
  else "image/gif".

(** The first part: the download.  [None] stands for falling through
    to the second part; every exception is caught. *)
Definition logo_from_url (A : assets) (logo_url : option string)
    : option string :=
  match logo_url with
  | Some url =>
      if truthy url then
        match http_get A url with
        | GetResponse status_code content header =>
            if status_code =? 200
            then Some (data_uri (url_content_type url header) content)
            else None
        | GetRaises _ => None
        end
      else None
  | None => None
  end.

Definition possible_names : list path :=
  [local_file "logo_black.png" ".png"; local_file "logo.png" ".png";
   local_file "logo.jpg" ".jpg"; local_file "logo.jpeg" ".jpeg";
   local_file "logo.gif" ".gif"].

(** The content type of a logo file, from its suffix. *)
Definition suffix_content_type (suffix : string) : string :=
  if String.eqb (lower suffix) ".jpg" || String.eqb (lower suffix) ".jpeg"
  then "image/jpeg"
  else if String.eqb (lower suffix) ".png" then "image/png"
  else if String.eqb (lower suffix) ".gif" then "image/gif"
  else "image/jpeg".

(** The second part: the local file. *)
Definition logo_from_file (A : assets) (logo_path : option path)
    : outcome (option string) :=
  let logo_path :=
    match logo_path with
    | Some p => Some p
    | None => List.find (path_exists A) possible_names
    end in
  match logo_path with
  | Some p =>
      if path_exists A p then
        let converted :=
          if String.eqb (lower (path_suffix p)) ".png" && PIL_AVAILABLE A
          then to_jpeg A (path_str p) else None in
        match converted with
        | Some jpeg => Ret (Some (data_uri "image/jpeg" jpeg))
        | None =>
            match fs A (path_str p) with
            | Content data =>
                Ret (Some (data_uri (suffix_content_type (path_suffix p))
                                    data))
            | Unreadable msg => Raise (Exception msg)
            | Absent => Ret None
            end
        end
      else Ret None
  | None => Ret None
  end.

Definition get_logo_base64 (A : assets) (logo_path : option path)
    (logo_url : option string) : outcome (option string) :=
  match logo_from_url A logo_url with
  | Some uri => Ret (Some uri)
  | None => logo_from_file A logo_path
  end.

(** ** [encode_attachment] *)

(** The dictionary of an attachment. *)
Record attachment : Type := Attachment {
  odata_type : string;
  att_name : string;
  contentType : string;
  contentBytes : string
}.

Definition encode_attachment (A : assets) (file_path : path)
    : outcome attachment :=
  match fs A (path_str file_path) with
  | Absent =>
      Raise (Exception ("Attachment file not found: "
                        +:+ path_str file_path))
  | Unreadable msg => Raise (Exception msg)
  | Content data =>
      Ret (Attachment "#microsoft.graph.fileAttachment"
                      (path_name file_path) "application/pdf"
                      (b64encode data))
  end.

(** ** The logo in the body of the message *)

Definition placeholder : string :=
  "<img src=" +:+ dquote +:+ "PLACEHOLDER_LOGO_URL" +:+ dquote
  +:+ " alt=" +:+ dquote +:+ "Company Logo" +:+ dquote +:+ " />".

(** The tag that takes the place of the placeholder. *)
Definition base64_img_tag (content_type logo_data : string) : string :=
  "<img src=" +:+ dquote +:+ "data:" +:+ content_type +:+ ";base64,"
  +:+ logo_data +:+ dquote +:+ " alt=" +:+ dquote +:+ "Company Logo"
  +:+ dquote +:+ " style=" +:+ dquote
  +:+ "max-width: 250px; height: auto; display: block; "
  +:+ "margin: 0 auto; border: 0;"
  +:+ dquote +:+ " />".

(** [x[0]], [x[1]]: an index out of range is an [IndexError]. *)
Definition item (n : nat) (l : list string) : outcome string :=
  match nth_error l n with
  | Some x => Ret x
  | None => Raise (Exception "list index out of range")
  end.

(** The content type and the data that [send_email] reads off the
    result of [get_logo_base64]. *)
Definition logo_parts (logo_base64 : string) (logo_path : option path)
    : outcome (string * string) :=
  if String.prefix "data:" logo_base64 then
    let parts := split_once "," logo_base64 in
    match item 0 parts with
    | Raise e => Raise e
    | Ret head =>
        match item 1 (split ":" head) with
        | Raise e => Raise e
        | Ret typed =>
            match item 0 (split ";" typed) with
            | Raise e => Raise e
            | Ret content_type =>
                match item 1 parts with
                | Raise e => Raise e
                | Ret logo_data => Ret (content_type, logo_data)
                end
            end
        end
    end
  else
    Ret (match logo_path with
         | Some p =>
             if String.eqb (lower (path_suffix p)) ".gif" then "image/gif"
             else if String.eqb (lower (path_suffix p)) ".jpg"
                     || String.eqb (lower (path_suffix p)) ".jpeg"
             then "image/jpeg"
             else "image/jpeg"
         | None => "image/jpeg"
         end,
         logo_base64).

(** The body of the message after the logo was put in. *)
Definition embed_logo (logo_base64 : option string)
    (logo_path : option path) (body_html : string) : outcome string :=
  match logo_base64 with
  | Some uri =>
      if truthy uri then
        match logo_parts uri logo_path with
        | Ret (content_type, logo_data) =>
            Ret (replace placeholder (base64_img_tag content_type logo_data)
                         body_html)
        | Raise e => Raise e
        end
      else Ret body_html
  | None => Ret body_html
  end.

(** What [send_email] does with logo and attachment before the first
    request: the body with the logo, and the attachments. *)
Definition prepare_assets (A : assets) (body_html : string)
    (attachment_path logo_path : option path) (logo_url : option string)
    : outcome (string * list attachment) :=
  match get_logo_base64 A logo_path logo_url with
  | Raise e => Raise e
  | Ret logo_base64 =>
      match embed_logo logo_base64 logo_path body_html with
      | Raise e => Raise e
      | Ret body_html' =>
          match attachment_path with
          | Some p =>
              match encode_attachment A p with
              | Raise e => Raise e
              | Ret a => Ret (body_html', [a])
              end
          | None => Ret (body_html', [])
          end
      end
  end.

(** The position of a character in a string (its length when the
    character does not occur). *)
Fixpoint index_of (c : ascii) (s : string) : N :=
  match s with
  | EmptyString => 0%N
  | String c' s' => if Ascii.eqb c c' then 0%N else (1 + index_of c s')%N
  end.

(** The content types that the code gives a logo. *)
Definition image_types : list string :=
  ["image/gif"; "image/png"; "image/jpeg"].

(** A directory with a PNG logo and a PDF; nothing can be downloaded. *)
Definition sample_assets : assets :=
  Assets
    (fun p => if String.eqb p "logo.png" then Content [Byte.x89; Byte.x50]
              else if String.eqb p "offer.pdf"
                   then Content [Byte.x25; Byte.x50; Byte.x44; Byte.x46]
                   else Absent)
    (fun _ => GetRaises "timed out") false (fun _ => None).

(** Where the bytes of a logo can come from: the download, the
    conversion of a file by PIL, or a file as it is. *)
Definition logo_source (A : assets) (logo_url : option string)
    (data : list Byte.byte) : Prop :=
  (exists url header,
      logo_url = Some url /\ http_get A url = GetResponse 200 data header)
  \/ (exists name, to_jpeg A name = Some data)
  \/ (exists name, fs A name = Content data).

(* ===================================================================== *)
(** * Properties of the validator                                         *)
(* ===================================================================== *)

(** ** The matcher against the grammar *)

Lemma append_cons (c : ascii) (a b : string) :
  String c a +:+ b = String c (a +:+ b).
Proof. reflexivity. Qed.

Lemma append_nil_l (a : string) : EmptyString +:+ a = a.
Proof. reflexivity. Qed.

Lemma append_nil_r (a : string) : a +:+ EmptyString = a.
Proof.
  induction a as [|c a IH]; [reflexivity|].
  rewrite append_cons, IH. reflexivity.
Qed.

Lemma append_assoc (a b c : string) : (a +:+ b) +:+ c = a +:+ b +:+ c.
Proof.
  induction a as [|x a IH]; [reflexivity|].
  rewrite !append_cons, IH. reflexivity.
Qed.

(** A greedy repetition finds a match exactly when some number of
    leading characters of the class, at least the minimum, can be taken
    so that the rest of the pattern matches what is left. *)
Lemma match_many_iff (cls : ascii -> bool) (min : nat)
    (k : option ascii -> string -> option string) (s : string) :
  forall n prev,
    is_Some (match_many cls min k n prev s)
    <-> exists taken rest,
          s = taken +:+ rest /\ all_in cls taken = true
          /\ (min <= n + String.length taken)%nat
          /\ is_Some (k (last_char prev taken) rest).
Proof.
  induction s as [|c s IH]; intros n prev; cbn [match_many].
  - split.
    + destruct (Nat.leb_spec min n) as [Hle|Hgt];
        [|intros [? [=]]]. intros Hk.
      exists EmptyString, EmptyString. cbn. rewrite Nat.add_0_r. auto.
    + intros ([|c t] & rest & Heq & _ & Hmin & Hk); [|discriminate].
      rewrite append_nil_l in Heq. cbn in *. subst rest.
      rewrite Nat.add_0_r in Hmin.
      destruct (Nat.leb_spec min n); [exact Hk|lia].
  - split.
    + intros H. destruct (cls c) eqn:Hc.
      * destruct (match_many cls min k (S n) (Some c) s) as [r|] eqn:Hm.
        -- destruct (proj1 (IH (S n) (Some c)))
             as (t & rest & -> & Ht & Hmin & Hk).
           { rewrite Hm. eauto. }
           exists (String c t), rest.
           cbn [all_in list_ascii_of_string forallb last_char
                String.length].
           rewrite Hc. split; [reflexivity|]. split; [exact Ht|].
           split; [lia | exact Hk].
        -- destruct (Nat.leb_spec min n) as [Hle|Hgt];
             [|destruct H as [? [=]]].
           exists EmptyString, (String c s). cbn. rewrite Nat.add_0_r. auto.
      * destruct (Nat.leb_spec min n) as [Hle|Hgt];
          [|destruct H as [? [=]]].
        exists EmptyString, (String c s). cbn. rewrite Nat.add_0_r. auto.
    + intros ([|c' t] & rest & Heq & Ht & Hmin & Hk).
      * rewrite append_nil_l in Heq. cbn in Hmin, Hk. subst rest.
        rewrite Nat.add_0_r in Hmin.
        assert (Hstop : is_Some (if (min <=? n)%nat
                                 then k prev (String c s) else None)).
        { destruct (Nat.leb_spec min n); [exact Hk|lia]. }
        destruct (cls c); [|exact Hstop].
        destruct (match_many cls min k (S n) (Some c) s); [eauto|exact Hstop].
      * rewrite append_cons in Heq. injection Heq as <- ->.
        cbn [all_in list_ascii_of_string forallb] in Ht.
        apply andb_true_iff in Ht as [-> Ht].
        cbn [String.length last_char] in *.
        destruct (proj2 (IH (S n) (Some c))) as [r ->]; [|eauto].
        exists t, rest. split; [reflexivity|]. split; [exact Ht|].
        split; [lia | exact Hk].
Qed.

Lemma at_end_iff (s : string) :
  at_end s = true <-> s = EmptyString \/ s = String LF EmptyString.
Proof.
  destruct s as [|c [|c' s]]; cbn.
  - tauto.
  - rewrite Ascii.eqb_eq. split; [intros ->; auto|].
    intros [H|H]; [discriminate | congruence].
  - split; [discriminate|]. intros [H|H]; discriminate.
Qed.

Lemma match_char_iff (c : ascii) (pat : pattern) (prev : option ascii)
    (s : string) :
  is_Some (match_here (Char c :: pat) prev s)
  <-> exists s', s = String c s' /\ is_Some (match_here pat (Some c) s').
Proof.
  cbn [match_here]. destruct s as [|c' s].
  - split; [intros [? [=]] | intros (? & [=] & _)].
  - destruct (Ascii.eqb_spec c c') as [<-|Hne].
    + split; [eauto|]. intros (s' & [= <-] & H). exact H.
    + split; [intros [? [=]]|]. intros (s' & [= ? ?] & _). congruence.
Qed.

Lemma match_here_bol (pat : pattern) (s : string) :
  match_here (Bol :: pat) None s = match_here pat None s.
Proof. reflexivity. Qed.

Lemma match_here_many (cls : ascii -> bool) (min : nat) (pat : pattern)
    (prev : option ascii) (s : string) :
  match_here (Many cls min :: pat) prev s
  = match_many cls min (match_here pat) 0 prev s.
Proof. reflexivity. Qed.

Lemma match_eol_iff (prev : option ascii) (s : string) :
  is_Some (match_here [Eol] prev s)
  <-> s = EmptyString \/ s = String LF EmptyString.
Proof.
  rewrite <- at_end_iff. cbn [match_here].
  destruct (at_end s); split; eauto; try discriminate. intros [? [=]].
Qed.

(** The validator accepts exactly the well-formed addresses and the
    well-formed addresses followed by one line feed. *)
Lemma is_valid_email_iff (s : string) :
  is_valid_email s = true
  <-> well_formed s
      \/ exists s', s = s' +:+ String LF EmptyString /\ well_formed s'.
Proof.
  unfold is_valid_email, re_match.
  transitivity (is_Some (match_here valid_pattern None s)).
  { destruct (match_here valid_pattern None s); split; eauto;
      try discriminate. intros [? [=]]. }
  unfold valid_pattern.
  rewrite match_here_bol, match_here_many, match_many_iff.
  split.
  - intros (l & r1 & -> & Hl & Hnl & H1).
    apply match_char_iff in H1 as (r2 & -> & H2).
    rewrite match_here_many in H2. apply match_many_iff in H2
      as (d & r3 & -> & Hd & Hnd & H3).
    apply match_char_iff in H3 as (r4 & -> & H4).
    rewrite match_here_many in H4. apply match_many_iff in H4
      as (t & r5 & -> & Ht & Hnt & H5).
    apply match_eol_iff in H5 as [-> | ->].
    + left. exists l, d, t.
      rewrite append_nil_r. repeat split; auto.
    + right. exists (l +:+ "@" +:+ d +:+ "." +:+ t). split.
      * rewrite !append_assoc. reflexivity.
      * exists l, d, t. repeat split; auto.
  - intros [(l & d & t & -> & Hl & Hnl & Hd & Hnd & Ht & Hnt)
           |(s' & -> & l & d & t & -> & Hl & Hnl & Hd & Hnd & Ht & Hnt)].
    + exists l, ("@" +:+ d +:+ "." +:+ t).
      split; [reflexivity|]. split; [exact Hl|]. split; [lia|].
      apply match_char_iff. eexists. split; [reflexivity|].
      rewrite match_here_many. apply match_many_iff.
      exists d, ("." +:+ t).
      split; [reflexivity|]. split; [exact Hd|]. split; [lia|].
      apply match_char_iff. eexists. split; [reflexivity|].
      rewrite match_here_many. apply match_many_iff.
      exists t, EmptyString. split; [rewrite append_nil_r; reflexivity|].
      split; [exact Ht|]. split; [lia|]. apply match_eol_iff. auto.
    + exists l, ("@" +:+ d +:+ "." +:+ t +:+ String LF EmptyString).
      split; [rewrite !append_assoc; reflexivity|].
      split; [exact Hl|]. split; [lia|].
      apply match_char_iff. eexists. split; [reflexivity|].
      rewrite match_here_many. apply match_many_iff.
      exists d, ("." +:+ t +:+ String LF EmptyString).
      split; [reflexivity|]. split; [exact Hd|]. split; [lia|].
      apply match_char_iff. eexists. split; [reflexivity|].
      rewrite match_here_many. apply match_many_iff.
      exists t, (String LF EmptyString). split; [reflexivity|].
      split; [exact Ht|]. split; [lia|]. apply match_eol_iff. auto.
Qed.

(** C7. The format validator accepts the strings of the form
    local@domain.tld, with a non-empty local part in [A-Za-z0-9._%+-], a
    non-empty domain in [A-Za-z0-9.-] and a top-level domain of two or
    more letters of either case, and the sample verdicts hold: the two
    well-formed addresses are accepted, the four malformed ones are
    rejected.  The match is not anchored at the end of the string,
    though: [$] also matches just before a final line feed, so the
    validator accepts a well-formed address followed by a line feed as
    well, and nothing else. *)
Theorem is_valid_email_verdicts :
  (forall s,
      is_valid_email s = true
      <-> well_formed s
          \/ exists s', s = s' +:+ String LF EmptyString /\ well_formed s')
  /\ is_valid_email "user@example.com" = true
  /\ is_valid_email "a.b+c@sub.example.co" = true
  /\ is_valid_email "user@.com" = false
  /\ is_valid_email "user@com" = false
  /\ is_valid_email "@example.com" = false
  /\ is_valid_email EmptyString = false
  /\ is_valid_email ("user@example.com" +:+ String LF EmptyString) = true.
Proof. split; [exact is_valid_email_iff|]. repeat split; reflexivity. Qed.

(* ===================================================================== *)
(** * Properties of the sanitisation pipeline                             *)
(* ===================================================================== *)

Lemma dedup_loop_refines (l before unique_emails : list string)
    (seen : gset string) (n : Z) :
  (forall x, x ∈ seen <-> x ∈ before) ->
  exists seen',
    dedup_loop l (seen, unique_emails, n)
    = (seen', unique_emails ++ first_occurrences before l,
       n + later_occurrences before l)
    /\ (forall x, x ∈ seen' <-> x ∈ before ++ l).
Proof.
  revert before unique_emails seen n.
  induction l as [|a l IH]; intros before unique_emails seen n Hseen.
  - exists seen. cbn. rewrite !app_nil_r, Z.add_0_r. auto.
  - cbn [dedup_loop first_occurrences later_occurrences].
    destruct (decide (a ∈ seen)) as [Hin|Hin];
      destruct (decide (a ∈ before)) as [Hb|Hb];
      try (apply Hseen in Hin; contradiction);
      try (apply Hseen in Hb; contradiction).
    + destruct (IH (before ++ [a]) unique_emails seen (n + 1))
        as (s' & -> & Hs').
      { intros x. rewrite elem_of_app, list_elem_of_singleton, <- Hseen.
        split; [auto|]. intros [?| ->]; auto. }
      exists s'. split; [f_equal; lia|].
      intros x. rewrite Hs', <- app_assoc. reflexivity.
    + destruct (IH (before ++ [a]) (unique_emails ++ [a]) ({[a]} ∪ seen) n)
        as (s' & -> & Hs').
      { intros x. rewrite elem_of_union, elem_of_singleton, elem_of_app,
          list_elem_of_singleton, Hseen. tauto. }
      exists s'. split; [rewrite <- app_assoc; reflexivity|].
      intros x. rewrite Hs', <- app_assoc. reflexivity.
Qed.

Lemma first_occurrences_elem (l before : list string) (x : string) :
  x ∈ first_occurrences before l <-> x ∈ l /\ x ∉ before.
Proof.
  revert before. induction l as [|a l IH]; intros before; cbn.
  - rewrite elem_of_nil. tauto.
  - destruct (decide (a ∈ before)) as [Hb|Hb].
    + rewrite IH, elem_of_cons, elem_of_app, list_elem_of_singleton.
      split.
      * intros [? ?]. split; [auto|]. intros ?. tauto.
      * intros [[->|?] ?]; [contradiction|]. split; [auto|].
        intros [?| ->]; contradiction.
    + rewrite !elem_of_cons, IH, elem_of_app, list_elem_of_singleton.
      split.
      * intros [->|[? ?]]; [auto|]. split; [auto|]. tauto.
      * intros [[->|?] ?]; [auto|].
        destruct (decide (x = a)) as [->|Hne]; [auto|]. right.
        split; [auto|]. tauto.
Qed.

Lemma first_occurrences_NoDup (l before : list string) :
  NoDup (first_occurrences before l).
Proof.
  revert before. induction l as [|a l IH]; intros before; cbn.
  - constructor.
  - destruct (decide (a ∈ before)); [apply IH|].
    constructor; [|apply IH].
    rewrite first_occurrences_elem, elem_of_app, list_elem_of_singleton.
    tauto.
Qed.

Lemma occurrences_length (l before : list string) :
  len (first_occurrences before l) + later_occurrences before l = len l.
Proof.
  unfold len. revert before.
  induction l as [|a l IH]; intros before;
    cbn [first_occurrences later_occurrences].
  - reflexivity.
  - specialize (IH (before ++ [a])).
    destruct (decide (a ∈ before)); cbn [length]; lia.
Qed.

Lemma filter_and_validate_duplicates (D : disify) (emails : list string)
    (use_disify : bool) :
  duplicates_removed (snd (filter_and_validate_emails D emails use_disify))
  = snd (dedup_loop (fst (extract_loop 1 emails ([], []))) (∅, [], 0)).
Proof.
  unfold filter_and_validate_emails.
  destruct (extract_loop 1 emails ([], [])) as [extracted invalid_lns].
  cbn [fst].
  destruct (dedup_loop extracted (∅, [], 0)) as [[seen unique_emails] n].
  destruct (format_loop unique_emails ([], [])) as [format_valid invalid].
  destruct (if use_disify && negb (bool_decide (format_valid = []))
            then _ else _) as [final_valid dstats].
  reflexivity.
Qed.

(** C8. The deduplication stage keeps exactly the first occurrence of
    each extracted address, in input order, and counts every later
    occurrence: its list is the list of first occurrences, has no
    repetition and the same members as the input, and its counter is the
    number of later occurrences (so kept and counted add up to the
    input).  The four lines of the example yield the two addresses with
    two duplicates removed. *)
Theorem dedup_keeps_first_occurrences (extracted : list string) :
  let '(_, unique_emails, duplicates_count) :=
    dedup_loop extracted (∅, [], 0) in
  unique_emails = first_occurrences [] extracted
  /\ duplicates_count = later_occurrences [] extracted
  /\ NoDup unique_emails
  /\ (forall x, x ∈ unique_emails <-> x ∈ extracted)
  /\ len unique_emails + duplicates_count = len extracted
  /\ forall D use_disify,
       let '(recipients, st) :=
         filter_and_validate_emails D
           ["a@x.com"; "A@x.com"; "b@y.com"; "a@x.com"] use_disify in
       duplicates_removed st = 2
       /\ (use_disify = false -> recipients = ["a@x.com"; "b@y.com"]).
Proof.
  destruct (dedup_loop_refines extracted [] [] ∅ 0) as (seen' & -> & _).
  { intros x. rewrite elem_of_empty, elem_of_nil. tauto. }
  cbn [app]. rewrite Z.add_0_l.
  split; [reflexivity|]. split; [reflexivity|].
  split; [apply first_occurrences_NoDup|].
  split.
  { intros x. rewrite first_occurrences_elem, elem_of_nil. tauto. }
  split; [apply occurrences_length|].
  intros D use_disify.
  pose proof (filter_and_validate_duplicates D
                ["a@x.com"; "A@x.com"; "b@y.com"; "a@x.com"] use_disify) as Hd.
  destruct (filter_and_validate_emails D _ use_disify)
    as [recipients st] eqn:Hrun.
  cbn [snd] in Hd. split.
  - rewrite Hd. vm_compute. reflexivity.
  - intros ->. vm_compute in Hrun. congruence.
Qed.

(** C6. Whatever the lines and whatever the external validator does (or
    when it is not used), the statistics report as [final_valid_emails]
    the length of the returned recipient list; and the validator itself
    reports as [valid] the length of the list it accumulated, not the sum
    of the provider's totals. *)
Theorem final_valid_is_length :
  (forall (D : disify) (emails : list string) (use_disify : bool),
      let '(recipients, st) :=
        filter_and_validate_emails D emails use_disify in
      final_valid_emails st = len recipients)
  /\ (forall (D : disify) (email_list : list string),
         let '(all_valid_emails, total_stats) :=
           validate_emails_with_disify D email_list in
         d_valid total_stats = len all_valid_emails).
Proof.
  split.
  - intros D emails use_disify. unfold filter_and_validate_emails.
    destruct (extract_loop 1 emails ([], [])) as [extracted invalid_lns].
    destruct (dedup_loop extracted (∅, [], 0)) as [[seen unique_emails] n].
    destruct (format_loop unique_emails ([], [])) as [format_valid invalid].
    destruct (if use_disify && negb (bool_decide (format_valid = []))
              then _ else _) as [final_valid dstats].
    reflexivity.
  - intros D email_list. unfold validate_emails_with_disify.
    destruct email_list as [|e email_list]; [reflexivity|].
    destruct (disify_loop D _ _ _) as [all_valid_emails total_stats].
    reflexivity.
Qed.

(** ** Degradation of the external validation *)

Lemma disify_batch_fails (D : disify) (email_list : list string) (i : nat)
    (all_valid_emails : list string) (total_stats : disify_stats) :
  batch_fails D email_list i ->
  disify_batch D email_list i (all_valid_emails, total_stats)
  = (all_valid_emails ++ List.filter is_valid_email (batch_at email_list i),
     total_stats).
Proof.
  intros [H | status body H Hs | H | result s H Hsess Ht Hv];
    unfold disify_batch; rewrite H.
  - reflexivity.
  - destruct (Z.eqb_spec status 200); [contradiction|reflexivity].
  - reflexivity.
  - cbn. rewrite Hsess, Ht, Hv. reflexivity.
Qed.

(** The batches, one after the other, make up the list. *)
Lemma batches_from (email_list : list string) (k j : nat) :
  concat (List.map (batch_at email_list)
            (List.map (fun j => (j * batch_size)%nat) (seq j k)))
  = firstn (k * batch_size) (skipn (j * batch_size) email_list).
Proof.
  revert j. induction k as [|k IH]; intros j; [reflexivity|].
  cbn [seq List.map concat]. rewrite IH. unfold batch_at.
  replace (S j * batch_size)%nat with (j * batch_size + batch_size)%nat
    by lia.
  rewrite <- drop_drop, take_take_drop. reflexivity.
Qed.

Lemma batches_cover (email_list : list string) :
  concat (List.map (batch_at email_list)
            (batch_starts (length email_list)))
  = email_list.
Proof.
  unfold batch_starts. rewrite batches_from. cbn [Nat.mul skipn].
  apply take_ge. unfold batch_size.
  pose proof (Nat.div_mod_eq (length email_list + 499) 500).
  pose proof (Nat.mod_upper_bound (length email_list + 499) 500).
  change (500 - 1)%nat with 499%nat. lia.
Qed.

Lemma filter_concat {A} (f : A -> bool) (ls : list (list A)) :
  List.filter f (concat ls) = concat (List.map (List.filter f) ls).
Proof.
  induction ls as [|l ls IH]; [reflexivity|].
  cbn [concat List.map]. rewrite List.filter_app, IH. reflexivity.
Qed.

Lemma disify_loop_all_fail (D : disify) (email_list : list string)
    (starts : list nat) (all_valid_emails : list string)
    (total_stats : disify_stats) :
  Forall (batch_fails D email_list) starts ->
  disify_loop D email_list starts (all_valid_emails, total_stats)
  = (all_valid_emails
     ++ concat (List.map (fun i => List.filter is_valid_email
                                     (batch_at email_list i)) starts),
     total_stats).
Proof.
  revert all_valid_emails.
  induction starts as [|i starts IH]; intros all_valid_emails Hall.
  - cbn. rewrite app_nil_r. reflexivity.
  - apply Forall_cons in Hall as [Hi Hall]. cbn [disify_loop].
    rewrite (disify_batch_fails D email_list i _ _ Hi), (IH _ Hall).
    cbn [List.map concat]. rewrite <- app_assoc. reflexivity.
Qed.

(** With the service failing for every batch, the validator returns the
    addresses that pass format validation, and counts nothing as
    disposable or unresolvable. *)
Lemma validate_emails_service_down (D : disify) (email_list : list string) :
  (forall i, batch_fails D email_list i) ->
  validate_emails_with_disify D email_list
  = (List.filter is_valid_email email_list,
     DisifyStats 0 0 0 0 (len email_list)
       (len (List.filter is_valid_email email_list))).
Proof.
  intros Hfail. unfold validate_emails_with_disify.
  destruct email_list as [|e l] eqn:Hl; [reflexivity|].
  rewrite <- Hl in *.
  rewrite disify_loop_all_fail by (apply Forall_forall; auto).
  rewrite app_nil_l.
  rewrite <- (List.map_map (batch_at email_list)
                (List.filter is_valid_email)).
  rewrite <- filter_concat, batches_cover. reflexivity.
Qed.

(** The accumulated list only grows. *)
Lemma disify_batch_extends (D : disify) (email_list : list string) (i : nat)
    (all_valid_emails : list string) (total_stats : disify_stats) :
  exists added,
    fst (disify_batch D email_list i (all_valid_emails, total_stats))
    = all_valid_emails ++ added.
Proof.
  assert (Hcounted : forall (result : mass_result) (added : list string),
             exists added',
               fst (let '(ts, raised) := accumulate result total_stats in
                    if raised
                    then (fallback (batch_at email_list i)
                                   (all_valid_emails ++ added), ts)
                    else (all_valid_emails ++ added, ts))
               = all_valid_emails ++ added').
  { intros result added. unfold fallback.
    destruct (accumulate result total_stats) as [ts []]; cbn [fst];
      [rewrite <- app_assoc|]; eauto. }
  assert (Hcounted0 : forall result : mass_result,
             exists added',
               fst (let '(ts, raised) := accumulate result total_stats in
                    if raised
                    then (fallback (batch_at email_list i) all_valid_emails,
                          ts)
                    else (all_valid_emails, ts))
               = all_valid_emails ++ added').
  { intros result. destruct (Hcounted result []) as [added' H].
    rewrite app_nil_r in H. eauto. }
  unfold disify_batch. cbn zeta.
  destruct (mass D i _) as [|status [result|]]; unfold fallback at 1;
    [eauto| |]; destruct (status =? 200); eauto.
  destruct (session result) as [s|]; [destruct (truthy s)|]; auto.
  destruct (view D i s) as [|vstatus vtext]; [unfold fallback; eauto|].
  destruct (vstatus =? 200); [destruct (truthy (strip vtext))|]; auto.
Qed.

Lemma disify_loop_extends (D : disify) (email_list : list string)
    (starts : list nat) :
  forall st, exists later,
    fst (disify_loop D email_list starts st) = fst st ++ later.
Proof.
  induction starts as [|i starts IH]; intros [acc ts]; cbn [disify_loop].
  - exists []. rewrite app_nil_r. reflexivity.
  - destruct (disify_batch_extends D email_list i acc ts) as [added Hb].
    destruct (IH (disify_batch D email_list i (acc, ts))) as [later ->].
    rewrite Hb. exists (added ++ later). cbn [fst].
    rewrite app_assoc. reflexivity.
Qed.

Lemma disify_loop_app (D : disify) (email_list : list string)
    (before after : list nat) (st : list string * disify_stats) :
  disify_loop D email_list (before ++ after) st
  = disify_loop D email_list after (disify_loop D email_list before st).
Proof.
  revert st. induction before as [|i before IH]; intros st; [reflexivity|].
  cbn [app disify_loop]. apply IH.
Qed.

(** ** What the extraction yields *)

(** The same, keeping track of what is left after the match. *)
Lemma match_many_some (cls : ascii -> bool) (min : nat)
    (k : option ascii -> string -> option string) (s r : string) :
  forall n prev,
    match_many cls min k n prev s = Some r ->
    exists taken rest,
      s = taken +:+ rest /\ all_in cls taken = true
      /\ (min <= n + String.length taken)%nat
      /\ k (last_char prev taken) rest = Some r.
Proof.
  induction s as [|c s IH]; intros n prev; cbn [match_many].
  - destruct (Nat.leb_spec min n) as [Hle|Hgt]; [|discriminate].
    intros Hk. exists EmptyString, EmptyString.
    cbn. rewrite Nat.add_0_r. auto.
  - assert (Hstop : (if (min <=? n)%nat then k prev (String c s) else None)
                    = Some r ->
                    exists taken rest,
                      String c s = taken +:+ rest /\ all_in cls taken = true
                      /\ (min <= n + String.length taken)%nat
                      /\ k (last_char prev taken) rest = Some r).
    { destruct (Nat.leb_spec min n) as [Hle|Hgt]; [|discriminate].
      intros Hk. exists EmptyString, (String c s).
      cbn. rewrite Nat.add_0_r. auto. }
    destruct (cls c) eqn:Hc; [|exact Hstop].
    destruct (match_many cls min k (S n) (Some c) s) as [r'|] eqn:Hm;
      [|exact Hstop].
    intros [= ->].
    destruct (IH (S n) (Some c) Hm) as (t & rest & -> & Ht & Hmin & Hk).
    exists (String c t), rest.
    cbn [all_in list_ascii_of_string forallb last_char String.length].
    rewrite Hc. split; [reflexivity|]. split; [exact Ht|].
    split; [lia | exact Hk].
Qed.

Lemma all_in_app (cls : ascii -> bool) (a b : string) :
  all_in cls (a +:+ b) = all_in cls a && all_in cls b.
Proof.
  unfold all_in. induction a as [|c a IH]; [reflexivity|].
  rewrite append_cons. cbn [list_ascii_of_string forallb].
  rewrite IH, andb_assoc. reflexivity.
Qed.

Lemma all_in_impl (cls cls' : ascii -> bool) (a : string) :
  (forall c, cls c = true -> cls' c = true) ->
  all_in cls a = true -> all_in cls' a = true.
Proof.
  intros Himp. unfold all_in. rewrite !forallb_forall. auto.
Qed.

Lemma length_append (a b : string) :
  String.length (a +:+ b) = (String.length a + String.length b)%nat.
Proof.
  induction a as [|c a IH]; [reflexivity|].
  rewrite append_cons. cbn [String.length]. rewrite IH. reflexivity.
Qed.

Lemma take_append (a b : string) :
  PyStr.take (String.length a) (a +:+ b) = a.
Proof.
  induction a as [|c a IH]; [destruct b; reflexivity|].
  rewrite append_cons. cbn [String.length PyStr.take]. rewrite IH.
  reflexivity.
Qed.

Lemma class_chars (c : ascii) :
  (domain_class c = true -> address_char c = true)
  /\ (is_ascii_alpha c = true -> address_char c = true)
  /\ (local_class c = true -> address_char c = true).
Proof.
  destruct c as [[] [] [] [] [] [] [] []]; vm_compute; auto.
Qed.

(** What [email_pattern] matches is a non-empty run of address
    characters. *)
Lemma email_match_shape (prev : option ascii) (s r : string) :
  match_here email_pattern prev s = Some r ->
  exists m, s = m +:+ r /\ all_in address_char m = true
            /\ (1 <= String.length m)%nat.
Proof.
  unfold email_pattern. cbn [match_here].
  destruct (at_boundary prev s); [|discriminate].
  intros H. apply match_many_some in H as (l & r1 & -> & Hl & Hnl & H).
  destruct r1 as [|c r1]; [discriminate|].
  destruct (Ascii.eqb_spec "@" c) as [<-|]; [|discriminate].
  apply match_many_some in H as (d & r2 & -> & Hd & Hnd & H).
  destruct r2 as [|c r2]; [discriminate|].
  destruct (Ascii.eqb_spec "." c) as [<-|]; [|discriminate].
  apply match_many_some in H as (t & r3 & -> & Ht & Hnt & H).
  destruct (at_boundary _ r3); [|discriminate]. injection H as <-.
  exists (l +:+ "@" +:+ d +:+ "." +:+ t). split.
  - rewrite !append_assoc. reflexivity.
  - split.
    + rewrite !all_in_app.
      rewrite (all_in_impl _ _ l (fun c => proj2 (proj2 (class_chars c))) Hl).
      rewrite (all_in_impl _ _ d (fun c => proj1 (class_chars c)) Hd).
      rewrite (all_in_impl _ _ t (fun c => proj1 (proj2 (class_chars c))) Ht).
      reflexivity.
    + rewrite length_append. lia.
Qed.

Lemma findall_from_shape (s : string) :
  forall skip prev x,
    x ∈ findall_from email_pattern skip prev s ->
    all_in address_char x = true /\ (1 <= String.length x)%nat.
Proof.
  induction s as [|c s IH]; intros skip prev x; cbn [findall_from].
  - intros H. apply elem_of_nil in H. contradiction.
  - destruct skip as [|k]; [|apply IH].
    destruct (match_here email_pattern prev (String c s)) as [r|] eqn:Hm;
      [|apply IH].
    destruct (email_match_shape prev (String c s) r Hm)
      as (m & Heq & Hall & Hlen).
    rewrite Heq at 1. rewrite length_append.
    replace (String.length m + String.length r - String.length r)%nat
      with (String.length m) by lia.
    destruct (String.length m) as [|n] eqn:Hn; [lia|].
    intros H. apply elem_of_cons in H as [->|H]; [|exact (IH _ _ _ H)].
    rewrite Heq, <- Hn, take_append. split; [exact Hall | lia].
Qed.

Lemma address_char_safe (c : ascii) :
  address_char c = true ->
  isspace (lower_char c) = false
  /\ Ascii.eqb (lower_char c) LF = false
  /\ Ascii.eqb (lower_char c) CR = false.
Proof.
  destruct c as [[] [] [] [] [] [] [] []]; vm_compute; auto; discriminate.
Qed.

Lemma strip_no_space (x : string) :
  all_in (fun c => negb (isspace c)) x = true -> strip x = x.
Proof.
  unfold strip, all_in. intros H.
  assert (Hl : lstrip_by isspace x = x).
  { destruct x as [|c x]; [reflexivity|]. cbn in *.
    apply andb_true_iff in H as [Hc _]. apply negb_true_iff in Hc.
    rewrite Hc. reflexivity. }
  rewrite Hl. clear Hl. induction x as [|c x IH]; [reflexivity|].
  cbn [list_ascii_of_string forallb] in H.
  apply andb_true_iff in H as [Hc H]. apply negb_true_iff in Hc.
  cbn [rstrip_by]. rewrite (IH H), Hc. destruct x; reflexivity.
Qed.

(** A lower-cased non-empty run of address characters is safe for the
    ledger. *)
Lemma lower_address_safe (m : string) :
  all_in address_char m = true -> (1 <= String.length m)%nat ->
  ledger_safe (lower m).
Proof.
  intros Hall Hlen. split; [|split].
  - destruct m; [cbn in Hlen; lia | reflexivity].
  - apply strip_no_space. clear Hlen. unfold all_in in *.
    induction m as [|c m IH]; [reflexivity|].
    cbn [lower list_ascii_of_string forallb] in *.
    apply andb_true_iff in Hall as [Hc Hall].
    destruct (address_char_safe c Hc) as (-> & _). rewrite (IH Hall).
    reflexivity.
  - clear Hlen. unfold no_line_break, all_in in *.
    induction m as [|c m IH]; [reflexivity|].
    cbn [lower list_ascii_of_string forallb] in *.
    apply andb_true_iff in Hall as [Hc Hall].
    destruct (address_char_safe c Hc) as (_ & -> & ->). rewrite (IH Hall).
    reflexivity.
Qed.

Lemma extract_email_safe (line e : string) :
  extract_email_from_line line = Some e -> ledger_safe e.
Proof.
  unfold extract_email_from_line.
  destruct (truthy (strip line)); [|discriminate].
  destruct (List.find is_valid_email _) as [m|] eqn:Hfind; [|discriminate].
  intros [= <-]. apply List.find_some in Hfind as [Hin _].
  apply list_elem_of_In in Hin. unfold findall in Hin.
  destruct (findall_from_shape _ _ _ _ Hin) as [Hall Hlen].
  apply lower_address_safe; assumption.
Qed.

Lemma extract_loop_safe (emails : list string) :
  forall i extracted invalid,
    Forall ledger_safe extracted ->
    Forall ledger_safe (fst (extract_loop i emails (extracted, invalid))).
Proof.
  induction emails as [|line emails IH]; intros i extracted invalid Hsafe;
    cbn [extract_loop]; [exact Hsafe|].
  destruct (extract_email_from_line line) as [e|] eqn:He; [|apply IH, Hsafe].
  destruct (truthy e); apply IH; [|exact Hsafe].
  apply Forall_app. split; [exact Hsafe|].
  constructor; [exact (extract_email_safe line e He) | constructor].
Qed.

Lemma format_loop_subset (unique_emails : list string) :
  forall valid invalid x,
    x ∈ fst (format_loop unique_emails (valid, invalid)) ->
    x ∈ valid \/ x ∈ unique_emails.
Proof.
  induction unique_emails as [|e l IH]; intros valid invalid x;
    cbn [format_loop]; [auto|].
  destruct (is_valid_email e); intros H; apply IH in H.
  - rewrite elem_of_app, list_elem_of_singleton in H.
    rewrite elem_of_cons. tauto.
  - rewrite elem_of_cons. tauto.
Qed.

(** Without the external validator, or with the validator failing for
    every batch, every recipient the pipeline returns is safe for the
    ledger. *)
Lemma pipeline_recipients_safe (D : disify) (emails : list string)
    (use_disify : bool) :
  use_disify = false \/ (forall l i, batch_fails D l i) ->
  Forall ledger_safe (fst (filter_and_validate_emails D emails use_disify)).
Proof.
  intros Hcase. unfold filter_and_validate_emails.
  pose proof (extract_loop_safe emails 1 [] [] (List.Forall_nil _)) as Hex.
  destruct (extract_loop 1 emails ([], [])) as [extracted invalid_lns].
  cbn [fst] in Hex.
  destruct (dedup_loop_refines extracted [] [] ∅ 0) as (seen' & -> & _).
  { intros x. rewrite elem_of_empty, elem_of_nil. tauto. }
  cbn [app].
  pose proof (format_loop_subset (first_occurrences [] extracted) [] []) as Hf.
  destruct (format_loop _ ([], [])) as [format_valid invalid].
  cbn [fst] in Hf.
  assert (Hsafe : Forall ledger_safe format_valid).
  { apply Forall_forall. intros x Hx. apply Hf in Hx as [Hx|Hx].
    - apply elem_of_nil in Hx. contradiction.
    - apply first_occurrences_elem in Hx as [Hx _].
      rewrite Forall_forall in Hex. auto. }
  destruct (use_disify && negb (bool_decide (format_valid = []))) eqn:Hd;
    [|exact Hsafe].
  destruct Hcase as [->|Hdown]; [discriminate|].
  rewrite (validate_emails_service_down D format_valid (Hdown format_valid)).
  cbn [fst]. apply Forall_forall. intros x Hx.
  apply list_elem_of_In, List.filter_In in Hx as [Hx _].
  rewrite Forall_forall in Hsafe. apply Hsafe, list_elem_of_In, Hx.
Qed.

(* ===================================================================== *)
(** * Properties of the token provider                                    *)
(* ===================================================================== *)

Ltac run :=
  unfold bind, ret, raise, get_state, time, acquire_token,
    set_access_token, set_token_expires_at; cbn beta iota.

Lemma get_access_token_cached (E : env) (st : state) (tok : string) :
  cache_fresh E st tok ->
  get_access_token false E st = (Ret tok, tick st).
Proof.
  intros (Htok & expires_at & Hexp & Hlt).
  unfold get_access_token. run. cbn [negb]. rewrite Htok, Hexp.
  destruct (Z.ltb_spec (time_at E (time_reads st)) (expires_at - 300));
    [reflexivity | lia].
Qed.

Lemma get_access_token_exchange (E : env) (st : state)
    (force_refresh : bool) :
  force_refresh = true \/ (forall tok, ~ cache_fresh E st tok) ->
  let result := acquire_token_for_client E (exchanges st) in
  let st1 := before_exchange force_refresh st in
  get_access_token force_refresh E st
  = match t_access_token result with
    | Some token =>
        (Ret token,
         with_expiry
           (time_at E (time_reads st1) + default 3600 (t_expires_in result))
           (tick (with_token token (log Exchange (next_exchange st1)))))
    | None =>
        (Raise (Exception
                  ("Failed to acquire token: "
                   +:+ default (default "Unknown error" (t_error result))
                               (t_error_description result))),
         log Exchange (next_exchange st1))
    end.
Proof.
  intros Hcase result st1. subst result st1.
  unfold get_access_token, before_exchange. run.
  destruct force_refresh; cbn [negb].
  - destruct (t_access_token _); reflexivity.
  - destruct Hcase as [Hcase|Hcase]; [discriminate|].
    destruct (token_set st) as [tok|] eqn:Htok;
      [destruct (expiry_set st) as [expires_at|] eqn:Hexp|].
    + destruct (Z.ltb_spec (time_at E (time_reads st)) (expires_at - 300)).
      * exfalso. apply (Hcase tok). split; [assumption|]. eauto.
      * cbn. destruct (t_access_token _); reflexivity.
    + destruct (t_access_token _); reflexivity.
    + destruct (t_access_token _); reflexivity.
Qed.

(** C3. Without a forced refresh, a cached token that exists with a
    recorded expiry more than 300 seconds ahead of the clock is returned
    and no exchange takes place (the trace, the count of exchanges and
    the cached credential are as before).  In every other case exactly
    one client-credential exchange is performed; when its answer holds an
    access token, that token is cached and returned, and the expiry is
    set to the clock reading taken then plus [expires_in], 3600 when the
    answer has none. *)
Theorem token_caching (E : env) (st : state) (force_refresh : bool) :
  (forall tok,
      force_refresh = false -> cache_fresh E st tok ->
      get_access_token force_refresh E st = (Ret tok, tick st)
      /\ trace (tick st) = trace st
      /\ exchanges (tick st) = exchanges st
      /\ access_token (tick st) = access_token st
      /\ token_expires_at (tick st) = token_expires_at st)
  /\ (force_refresh = true \/ (forall tok, ~ cache_fresh E st tok) ->
      let result := acquire_token_for_client E (exchanges st) in
      let '(out, st') := get_access_token force_refresh E st in
      trace st' = trace st ++ [Exchange]
      /\ exchanges st' = S (exchanges st)
      /\ forall token,
           t_access_token result = Some token ->
           out = Ret token
           /\ access_token st' = Some token
           /\ token_expires_at st'
              = Some (time_at E (pred (time_reads st'))
                      + default 3600 (t_expires_in result))).
Proof.
  split.
  - intros tok -> Hfresh.
    rewrite (get_access_token_cached E st tok Hfresh). auto.
  - intros Hcase result.
    rewrite (get_access_token_exchange E st force_refresh Hcase).
    fold result.
    assert (Htr : trace (before_exchange force_refresh st) = trace st
                  /\ exchanges (before_exchange force_refresh st)
                     = exchanges st).
    { unfold before_exchange.
      destruct (negb force_refresh), (token_set st), (expiry_set st);
        auto. }
    destruct Htr as [Htr Hex].
    destruct (t_access_token result) as [token|] eqn:Htok; cbn.
    + rewrite Htr, Hex. split; [reflexivity|]. split; [reflexivity|].
      intros token' [= <-]. auto.
    + rewrite Htr, Hex. split; [reflexivity|]. split; [reflexivity|].
      discriminate.
Qed.

Lemma token_caching_witness :
  cache_fresh (always (PostRaises "timed out"))
    (State (Some "T") (Some 2000) 0 0 0 None []) "T"
  /\ get_access_token false (always (PostRaises "timed out"))
       (State (Some "T") (Some 2000) 0 0 0 None [])
     = (Ret "T", State (Some "T") (Some 2000) 1 0 0 None [])
  /\ (let '(out, st') :=
        get_access_token false (always (PostRaises "timed out"))
          (State (Some "T") (Some 1200) 0 0 0 None []) in
      out = Ret "T" /\ token_expires_at st' = Some (1001 + 3600)).
Proof.
  assert (Hfresh : cache_fresh (always (PostRaises "timed out"))
                     (State (Some "T") (Some 2000) 0 0 0 None []) "T").
  { split; [reflexivity|]. exists 2000. split; [reflexivity|].
    vm_compute. reflexivity. }
  split; [exact Hfresh|]. split.
  - apply (token_caching (always (PostRaises "timed out"))
             (State (Some "T") (Some 2000) 0 0 0 None []) false);
      [reflexivity | exact Hfresh].
  - assert (Hstale : false = true
              \/ forall tok, ~ cache_fresh (always (PostRaises "timed out"))
                      (State (Some "T") (Some 1200) 0 0 0 None []) tok).
    { right. intros tok (_ & expires_at & [= <-] & Hlt).
      vm_compute in Hlt. discriminate. }
    pose proof (proj2 (token_caching (always (PostRaises "timed out"))
                  (State (Some "T") (Some 1200) 0 0 0 None []) false)
                  Hstale) as H.
    vm_compute in H. destruct H as (_ & _ & H).
    destruct (H "T" eq_refl) as (H1 & _ & H2).
    split; [exact H1 | exact H2].
Defined.

(* ===================================================================== *)
(** * Properties of the delivery client                                   *)
(* ===================================================================== *)

Lemma prefix_lower (a b : string) :
  String.prefix a b = true -> String.prefix (lower a) (lower b) = true.
Proof.
  revert b. induction a as [|c a IH]; intros [|c' b]; cbn; try easy.
  destruct (ascii_dec c c') as [->|]; [|discriminate].
  intros H. destruct (ascii_dec (lower_char c') (lower_char c'));
    [auto | congruence].
Qed.

Lemma contains_lower (a s : string) :
  contains a s = true -> contains (lower a) (lower s) = true.
Proof.
  induction s as [|c s IH].
  - cbn [contains lower]. rewrite !orb_false_r.
    apply (prefix_lower a EmptyString).
  - cbn [contains lower]. rewrite !orb_true_iff.
    intros [H|H]; [left; apply (prefix_lower a (String c s) H) | right; auto].
Qed.

Lemma signal_detected (d : string) :
  token_expired_signal d ->
  contains "InvalidAuthenticationToken" d || contains "expired" (lower d)
  = true.
Proof.
  intros [H|H]; apply orb_true_iff; [left; assumption|right].
  apply (contains_lower "expired" d H).
Qed.

Lemma throttle_backoff_bounds (attempt : Z) :
  0 <= throttle_backoff attempt <= 600.
Proof.
  unfold throttle_backoff.
  pose proof (Z.pow_nonneg 2 attempt ltac:(lia)). lia.
Qed.

Lemma transient_backoff_bounds (attempt : Z) :
  0 <= transient_backoff attempt <= 600.
Proof.
  unfold transient_backoff.
  pose proof (Z.pow_nonneg 2 attempt ltac:(lia)). lia.
Qed.

(** The durations that the program computes itself are taken. *)
Lemma sleep_refusal_short (seconds : Z) (E : env) :
  0 <= seconds <= 600 -> sleep_refusal E seconds = None.
Proof.
  intros H. unfold sleep_refusal.
  assert (H1 : (seconds <? - sleep_max) = false)
    by (apply Z.ltb_ge; unfold sleep_max; lia).
  assert (H2 : (sleep_max <? seconds) = false)
    by (apply Z.ltb_ge; unfold sleep_max; lia).
  assert (H3 : (seconds <? 0) = false) by (apply Z.ltb_ge; lia).
  assert (H4 : (seconds <=? 600) = true) by (apply Z.leb_le; lia).
  rewrite H1, H2, H3, H4. reflexivity.
Qed.

Lemma sleep_short (seconds : Z) (E : env) (st : state) :
  0 <= seconds <= 600 ->
  sleep seconds E st = (Ret tt, log (Sleep seconds) st).
Proof.
  intros H. unfold sleep. rewrite sleep_refusal_short by assumption.
  reflexivity.
Qed.

Lemma error_data_of_decodes (r : response) (E : env) (st : state) :
  decodes r -> exists d, error_data_of r E st = (Ret d, st).
Proof.
  unfold error_data_of. intros [H|[d H]].
  - rewrite H. eexists. reflexivity.
  - rewrite H. destruct (truthy (text r)); eexists; reflexivity.
Qed.

(** A 401 answer with the signal of an expired token: the turn refreshes
    the token and returns. *)
Lemma attempt_once_token_expired (E : env) (st : state)
    (recipient_email access_token : string) (max_retries attempt : Z)
    (r : response) (d token : string) :
  post E (posts st) = PostResponse r ->
  status_code r = 401 ->
  truthy (text r) = true -> json r = JsonValue d ->
  token_expired_signal d ->
  t_access_token (acquire_token_for_client E (exchanges st)) = Some token ->
  attempt_once recipient_email access_token max_retries attempt E st
  = (Ret (Some (failed recipient_email (Some 401) "Token expired")),
     refreshed E token
       (t_expires_in (acquire_token_for_client E (exchanges st)))
       (posted recipient_email access_token st)).
Proof.
  intros Hpost Hstatus Htext Hjson Hsig Htok.
  unfold attempt_once, try_except, bind at 1, requests_post.
  rewrite Hpost, Hstatus. cbn [Z.eqb Pos.eqb].
  unfold bind at 1, error_data_of. rewrite Htext, Hjson. unfold ret at 1.
  rewrite (signal_detected d Hsig).
  unfold bind at 1.
  rewrite (get_access_token_exchange E _ true (or_introl eq_refl)).
  cbn -[String.append]. rewrite Htok. reflexivity.
Qed.

(** A throttled answer whose body decodes, with attempts left: the turn
    sleeps and continues. *)
Lemma attempt_once_throttled_retry (E : env) (st : state)
    (recipient_email access_token : string) (max_retries attempt : Z)
    (r : response) :
  post E (posts st) = PostResponse r ->
  status_code r = 429 -> decodes r ->
  attempt < max_retries - 1 ->
  0 <= wait_time_of (wait_seconds_of r) attempt <= 600 ->
  attempt_once recipient_email access_token max_retries attempt E st
  = (Ret None,
     log (Sleep (wait_time_of (wait_seconds_of r) attempt))
         (posted recipient_email access_token st)).
Proof.
  intros Hpost Hstatus Hdec Hlt Hwait.
  unfold attempt_once, try_except, bind at 1, requests_post.
  rewrite Hpost, Hstatus. cbn [Z.eqb Pos.eqb orb].
  unfold bind at 1.
  unfold posted.
  destruct (error_data_of_decodes r E
              (log (Post recipient_email access_token) (next_post st)) Hdec)
    as [d ->].
  destruct (Z.ltb_spec attempt (max_retries - 1)); [|lia].
  unfold bind, ret. rewrite sleep_short by assumption. reflexivity.
Qed.

(** A throttled answer whose body decodes, without attempts left: the
    turn returns the failure with the body as its error. *)
Lemma attempt_once_throttled_last (E : env) (st : state)
    (recipient_email access_token : string) (max_retries attempt : Z)
    (r : response) :
  post E (posts st) = PostResponse r ->
  status_code r = 429 -> decodes r ->
  max_retries - 1 <= attempt ->
  attempt_once recipient_email access_token max_retries attempt E st
  = (Ret (Some (failed recipient_email (Some 429) (text r))),
     posted recipient_email access_token st).
Proof.
  intros Hpost Hstatus Hdec Hge.
  unfold attempt_once, try_except, bind at 1, requests_post.
  rewrite Hpost, Hstatus. cbn [Z.eqb Pos.eqb orb].
  unfold bind at 1.
  unfold posted.
  destruct (error_data_of_decodes r E
              (log (Post recipient_email access_token) (next_post st)) Hdec)
    as [d ->].
  destruct (Z.ltb_spec attempt (max_retries - 1)); [lia|].
  reflexivity.
Qed.

(** Attempts that all continue hand the loop over to the attempts that
    follow. *)
Lemma retry_loop_app (recipient_email token : string) (max_retries : Z)
    (earlier later : list Z) (E : env) (st st1 : state) :
  retry_loop recipient_email token max_retries earlier E st = (Ret None, st1) ->
  retry_loop recipient_email token max_retries (earlier ++ later) E st
  = retry_loop recipient_email token max_retries later E st1.
Proof.
  revert st. induction earlier as [|a earlier IH]; intros st.
  - cbn. intros [= <-]. reflexivity.
  - cbn [retry_loop app]. unfold bind.
    destruct (attempt_once recipient_email token max_retries a E st)
      as [[[res|]|e] st2]; try discriminate.
    apply IH.
Qed.

(** [send_email] once the token is at hand and the message is
    prepared. *)
Lemma send_email_returns (E : env) (st st1 st2 : state)
    (recipient_email token : string) (max_retries : Z) (res : Result.t) :
  get_access_token false E st = (Ret token, st1) ->
  asset_error E recipient_email = None ->
  retry_loop recipient_email token max_retries (range max_retries) E st1
  = (Ret (Some res), st2) ->
  send_email recipient_email max_retries E st = (Ret res, st2).
Proof.
  intros Htok Hasset Hloop. unfold send_email, bind at 1. rewrite Htok.
  unfold bind at 1, prepare_message. rewrite Hasset.
  unfold bind. rewrite Hloop. reflexivity.
Qed.

(** C5. When an attempt is answered with status 401 and the decoded
    body carries the signal of an expired token, and the refresh obtains a
    token, the retry loop forces the refresh (the cached credential
    becomes the one just granted) and returns the failure "Token expired"
    at once: the trace grows by the request of this attempt and the
    exchange only, so there is no sleep, none of the remaining attempts is
    made, and no request carries the refreshed token.  That failure is
    what [send_email] returns, at whichever attempt of the call the answer
    arrives.  The code misses two cases.  A 401 answer whose body carries
    the signal but is not JSON makes the decoding raise: the handler for
    transport errors takes over, and the call sleeps 1 and 2 seconds and
    posts three times, without any refresh.  And when the provider refuses
    the refresh, the error of the token provider leaves the call as an
    exception, where a failure was to be returned. *)
Theorem token_expired_returns_at_once :
  (forall (E : env) (st : state) (recipient_email bearer : string)
          (max_retries attempt : Z) (rest : list Z) (r : response)
          (d token : string),
      post E (posts st) = PostResponse r ->
      status_code r = 401 ->
      truthy (text r) = true -> json r = JsonValue d ->
      token_expired_signal d ->
      t_access_token (acquire_token_for_client E (exchanges st))
      = Some token ->
      let st' :=
        refreshed E token
          (t_expires_in (acquire_token_for_client E (exchanges st)))
          (posted recipient_email bearer st) in
      retry_loop recipient_email bearer max_retries (attempt :: rest) E st
      = (Ret (Some (failed recipient_email (Some 401) "Token expired")), st')
      /\ trace st' = trace st ++ [Post recipient_email bearer; Exchange]
      /\ posts st' = S (posts st)
      /\ exchanges st' = S (exchanges st)
      /\ access_token st' = Some token
      /\ forall st0 st1 earlier,
           get_access_token false E st0 = (Ret bearer, st1) ->
           asset_error E recipient_email = None ->
           range max_retries = earlier ++ attempt :: rest ->
           retry_loop recipient_email bearer max_retries earlier E st1
           = (Ret None, st) ->
           send_email recipient_email max_retries E st0
           = (Ret (failed recipient_email (Some 401) "Token expired"), st'))
  /\ send_email "a@x.com" 5 expired_at_second
       (State (Some "T") (Some 5000) 0 0 0 None [])
     = (Ret (failed "a@x.com" (Some 401) "Token expired"),
        State (Some "T2") (Some 4601) 2 1 2 None
          [Post "a@x.com" "T"; Sleep 1; Post "a@x.com" "T"; Exchange])
  /\ contains "expired" (lower (text unauthorized_text)) = true
  /\ send_email "a@x.com" 3 (always (PostResponse unauthorized_text)) fresh
     = (Ret (failed "a@x.com" None
               ("Request exception: " +:+ json_error_msg)),
        State (Some "T") (Some 4600) 1 1 3 None
          [Exchange; Post "a@x.com" "T"; Sleep 1; Post "a@x.com" "T";
           Sleep 2; Post "a@x.com" "T"])
  /\ send_email "a@x.com" 3 refusing
       (State (Some "T") (Some 5000) 0 0 0 None [])
     = (Raise (Exception "Failed to acquire token: AADSTS7000215"),
        State (Some "T") (Some 5000) 1 1 1 None
          [Post "a@x.com" "T"; Exchange]).
Proof.
  split; [|repeat split; vm_compute; reflexivity].
  intros E st recipient_email bearer max_retries attempt rest r d token
    Hpost Hstatus Htext Hjson Hsig Htok st'. subst st'.
  assert (Hloop :
    retry_loop recipient_email bearer max_retries (attempt :: rest) E st
    = (Ret (Some (failed recipient_email (Some 401) "Token expired")),
       refreshed E token
         (t_expires_in (acquire_token_for_client E (exchanges st)))
         (posted recipient_email bearer st))).
  { cbn [retry_loop]. unfold bind.
    rewrite (attempt_once_token_expired E st recipient_email bearer
               max_retries attempt r d token) by assumption.
    reflexivity. }
  split; [exact Hloop|].
  split; [cbn; rewrite <- app_assoc; reflexivity|].
  split; [reflexivity|]. split; [reflexivity|]. split; [reflexivity|].
  intros st0 st1 earlier Hget Hasset Hrange Hearlier.
  apply (send_email_returns E st0 st1 _ _ bearer); try assumption.
  rewrite Hrange.
  rewrite (retry_loop_app _ _ _ earlier (attempt :: rest) E st1 st Hearlier).
  exact Hloop.
Qed.

(** ** Throttling *)

Lemma wait_time_plain (r : response) (attempt : Z) :
  retry_after r = None ->
  wait_time_of (wait_seconds_of r) attempt = throttle_backoff attempt.
Proof. unfold wait_seconds_of. intros ->. reflexivity. Qed.

(** Three attempts, each answered with a plain throttling answer: the
    loop sleeps 60 and 120 seconds between them and returns the failure
    with the body of the third answer. *)
Lemma retry_loop_throttled (E : env) (st : state)
    (recipient_email access_token : string) (r0 r1 r2 : response) :
  post E (posts st) = PostResponse r0 ->
  post E (S (posts st)) = PostResponse r1 ->
  post E (S (S (posts st))) = PostResponse r2 ->
  throttled_plain r0 -> throttled_plain r1 -> throttled_plain r2 ->
  exists st',
    retry_loop recipient_email access_token 3 (range 3) E st
    = (Ret (Some (failed recipient_email (Some 429) (text r2))), st')
    /\ trace st'
       = trace st
         ++ [Post recipient_email access_token; Sleep 60;
             Post recipient_email access_token; Sleep 120;
             Post recipient_email access_token]
    /\ posts st' = (3 + posts st)%nat.
Proof.
  intros H0 H1 H2 (S0 & A0 & D0) (S1 & A1 & D1) (S2 & A2 & D2).
  change (range 3) with [0; 1; 2]. cbn [retry_loop]. unfold bind at 1.
  rewrite (attempt_once_throttled_retry E st _ _ 3 0 r0 H0 S0 D0)
    by (rewrite ?wait_time_plain by assumption;
        try apply throttle_backoff_bounds; lia).
  rewrite (wait_time_plain r0 0 A0).
  set (st1 := log (Sleep (throttle_backoff 0))
                  (posted recipient_email access_token st)).
  unfold bind at 1.
  rewrite (attempt_once_throttled_retry E st1 _ _ 3 1 r1 H1 S1 D1)
    by (rewrite ?wait_time_plain by assumption;
        try apply throttle_backoff_bounds; lia).
  rewrite (wait_time_plain r1 1 A1).
  set (st2 := log (Sleep (throttle_backoff 1))
                  (posted recipient_email access_token st1)).
  unfold bind at 1.
  rewrite (attempt_once_throttled_last E st2 _ _ 3 2 r2 H2 S2 D2) by lia.
  eexists. split; [reflexivity|].
  cbn. rewrite <- !app_assoc. split; reflexivity.
Qed.

(** The retry budget, for answers whose body decodes: a call with
    [max_retries = 3] that meets a plain throttling answer at every
    attempt makes three requests, sleeps 60 and then 120 seconds between
    them, and returns the failure whose error is the body. *)
Lemma send_email_throttled (E : env) (st st1 : state)
    (recipient_email token : string) (r0 r1 r2 : response) :
  get_access_token false E st = (Ret token, st1) ->
  asset_error E recipient_email = None ->
  post E (posts st1) = PostResponse r0 ->
  post E (S (posts st1)) = PostResponse r1 ->
  post E (S (S (posts st1))) = PostResponse r2 ->
  throttled_plain r0 -> throttled_plain r1 -> throttled_plain r2 ->
  exists st',
    send_email recipient_email 3 E st
    = (Ret (failed recipient_email (Some 429) (text r2)), st')
    /\ trace st'
       = trace st1
         ++ [Post recipient_email token; Sleep 60;
             Post recipient_email token; Sleep 120;
             Post recipient_email token].
Proof.
  intros Htok Hasset H0 H1 H2 T0 T1 T2.
  destruct (retry_loop_throttled E st1 recipient_email token r0 r1 r2
              H0 H1 H2 T0 T1 T2) as (st' & Hloop & Htrace & _).
  exists st'. split; [|assumption].
  apply (send_email_returns E st st1 st' _ token); assumption.
Qed.

(** C2. A call with [max_retries = 3] whose every attempt is answered
    with status 429 and no Retry-After header.  When the body of the
    answers decodes (it is empty, or JSON) the call makes three
    requests, sleeps 60 and 120 seconds between them, makes no fourth
    request, and returns the failure with the body as its error.  When
    the body is not JSON, decoding it in the throttling branch raises,
    the handler for transport errors takes over, and the call sleeps 1
    and 2 seconds and returns a failure whose error is the text of the
    decoding error. *)
Theorem retry_budget :
  (forall E st st1 recipient_email token r0 r1 r2,
      get_access_token false E st = (Ret token, st1) ->
      asset_error E recipient_email = None ->
      post E (posts st1) = PostResponse r0 ->
      post E (S (posts st1)) = PostResponse r1 ->
      post E (S (S (posts st1))) = PostResponse r2 ->
      throttled_plain r0 -> throttled_plain r1 -> throttled_plain r2 ->
      exists st',
        send_email recipient_email 3 E st
        = (Ret (failed recipient_email (Some 429) (text r2)), st')
        /\ trace st'
           = trace st1
             ++ [Post recipient_email token; Sleep 60;
                 Post recipient_email token; Sleep 120;
                 Post recipient_email token])
  /\ send_email "a@x.com" 3 (always (PostResponse (throttled_json None)))
       fresh
     = (Ret (failed "a@x.com" (Some 429) "{}"),
        State (Some "T") (Some 4600) 1 1 3 None
          [Exchange; Post "a@x.com" "T"; Sleep 60; Post "a@x.com" "T";
           Sleep 120; Post "a@x.com" "T"])
  /\ send_email "a@x.com" 3 (always (PostResponse (throttled_text None)))
       fresh
     = (Ret (failed "a@x.com" None
               ("Request exception: " +:+ json_error_msg)),
        State (Some "T") (Some 4600) 1 1 3 None
          [Exchange; Post "a@x.com" "T"; Sleep 1; Post "a@x.com" "T";
           Sleep 2; Post "a@x.com" "T"]).
Proof.
  split; [exact send_email_throttled|]. split; vm_compute; reflexivity.
Qed.

(** ** The Retry-After header *)

(** A header that does not parse as an integer leaves [wait_seconds]
    unset, as an absent header does. *)
Lemma unparsable_header_is_absent (r : response) (h : string) :
  retry_after r = Some h -> int_of_str h = None ->
  wait_seconds_of r = None
  /\ forall attempt,
       wait_time_of (wait_seconds_of r) attempt = throttle_backoff attempt.
Proof.
  intros Hh Hint. unfold wait_seconds_of. rewrite Hh.
  destruct (truthy h); rewrite ?Hint; auto.
Qed.

(** A header that parses to zero is set aside by the truth test on
    [wait_seconds]. *)
Lemma zero_header_is_absent (r : response) (h : string) (attempt : Z) :
  retry_after r = Some h -> int_of_str h = Some 0 ->
  wait_time_of (wait_seconds_of r) attempt = throttle_backoff attempt.
Proof.
  intros Hh Hint. unfold wait_seconds_of. rewrite Hh.
  destruct (truthy h); rewrite ?Hint; reflexivity.
Qed.

(** With attempts left, a throttling answer whose body decodes and whose
    Retry-After header does not parse, or parses to zero, makes the turn
    sleep the exponential backoff and continue. *)
Lemma attempt_once_header_set_aside (E : env) (st : state)
    (recipient_email access_token : string) (max_retries attempt : Z)
    (r : response) (h : string) :
  post E (posts st) = PostResponse r ->
  status_code r = 429 -> decodes r ->
  retry_after r = Some h ->
  int_of_str h = None \/ int_of_str h = Some 0 ->
  attempt < max_retries - 1 ->
  attempt_once recipient_email access_token max_retries attempt E st
  = (Ret None,
     log (Sleep (Z.min (60 * 2 ^ attempt) 600))
         (posted recipient_email access_token st)).
Proof.
  intros Hpost Hstatus Hdec Hh Hint Hlt.
  assert (Hw : wait_time_of (wait_seconds_of r) attempt
               = throttle_backoff attempt).
  { destruct Hint as [Hint|Hint].
    - apply (unparsable_header_is_absent r h Hh Hint).
    - apply (zero_header_is_absent r h attempt Hh Hint). }
  rewrite (attempt_once_throttled_retry E st _ _ max_retries attempt r)
    by (try assumption; rewrite Hw; apply throttle_backoff_bounds).
  rewrite Hw. reflexivity.
Qed.

(** What the turn does once the request was answered with status 429:
    nothing of it consults the environment again. *)
Lemma attempt_once_429 (E : env) (st : state)
    (recipient_email bearer : string) (max_retries attempt : Z)
    (r : response) :
  post E (posts st) = PostResponse r ->
  status_code r = 429 ->
  attempt_once recipient_email bearer max_retries attempt E st
  = match error_data_of r E (posted recipient_email bearer st) with
    | (Ret _, st1) =>
        if attempt <? max_retries - 1 then
          match sleep (wait_time_of (wait_seconds_of r) attempt) E st1 with
          | (Ret _, st2) => (Ret None, st2)
          | (Raise e, st2) => (Raise e, st2)
          end
        else (Ret (Some (failed recipient_email (Some 429) (text r))), st1)
    | (Raise e, st1) =>
        if is_request_exception e then
          if attempt <? max_retries - 1 then
            match sleep (transient_backoff attempt) E st1 with
            | (Ret _, st2) => (Ret None, st2)
            | (Raise e, st2) => (Raise e, st2)
            end
          else
            (Ret (Some (failed recipient_email None
                          ("Request exception: " +:+ exn_str e))), st1)
        else (Raise e, st1)
    end.
Proof.
  intros Hpost Hstatus.
  unfold attempt_once, try_except, bind at 1, requests_post.
  rewrite Hpost, Hstatus. cbn [Z.eqb Pos.eqb orb].
  unfold bind at 1. fold (posted recipient_email bearer st).
  destruct (error_data_of r E (posted recipient_email bearer st))
    as [[d|e] st1].
  - destruct (attempt <? max_retries - 1); [|reflexivity].
    unfold bind, ret, sleep.
    destruct (sleep_refusal E _); reflexivity.
  - destruct (is_request_exception e); [|reflexivity].
    destruct (attempt <? max_retries - 1); [|reflexivity].
    unfold bind, ret, sleep.
    destruct (sleep_refusal E _); reflexivity.
Qed.

(** A throttling answer whose Retry-After header does not parse, or
    parses to zero, is handled as the same answer without the header
    is, whatever its body. *)
Lemma attempt_once_header_ignored (E E' : env) (st : state)
    (recipient_email bearer : string) (max_retries attempt : Z)
    (r : response) (h : string) :
  post E (posts st) = PostResponse r ->
  post E' (posts st) = PostResponse (without_header r) ->
  status_code r = 429 ->
  retry_after r = Some h ->
  int_of_str h = None \/ int_of_str h = Some 0 ->
  attempt_once recipient_email bearer max_retries attempt E st
  = attempt_once recipient_email bearer max_retries attempt E' st.
Proof.
  intros Hpost Hpost' Hstatus Hh Hint.
  assert (Hw : wait_time_of (wait_seconds_of r) attempt
               = throttle_backoff attempt).
  { destruct Hint as [Hint|Hint].
    - apply (unparsable_header_is_absent r h Hh Hint).
    - apply (zero_header_is_absent r h attempt Hh Hint). }
  assert (Hw' : wait_time_of (wait_seconds_of (without_header r)) attempt
                = throttle_backoff attempt) by reflexivity.
  rewrite (attempt_once_429 E st _ _ _ _ r Hpost Hstatus), Hw.
  rewrite (attempt_once_429 E' st _ _ _ _ (without_header r) Hpost' Hstatus),
    Hw'.
  unfold error_data_of. cbn [text json without_header].
  destruct (truthy (text r)); [destruct (json r)|];
    unfold ret, raise; cbn [is_request_exception];
    rewrite ?sleep_short
      by first [apply throttle_backoff_bounds
               | apply transient_backoff_bounds];
    reflexivity.
Qed.

(** Such an answer makes the turn raise no error. *)
Lemma attempt_once_header_no_error (E : env) (st : state)
    (recipient_email bearer : string) (max_retries attempt : Z)
    (r : response) (h : string) :
  post E (posts st) = PostResponse r ->
  status_code r = 429 ->
  retry_after r = Some h ->
  int_of_str h = None \/ int_of_str h = Some 0 ->
  exists o st',
    attempt_once recipient_email bearer max_retries attempt E st
    = (Ret o, st').
Proof.
  intros Hpost Hstatus Hh Hint.
  assert (Hw : wait_time_of (wait_seconds_of r) attempt
               = throttle_backoff attempt).
  { destruct Hint as [Hint|Hint].
    - apply (unparsable_header_is_absent r h Hh Hint).
    - apply (zero_header_is_absent r h attempt Hh Hint). }
  rewrite (attempt_once_429 E st _ _ _ _ r Hpost Hstatus), Hw.
  unfold error_data_of.
  destruct (truthy (text r)); [destruct (json r)|];
    unfold ret, raise; cbn [is_request_exception];
    destruct (attempt <? max_retries - 1); try (eexists _, _; reflexivity);
    rewrite sleep_short
      by first [apply throttle_backoff_bounds
               | apply transient_backoff_bounds];
    eexists _, _; reflexivity.
Qed.

(** C9. A throttling answer (status 429) whose Retry-After header does
    not parse as an integer is handled as the same answer without the
    header is: [wait_seconds] stays unset and the turn raises no error.
    When the body of the answer decodes, the turn with attempts left
    sleeps the exponential backoff [min(60 * 2^attempt, 600)] and
    continues, and without attempts left it returns the failure.  When
    the body is not JSON the turn never reads the header: decoding the
    body raises and the turn sleeps the backoff for transport errors, 1
    second at the first attempt where the specification has 60. *)
Theorem unparsable_retry_after :
  (forall E st recipient_email bearer max_retries attempt r h,
      post E (posts st) = PostResponse r ->
      status_code r = 429 ->
      retry_after r = Some h -> int_of_str h = None ->
      wait_seconds_of r = None
      /\ (forall E',
            post E' (posts st) = PostResponse (without_header r) ->
            attempt_once recipient_email bearer max_retries attempt E st
            = attempt_once recipient_email bearer max_retries attempt E' st)
      /\ (exists o st',
            attempt_once recipient_email bearer max_retries attempt E st
            = (Ret o, st'))
      /\ (decodes r -> attempt < max_retries - 1 ->
          attempt_once recipient_email bearer max_retries attempt E st
          = (Ret None,
             log (Sleep (Z.min (60 * 2 ^ attempt) 600))
                 (posted recipient_email bearer st)))
      /\ (decodes r -> max_retries - 1 <= attempt ->
          attempt_once recipient_email bearer max_retries attempt E st
          = (Ret (Some (failed recipient_email (Some 429) (text r))),
             posted recipient_email bearer st)))
  /\ int_of_str "soon" = None
  /\ attempt_once "a@x.com" "T" 3 0
       (always (PostResponse (throttled_json (Some "soon")))) fresh
     = (Ret None,
        State None None 0 0 1 None [Post "a@x.com" "T"; Sleep 60])
  /\ attempt_once "a@x.com" "T" 3 0
       (always (PostResponse (throttled_text (Some "soon")))) fresh
     = (Ret None,
        State None None 0 0 1 None [Post "a@x.com" "T"; Sleep 1]).
Proof.
  split; [|repeat split; vm_compute; reflexivity].
  intros E st recipient_email bearer max_retries attempt r h
    Hpost Hstatus Hh Hint.
  split; [apply (unparsable_header_is_absent r h Hh Hint)|].
  split.
  { intros E' Hpost'.
    apply (attempt_once_header_ignored E E' st _ _ _ _ r h); auto. }
  split.
  { apply (attempt_once_header_no_error E st _ _ _ _ r h); auto. }
  split.
  - intros Hdec Hlt.
    apply (attempt_once_header_set_aside E st _ _ _ _ r h); auto.
  - intros Hdec Hge. apply attempt_once_throttled_last; assumption.
Qed.

(** C10. A throttling answer (status 429) whose Retry-After header
    parses to the integer 0 is handled as the same answer without the
    header is: the truth test on the parsed value sets the zero aside.
    When the body of the answer decodes, the turn with attempts left
    sleeps the exponential backoff [min(60 * 2^attempt, 600)], not 0
    seconds, and continues.  When the body is not JSON the turn never
    reads the header: decoding the body raises and the turn sleeps the
    backoff for transport errors, 1 second at the first attempt where
    the specification has 60. *)
Theorem zero_retry_after :
  (forall E st recipient_email bearer max_retries attempt r h,
      post E (posts st) = PostResponse r ->
      status_code r = 429 ->
      retry_after r = Some h -> int_of_str h = Some 0 ->
      wait_time_of (wait_seconds_of r) attempt
      = wait_time_of None attempt
      /\ (forall E',
            post E' (posts st) = PostResponse (without_header r) ->
            attempt_once recipient_email bearer max_retries attempt E st
            = attempt_once recipient_email bearer max_retries attempt E' st)
      /\ (decodes r -> attempt < max_retries - 1 ->
          attempt_once recipient_email bearer max_retries attempt E st
          = (Ret None,
             log (Sleep (Z.min (60 * 2 ^ attempt) 600))
                 (posted recipient_email bearer st))))
  /\ int_of_str "0" = Some 0
  /\ attempt_once "a@x.com" "T" 3 0
       (always (PostResponse (throttled_json (Some "0")))) fresh
     = (Ret None,
        State None None 0 0 1 None [Post "a@x.com" "T"; Sleep 60])
  /\ attempt_once "a@x.com" "T" 3 0
       (always (PostResponse (throttled_text (Some "0")))) fresh
     = (Ret None,
        State None None 0 0 1 None [Post "a@x.com" "T"; Sleep 1]).
Proof.
  split; [|repeat split; vm_compute; reflexivity].
  intros E st recipient_email bearer max_retries attempt r h
    Hpost Hstatus Hh Hint.
  split; [apply (zero_header_is_absent r h attempt Hh Hint)|].
  split.
  { intros E' Hpost'.
    apply (attempt_once_header_ignored E E' st _ _ _ _ r h); auto. }
  intros Hdec Hlt.
  apply (attempt_once_header_set_aside E st _ _ _ _ r h); auto.
Qed.

(* ===================================================================== *)
(** * A small logic of traces                                             *)
(* ===================================================================== *)

Section Frames.
Context (P : event -> Prop).

Lemma steps_refl (st : state) : steps P st st.
Proof. split; [reflexivity|]. exists []. rewrite app_nil_r. auto. Qed.

Lemma steps_trans (st1 st2 st3 : state) :
  steps P st1 st2 -> steps P st2 st3 -> steps P st1 st3.
Proof.
  intros (L1 & e1 & T1 & F1) (L2 & e2 & T2 & F2). split; [congruence|].
  exists (e1 ++ e2). rewrite T2, T1, <- app_assoc. split; [reflexivity|].
  apply Forall_app; auto.
Qed.

Lemma steps_log (ev : event) (st : state) : P ev -> steps P st (log ev st).
Proof.
  intros H. split; [reflexivity|]. exists [ev]. split; [reflexivity|].
  repeat constructor. exact H.
Qed.

Lemma frames_ret {A} (Q : A -> Prop) (a : A) : Q a -> frames P Q (ret a).
Proof.
  intros H E st. split; [apply steps_refl|]. cbn. intros a' [= <-]. exact H.
Qed.

Lemma frames_raise {A} (Q : A -> Prop) (e : exn) : frames P Q (raise e).
Proof. intros E st. split; [apply steps_refl|]. cbn. discriminate. Qed.

Lemma frames_bind {A B} (Q : A -> Prop) (R : B -> Prop) (m : M A)
    (f : A -> M B) :
  frames P Q m -> (forall a, Q a -> frames P R (f a)) ->
  frames P R (bind m f).
Proof.
  intros Hm Hf E st. unfold bind. specialize (Hm E st).
  destruct (m E st) as [[a|e] st1]; cbn in Hm; destruct Hm as [Hs Hq].
  - specialize (Hf a (Hq a eq_refl) E st1).
    destruct Hf as [Hs' Hq']. split; [|exact Hq'].
    eapply steps_trans; eassumption.
  - split; [exact Hs|]. cbn. discriminate.
Qed.

Lemma frames_try {A} (Q : A -> Prop) (handles : exn -> bool) (m : M A)
    (h : exn -> M A) :
  frames P Q m -> (forall e, frames P Q (h e)) ->
  frames P Q (try_except handles m h).
Proof.
  intros Hm Hh E st. unfold try_except. specialize (Hm E st).
  destruct (m E st) as [[a|e] st1]; cbn in Hm; destruct Hm as [Hs Hq].
  - split; [exact Hs|]. exact Hq.
  - destruct (handles e).
    + specialize (Hh e E st1). destruct Hh as [Hs' Hq'].
      split; [|exact Hq']. eapply steps_trans; eassumption.
    + split; [exact Hs|]. cbn. discriminate.
Qed.

Lemma frames_weaken {A} (Q Q' : A -> Prop) (m : M A) :
  (forall a, Q a -> Q' a) -> frames P Q m -> frames P Q' m.
Proof.
  intros Hq Hm E st. destruct (Hm E st) as [Hs H]. split; [exact Hs|].
  intros a Ha. apply Hq, H, Ha.
Qed.

Lemma frames_get_state : frames P (fun _ => True) get_state.
Proof. intros E st. split; [apply steps_refl|]. auto. Qed.

Lemma frames_time : frames P (fun _ => True) time.
Proof.
  intros E st. split; [|auto]. split; [reflexivity|].
  exists []. cbn. rewrite app_nil_r. auto.
Qed.

Lemma frames_set_access_token (t : string) :
  frames P (fun _ => True) (set_access_token t).
Proof.
  intros E st. split; [|auto]. split; [reflexivity|].
  exists []. cbn. rewrite app_nil_r. auto.
Qed.

Lemma frames_set_token_expires_at (t : Z) :
  frames P (fun _ => True) (set_token_expires_at t).
Proof.
  intros E st. split; [|auto]. split; [reflexivity|].
  exists []. cbn. rewrite app_nil_r. auto.
Qed.

Lemma frames_sleep (seconds : Z) :
  P (Sleep seconds) -> frames P (fun _ => True) (sleep seconds).
Proof.
  intros H E st. split; [|auto]. unfold sleep.
  destruct (sleep_refusal E seconds); [apply steps_refl | apply steps_log, H].
Qed.

Lemma frames_acquire_token :
  P Exchange -> frames P (fun _ => True) acquire_token.
Proof.
  intros H E st. split; [|auto]. split; [reflexivity|].
  exists [Exchange]. split; [reflexivity|]. repeat constructor. exact H.
Qed.

Lemma frames_requests_post (recipient token : string) :
  P (Post recipient token) ->
  frames P (fun _ => True) (requests_post recipient token).
Proof.
  intros H E st. split; [|auto]. unfold requests_post.
  assert (steps P st (log (Post recipient token) (next_post st))).
  { split; [reflexivity|]. exists [Post recipient token].
    split; [reflexivity|]. repeat constructor. exact H. }
  destruct (post E (posts st)); assumption.
Qed.

Lemma frames_prepare_message (recipient_email : string) :
  frames P (fun _ => True) (prepare_message recipient_email).
Proof.
  intros E st. split; [|auto]. unfold prepare_message.
  destruct (asset_error E recipient_email); apply steps_refl.
Qed.

Lemma frames_error_data_of (r : response) :
  frames P (fun _ => True) (error_data_of r).
Proof.
  unfold error_data_of.
  destruct (truthy (text r)); [destruct (json r)|];
    first [apply frames_ret; exact I | apply frames_raise].
Qed.

Lemma frames_when (b : bool) (m : M unit) :
  frames P (fun _ => True) m -> frames P (fun _ => True) (when b m).
Proof.
  intros H. destruct b; [exact H|]. apply frames_ret. exact I.
Qed.

End Frames.

Create HintDb frames.

#[local] Hint Resolve frames_get_state frames_time frames_set_access_token
  frames_set_token_expires_at frames_sleep frames_acquire_token
  frames_requests_post frames_prepare_message frames_error_data_of
  frames_when frames_raise : frames.

(** Walk down a computation: split binds, decide the branches. *)
Ltac frames_step :=
  match goal with
  | |- frames _ _ (bind _ _) =>
      eapply frames_bind; [|intros ? _]
  | |- frames _ _ (try_except _ _ _) => apply frames_try; [|intros ?]
  | |- frames _ _ (ret _) => apply frames_ret
  | |- frames _ _ (match ?x with _ => _ end) => destruct x
  | |- frames _ _ (if ?b then _ else _) => destruct b
  end.

Lemma frames_get_access_token (P : event -> Prop) (force_refresh : bool) :
  P Exchange -> frames P (fun _ => True) (get_access_token force_refresh).
Proof.
  intros H. unfold get_access_token.
  eapply frames_bind; [apply frames_get_state|]. intros st _.
  eapply frames_bind with (Q := fun _ => True).
  - destruct (negb force_refresh); [|apply frames_ret; exact I].
    destruct (token_set st); [|apply frames_ret; exact I].
    destruct (expiry_set st); [|apply frames_ret; exact I].
    eapply frames_bind; [apply frames_time|]. intros now _.
    destruct (now <? z - 300); apply frames_ret; exact I.
  - intros [token|] _; [apply frames_ret; exact I|].
    eapply frames_bind; [apply frames_acquire_token, H|]. intros result _.
    destruct (t_access_token result); [|apply frames_raise].
    repeat (frames_step; eauto with frames).
Qed.

Lemma frames_attempt_once (recipient_email token : string)
    (max_retries attempt : Z) :
  frames (mail_event recipient_email)
    (fun r =>
       forall res, r = Some res -> Result.recipient res = recipient_email)
    (attempt_once recipient_email token max_retries attempt).
Proof.
  unfold attempt_once.
  apply frames_try.
  - eapply frames_bind; [apply frames_requests_post; reflexivity|].
    intros r _.
    destruct (status_code r =? 202);
      [apply frames_ret; intros res [= <-]; reflexivity|].
    destruct (status_code r =? 401).
    + eapply frames_bind; [apply frames_error_data_of|]. intros d _.
      destruct (_ || _).
      * eapply frames_bind; [apply frames_get_access_token; exact I|].
        intros ? _. apply frames_ret; intros res [= <-]; reflexivity.
      * apply frames_ret; intros res [= <-]; reflexivity.
    + destruct (_ || _).
      * eapply frames_bind; [apply frames_error_data_of|]. intros d _.
        destruct (attempt <? max_retries - 1).
        -- eapply frames_bind; [apply frames_sleep; exact I|]. intros ? _.
           apply frames_ret; discriminate.
        -- apply frames_ret; intros res [= <-]; reflexivity.
      * apply frames_ret; intros res [= <-]; reflexivity.
  - intros e. destruct (attempt <? max_retries - 1).
    + eapply frames_bind; [apply frames_sleep; exact I|]. intros ? _.
      apply frames_ret; discriminate.
    + apply frames_ret; intros res [= <-]; reflexivity.
Qed.

Lemma frames_retry_loop (recipient_email token : string) (max_retries : Z)
    (attempts : list Z) :
  frames (mail_event recipient_email)
    (fun r =>
       forall res, r = Some res -> Result.recipient res = recipient_email)
    (retry_loop recipient_email token max_retries attempts).
Proof.
  induction attempts as [|attempt attempts IH]; cbn [retry_loop].
  - apply frames_ret. discriminate.
  - eapply frames_bind; [apply frames_attempt_once|].
    intros [res|] Hres; [|exact IH].
    apply frames_ret. exact Hres.
Qed.

Lemma frames_send_email (recipient_email : string) (max_retries : Z) :
  frames (mail_event recipient_email)
    (fun res => Result.recipient res = recipient_email)
    (send_email recipient_email max_retries).
Proof.
  unfold send_email.
  eapply frames_bind; [apply frames_get_access_token; exact I|].
  intros token _.
  eapply frames_bind; [apply frames_prepare_message|]. intros ? _.
  eapply frames_bind; [apply frames_retry_loop|].
  intros [res|] Hres; apply frames_ret; [auto | reflexivity].
Qed.

(* ===================================================================== *)
(** * The ledger file                                                     *)
(* ===================================================================== *)

Lemma elem_of_fold_add_line (l : list string) (s : gset string) (x : string) :
  x ∈ fold_left add_line l s
  <-> x ∈ s \/ exists line, line ∈ l /\ strip line = x /\ truthy x = true.
Proof.
  revert s. induction l as [|a l IH]; intros s; cbn [fold_left].
  - split; [auto|]. intros [H|(line & H & _)]; [exact H|].
    apply elem_of_nil in H. contradiction.
  - rewrite IH. unfold add_line at 1. split.
    + intros [H|(line & Hl & Hs)].
      * destruct (truthy (strip a)) eqn:Ht; [|auto].
        apply elem_of_union in H as [H|H]; [|auto].
        apply elem_of_singleton in H. subst x. right. exists a.
        split; [left|auto].
      * right. exists line. split; [right; exact Hl | exact Hs].
    + intros [H|(line & Hl & Hs & Ht)].
      * left. destruct (truthy (strip a)); [apply elem_of_union|]; auto.
      * apply elem_of_cons in Hl as [->|Hl].
        -- left. rewrite Hs, Ht. apply elem_of_union. left.
           apply elem_of_singleton. reflexivity.
        -- right. exists line. auto.
Qed.

Lemma file_lines_cons_nonempty (c : ascii) (s : string) :
  file_lines (String c s) <> [].
Proof.
  cbn [file_lines]. destruct (Ascii.eqb c LF); [discriminate|].
  destruct (Ascii.eqb c CR).
  - destruct s as [|c' s]; [discriminate|].
    destruct (Ascii.eqb c' LF); discriminate.
  - destruct (file_lines s); discriminate.
Qed.

Lemma ends_with_lf_tail (c : ascii) (s : string) :
  ends_with_lf (String c s) = true ->
  ends_with_lf s = true /\ (s = EmptyString -> c = LF).
Proof.
  cbn [ends_with_lf]. destruct s as [|c' s].
  - intros H. split; [reflexivity|]. intros _.
    apply Ascii.eqb_eq. exact H.
  - intros H. split; [exact H | discriminate].
Qed.

Lemma file_lines_app_bounded (n : nat) (a b : string) :
  (String.length a <= n)%nat -> ends_with_lf a = true ->
  file_lines (a +:+ b) = file_lines a ++ file_lines b.
Proof.
  revert a. induction n as [|n IH]; intros [|c a] Hlen Hend;
    try reflexivity; cbn [String.length] in Hlen; [lia|].
  destruct (ends_with_lf_tail c a Hend) as [Hend' Hlast].
  assert (Ha : (String.length a <= n)%nat) by lia.
  rewrite append_cons. cbn [file_lines].
  destruct (Ascii.eqb_spec c LF) as [->|Hlf].
  - rewrite (IH a Ha Hend'). reflexivity.
  - destruct a as [|c' a]; [specialize (Hlast eq_refl); contradiction|].
    destruct (Ascii.eqb c CR).
    + rewrite append_cons. destruct (Ascii.eqb c' LF).
      * destruct (ends_with_lf_tail c' a Hend') as [Hend'' _].
        cbn [String.length] in Ha.
        rewrite (IH a ltac:(lia) Hend''). reflexivity.
      * rewrite <- append_cons, (IH _ Ha Hend'). reflexivity.
    + rewrite (IH _ Ha Hend').
      pose proof (file_lines_cons_nonempty c' a) as Hne.
      destruct (file_lines (String c' a)); [contradiction|reflexivity].
Qed.

Lemma file_lines_app (a b : string) :
  ends_with_lf a = true ->
  file_lines (a +:+ b) = file_lines a ++ file_lines b.
Proof. apply (file_lines_app_bounded (String.length a)). lia. Qed.

Lemma file_lines_one (x : string) :
  no_line_break x = true ->
  file_lines (x +:+ String LF EmptyString) = [x].
Proof.
  unfold no_line_break. induction x as [|c x IH]; [reflexivity|].
  rewrite append_cons. cbn [list_ascii_of_string forallb file_lines].
  rewrite !andb_true_iff, !negb_true_iff. intros [[-> ->] H].
  rewrite (IH H). reflexivity.
Qed.

Lemma ends_with_lf_app (a x : string) :
  ends_with_lf (a +:+ x +:+ String LF EmptyString) = true.
Proof.
  assert (H : forall s, ends_with_lf (s +:+ String LF EmptyString) = true).
  { induction s as [|c s IH]; [reflexivity|].
    rewrite append_cons. cbn [ends_with_lf].
    destruct (s +:+ String LF EmptyString) eqn:Hs; [|exact IH].
    destruct s; discriminate. }
  rewrite <- append_assoc. apply H.
Qed.

(** Appending the line of a safe address adds that address, and nothing
    else, to what a reading of the ledger loads. *)
Lemma ledger_set_append (content x y : string) :
  ends_with_lf content = true -> ledger_safe x ->
  y ∈ ledger_set (content +:+ x +:+ String LF EmptyString)
  <-> y ∈ ledger_set content \/ y = x.
Proof.
  intros Hend (Ht & Hs & Hnl). unfold ledger_set.
  rewrite (file_lines_app content _ Hend), (file_lines_one x Hnl).
  rewrite fold_left_app. cbn [fold_left]. unfold add_line at 1.
  rewrite Hs, Ht, elem_of_union, elem_of_singleton. tauto.
Qed.

Lemma read_prefix_subset (n : nat) (content x : string) :
  x ∈ fold_left add_line (firstn n (file_lines content)) ∅ ->
  x ∈ ledger_set content.
Proof.
  unfold ledger_set. rewrite !elem_of_fold_add_line.
  intros [H|(line & Hl & Hs)]; [auto|]. right. exists line.
  split; [|exact Hs]. exact (subseteq_take n _ _ Hl).
Qed.

(* ===================================================================== *)
(** * Properties of the campaign runner                                   *)
(* ===================================================================== *)

Ltac turn_events :=
  repeat first
    [ apply List.Forall_nil
    | apply List.Forall_cons; [first [left; exact I | right; reflexivity]|] ].

(** What one guarded turn does: it yields one result for the recipient,
    its events are events of sending to the recipient or the append of
    its address, and either the result is a success, the address joins
    the set and (with a ledger open) the file, or it is a failure and
    set and file stay as they were. *)
Lemma send_guarded_spec (total : Z) (progress_fp : bool) (i : Z)
    (x : string) (sent_emails : gset string) (results : list Result.t)
    (E : env) (st : state) :
  exists res sent' st' evs,
    send_guarded total progress_fp i x sent_emails results E st
    = (Ret (sent', results ++ [res]), st')
    /\ Result.recipient res = x
    /\ trace st' = trace st ++ evs
    /\ Forall (fun ev => mail_event x ev \/ ev = Append x) evs
    /\ ((Result.success res = true /\ sent' = {[x]} ∪ sent_emails
         /\ ledger st'
            = if progress_fp
              then Some (default EmptyString (ledger st) +:+ x
                         +:+ String LF EmptyString)
              else ledger st)
        \/ (Result.success res = false /\ sent' = sent_emails
            /\ ledger st' = ledger st)).
Proof.
  unfold send_guarded, try_except, send_one, bind at 1.
  destruct (frames_send_email x 5 E st) as [(Hl & evs & Ht & He) Hq].
  assert (He' : Forall (fun ev => mail_event x ev \/ ev = Append x) evs).
  { eapply Forall_impl; [exact He|]. cbn. auto. }
  destruct (send_email x 5 E st) as [[res|e] s1]; cbn [fst snd] in *.
  - specialize (Hq res eq_refl).
    destruct (Result.success res) eqn:Hsucc.
    + destruct progress_fp, (i <? total);
        (eexists res, _, _, _; split; [reflexivity|]; split; [exact Hq|];
         split; [cbn; rewrite Ht, <- ?app_assoc; reflexivity|]; split;
         [repeat (apply Forall_app; split); try exact He'; turn_events
         | left; cbn; rewrite ?Hl; auto]).
    + destruct (contains "ApplicationThrottled" _ || contains "429" _),
        (i <? total);
        (eexists res, _, _, _; split; [reflexivity|]; split; [exact Hq|];
         split; [cbn; rewrite Ht, <- ?app_assoc; reflexivity|]; split;
         [repeat (apply Forall_app; split); try exact He'; turn_events
         | right; cbn; rewrite ?Hl; auto]).
  - eexists (failed x None (exn_str e)), _, _, _.
    split; [reflexivity|]. split; [reflexivity|].
    split; [exact Ht|]. split; [exact He'|]. right. auto.
Qed.

(** Addresses that are in the set are passed over; the turns of the
    others leave no event about them and no result for them. *)
Lemma send_loop_skips (r : string) (l : list string) :
  forall total progress_fp i sent_emails results E st,
    r ∈ sent_emails ->
    exists res' evs st',
      send_loop total progress_fp i l sent_emails results E st
      = (Ret (results ++ res'), st')
      /\ trace st' = trace st ++ evs
      /\ Forall (fun ev => ~ about r ev) evs
      /\ Forall (fun x => Result.recipient x <> r) res'.
Proof.
  induction l as [|a l IH]; intros total progress_fp i sent_emails results
    E st Hr; cbn [send_loop].
  - exists [], [], st. rewrite !app_nil_r. auto.
  - destruct (decide (a ∈ sent_emails)) as [Ha|Ha]; [apply IH, Hr|].
    assert (Hne : a <> r) by congruence.
    unfold bind.
    destruct (send_guarded_spec total progress_fp i a sent_emails results
                E st)
      as (res & sent' & st1 & evs1 & -> & Hrec & Ht1 & He1 & Hcases).
    cbn [fst snd].
    assert (Hr' : r ∈ sent').
    { destruct Hcases as [(_ & -> & _)|(_ & -> & _)]; [|exact Hr].
      apply elem_of_union. right. exact Hr. }
    destruct (IH total progress_fp (i + 1) sent' (results ++ [res]) E st1 Hr')
      as (res' & evs2 & st' & -> & Ht2 & He2 & Hres).
    exists (res :: res'), (evs1 ++ evs2), st'.
    split; [rewrite <- app_assoc; reflexivity|].
    split; [rewrite Ht2, Ht1, <- app_assoc; reflexivity|].
    split.
    + apply Forall_app. split; [|exact He2].
      eapply Forall_impl; [exact He1|]. cbn.
      intros [| x t | s | x] [Hm| Heq] Habout; cbn in *;
        try discriminate; try contradiction; congruence.
    + constructor; [congruence | exact Hres].
Qed.

(** When every address is in the set, the loop does nothing. *)
Lemma send_loop_all_sent (l : list string) :
  forall total progress_fp i sent_emails results E st,
    Forall (fun x => x ∈ sent_emails) l ->
    send_loop total progress_fp i l sent_emails results E st
    = (Ret results, st).
Proof.
  induction l as [|a l IH]; intros total progress_fp i sent_emails results
    E st Hall; cbn [send_loop]; [reflexivity|].
  apply Forall_cons in Hall as [Ha Hall].
  destruct (decide (a ∈ sent_emails)); [apply IH, Hall | contradiction].
Qed.

(** With the ledger open, a run whose new results are all successes
    leaves every address it was given on a line of the file. *)
Lemma send_loop_records (l : list string) :
  forall total i sent_emails results E st content,
    Forall ledger_safe l ->
    ledger st = Some content -> ends_with_lf content = true ->
    (forall x, x ∈ sent_emails -> x ∈ ledger_set content) ->
    exists res' st',
      send_loop total true i l sent_emails results E st
      = (Ret (results ++ res'), st')
      /\ (Forall (fun x => Result.success x = true) res' ->
          exists content',
            ledger st' = Some content' /\ ends_with_lf content' = true
            /\ forall x,
                 x ∈ sent_emails \/ x ∈ l -> x ∈ ledger_set content').
Proof.
  induction l as [|a l IH]; intros total i sent_emails results E st content
    Hsafe Hled Hend Hsub; cbn [send_loop].
  - exists [], st. rewrite app_nil_r. split; [reflexivity|]. intros _.
    exists content. split; [exact Hled|]. split; [exact Hend|].
    intros x [Hx|Hx]; [auto|]. apply elem_of_nil in Hx. contradiction.
  - apply Forall_cons in Hsafe as [Ha Hsafe].
    destruct (decide (a ∈ sent_emails)) as [Hin|Hin].
    + destruct (IH total (i + 1) sent_emails results E st content
                  Hsafe Hled Hend Hsub) as (res' & st' & Heq & Hrec).
      exists res', st'. split; [exact Heq|]. intros Hall.
      destruct (Hrec Hall) as (content' & H1 & H2 & H3).
      exists content'. split; [exact H1|]. split; [exact H2|].
      intros x [Hx|Hx]; [auto|].
      apply elem_of_cons in Hx as [->|Hx]; auto.
    + unfold bind.
      destruct (send_guarded_spec total true i a sent_emails results E st)
        as (res & sent' & st1 & evs1 & -> & _ & _ & _ & Hcases).
      cbn [fst snd].
      destruct Hcases as [(Hs & -> & Hl1)|(Hs & -> & Hl1)].
      * rewrite Hled in Hl1. cbn [default from_option] in Hl1.
        destruct (IH total (i + 1) ({[a]} ∪ sent_emails) (results ++ [res])
                    E st1 _ Hsafe Hl1 (ends_with_lf_app content a))
          as (res' & st' & -> & Hrec).
        { intros x Hx. apply ledger_set_append; [assumption..|].
          apply elem_of_union in Hx as [Hx|Hx]; [|auto].
          apply elem_of_singleton in Hx. auto. }
        exists (res :: res'), st'.
        split; [rewrite <- app_assoc; reflexivity|]. intros Hall.
        apply Forall_cons in Hall as [_ Hall].
        destruct (Hrec Hall) as (content' & H1 & H2 & H3).
        exists content'. split; [exact H1|]. split; [exact H2|].
        intros x [Hx|Hx].
        -- apply H3. left. apply elem_of_union. auto.
        -- apply elem_of_cons in Hx as [->|Hx].
           ++ apply H3. left. apply elem_of_union. left.
              apply elem_of_singleton. reflexivity.
           ++ apply H3. auto.
      * rewrite Hled in Hl1.
        destruct (IH total (i + 1) sent_emails (results ++ [res]) E st1
                    content Hsafe Hl1 Hend Hsub) as (res' & st' & -> & _).
        exists (res :: res'), st'.
        split; [rewrite <- app_assoc; reflexivity|]. intros Hall.
        apply Forall_cons in Hall as [Hres _]. congruence.
Qed.

Lemma set_ledger_same (content : string) (st : state) :
  ledger st = Some content -> set_ledger content st = st.
Proof. destruct st. cbn. intros ->. reflexivity. Qed.

(** What [load_progress] loads is part of what a complete reading
    loads. *)
Lemma load_progress_spec (progress_file : bool) (E : env) (st : state) :
  exists sent_emails,
    load_progress progress_file E st = (Ret sent_emails, st)
    /\ (forall content x,
           ledger st = Some content -> x ∈ sent_emails ->
           x ∈ ledger_set content)
    /\ (ledger st = None -> sent_emails = ∅)
    /\ (progress_file = true -> ledger_read_error E = None ->
        forall content, ledger st = Some content ->
                        sent_emails = ledger_set content).
Proof.
  unfold load_progress.
  destruct progress_file; [destruct (ledger st) as [content|]|];
    eexists; (split; [reflexivity|]).
  - split; [|split; [discriminate|]].
    + intros content' x [= <-].
      destruct (ledger_read_error E);
        [apply read_prefix_subset | auto].
    + intros _ -> content' [= <-]. reflexivity.
  - split; [discriminate|]. split; [reflexivity|]. discriminate.
  - split; [|split; [reflexivity|discriminate]].
    intros content x _ Hx. apply elem_of_empty in Hx. contradiction.
Qed.

(** C1.  For every recipient list and every ledger file, a recipient
    whose address is in the set loaded from the ledger at startup is
    passed over by the sending loop: the run makes no request for it,
    does not append its address to the ledger again, and records no
    result for it.  When the addresses are safe for the ledger (not empty,
    no white space at either end, no line break) and the ledger file, if
    there is one, ends with a line feed, and the file opens for appending
    in the first run and reads back in the second, a second run over the
    same recipients with the ledger that a fully successful first run left
    behind sends nothing, whatever else the state of the second run is: it
    returns no result and leaves the state, its trace and the ledger as
    they were.  Where the ledger file does not end with a line feed, or
    an address has white space around it, the second run sends again: the
    lines are stripped when they are read, and an address is appended
    right after whatever the file ends with. *)
Theorem ledger_idempotence :
  (forall (E : env) (st : state) (recipient_list : list string)
          (start_index : Z) (progress_file : bool),
      (forall sent_emails r,
          load_progress progress_file E st = (Ret sent_emails, st) ->
          r ∈ sent_emails ->
          exists res evs st',
            send_emails_one_by_one recipient_list start_index progress_file
              E st
            = (Ret res, st')
            /\ trace st' = trace st ++ evs
            /\ Forall (fun ev => ~ about r ev) evs
            /\ Forall (fun x => Result.recipient x <> r) res)
      /\ (progress_file = true -> ledger_open_error E = false ->
          Forall ledger_safe recipient_list ->
          ledger_terminated (ledger st) ->
          forall res1 st1,
            send_emails_one_by_one recipient_list start_index true E st
            = (Ret res1, st1) ->
            Forall (fun x => Result.success x = true) res1 ->
            forall E2 st2,
              ledger st2 = ledger st1 ->
              ledger_read_error E2 = None ->
              send_emails_one_by_one recipient_list start_index true E2 st2
              = (Ret [], st2)))
  /\ (send_emails_one_by_one ["a@x.com"] 0 true accepting
        (State None None 0 0 0 (Some "b@y.com") [])
      = (Ret [sent_ok "a@x.com" 202],
         State (Some "T") (Some 4600) 1 1 1
           (Some ("b@y.coma@x.com" +:+ String LF EmptyString))
           [Exchange; Post "a@x.com" "T"; Append "a@x.com"])
      /\ send_emails_one_by_one ["a@x.com"] 0 true accepting
           (State None None 0 0 0
              (Some ("b@y.coma@x.com" +:+ String LF EmptyString)) [])
         = (Ret [sent_ok "a@x.com" 202],
            State (Some "T") (Some 4600) 1 1 1
              (Some ("b@y.coma@x.com" +:+ String LF
                       ("a@x.com" +:+ String LF EmptyString)))
              [Exchange; Post "a@x.com" "T"; Append "a@x.com"]))
  /\ (send_emails_one_by_one [" a@x.com"] 0 true accepting fresh
      = (Ret [sent_ok " a@x.com" 202],
         State (Some "T") (Some 4600) 1 1 1
           (Some (" a@x.com" +:+ String LF EmptyString))
           [Exchange; Post " a@x.com" "T"; Append " a@x.com"])
      /\ send_emails_one_by_one [" a@x.com"] 0 true accepting
           (State None None 0 0 0
              (Some (" a@x.com" +:+ String LF EmptyString)) [])
         = (Ret [sent_ok " a@x.com" 202],
            State (Some "T") (Some 4600) 1 1 1
              (Some (" a@x.com" +:+ String LF
                       (" a@x.com" +:+ String LF EmptyString)))
              [Exchange; Post " a@x.com" "T"; Append " a@x.com"])).
Proof.
  split; [|repeat split; vm_compute; reflexivity].
  intros E st recipient_list start_index progress_file.
  set (l := if start_index >? 0
            then skipn (Z.to_nat start_index) recipient_list
            else recipient_list).
  split.
  - intros sent_emails r Hload Hr.
    unfold send_emails_one_by_one, bind. rewrite Hload. fold l.
    destruct (open_append progress_file E st) as [o st0] eqn:Hopen.
    assert (Ho : exists fp, o = Ret fp /\ trace st0 = trace st).
    { unfold open_append in Hopen.
      destruct (progress_file && negb (ledger_open_error E));
        injection Hopen as <- <-; eexists; split; reflexivity. }
    destruct Ho as (fp & -> & Htr).
    destruct (send_loop_skips r l (len l) fp 1 sent_emails [] E st0 Hr)
      as (res' & evs & st' & Heq & Ht & He & Hres).
    exists res', evs, st'. rewrite Heq, Ht, Htr. auto.
  - intros -> Hopen Hsafe Hterm res1 st1 Hrun1 Hsucc E2 st2 Hsame Hread.
    assert (Hsafe' : Forall ledger_safe l).
    { subst l. destruct (start_index >? 0); [apply Forall_drop|]; exact Hsafe. }
    (* the first run *)
    unfold send_emails_one_by_one, bind in Hrun1. fold l in Hrun1.
    destruct (load_progress_spec true E st)
      as (sent1 & Hload1 & Hsub1 & Hnone1 & _).
    rewrite Hload1 in Hrun1.
    unfold open_append in Hrun1. rewrite Hopen in Hrun1.
    cbn [andb negb] in Hrun1.
    set (content := default EmptyString (ledger st)) in Hrun1.
    destruct (send_loop_records l (len l) 1 sent1 [] E
                (set_ledger content st) content Hsafe' eq_refl)
      as (res' & st' & Heq & Hrec).
    { subst content. destruct (ledger st); [exact Hterm | reflexivity]. }
    { intros x Hx. subst content. destruct (ledger st) as [c|] eqn:Hc.
      - apply (Hsub1 c x eq_refl Hx).
      - rewrite (Hnone1 eq_refl) in Hx. apply elem_of_empty in Hx.
        contradiction. }
    rewrite Heq in Hrun1. injection Hrun1 as <- <-.
    destruct (Hrec Hsucc) as (content' & Hled' & _ & Hall).
    rewrite Hled' in Hsame.
    (* the second run *)
    unfold send_emails_one_by_one, bind. fold l.
    destruct (load_progress_spec true E2 st2)
      as (sent2 & Hload2 & _ & _ & Hfull).
    rewrite Hload2. rewrite (Hfull eq_refl Hread content' Hsame).
    assert (Hopen2 : exists fp, open_append true E2 st2 = (Ret fp, st2)).
    { unfold open_append.
      destruct (true && negb (ledger_open_error E2));
        eexists; [|reflexivity].
      rewrite (set_ledger_same _ st2); [reflexivity|].
      rewrite Hsame. reflexivity. }
    destruct Hopen2 as [fp ->].
    apply send_loop_all_sent.
    apply Forall_forall. intros x Hx. apply Hall. right. exact Hx.
Qed.

(* ===================================================================== *)
(** * The budget of a call                                                *)
(* ===================================================================== *)

Lemma count_app (kind : event -> bool) (a b : list event) :
  count kind (a ++ b) = (count kind a + count kind b)%nat.
Proof. unfold count. rewrite List.filter_app, length_app. reflexivity. Qed.

(** The token provider leaves at most one event, an exchange. *)
Lemma get_access_token_events (force_refresh : bool) (E : env) (st : state) :
  let st' := snd (get_access_token force_refresh E st) in
  ledger st' = ledger st
  /\ (trace st' = trace st \/ trace st' = trace st ++ [Exchange]).
Proof.
  unfold get_access_token. run.
  destruct (negb force_refresh);
    [destruct (token_set st); [destruct (expiry_set st)|]|];
    cbn beta iota;
    try destruct (_ <? _);
    cbn; try destruct (t_access_token _); cbn; auto.
Qed.

(** One turn of the retry loop posts one request, for the recipient and
    with the token of the call; what may follow is one sleep, or the
    exchange of a refresh, after which the turn does not continue. *)
Lemma attempt_once_events (recipient_email token : string)
    (max_retries attempt : Z) (E : env) (st : state)
    (o : outcome (option Result.t)) (st' : state) :
  attempt_once recipient_email token max_retries attempt E st = (o, st') ->
  ledger st' = ledger st
  /\ exists tail,
       trace st' = trace st ++ Post recipient_email token :: tail
       /\ (tail = []
           \/ (exists s, tail = [Sleep s])
           \/ (tail = [Exchange] /\ o <> Ret None)).
Proof.
  unfold attempt_once, try_except, bind at 1, requests_post.
  set (st1 := log (Post recipient_email token) (next_post st)).
  assert (Hsleep : forall s,
            bind (sleep s) (fun _ => ret (@None Result.t)) E st1 = (o, st') ->
            ledger st' = ledger st
            /\ exists tail,
                 trace st' = trace st ++ Post recipient_email token :: tail
                 /\ (tail = [] \/ (exists s, tail = [Sleep s])
                     \/ (tail = [Exchange] /\ o <> Ret None))).
  { intros s. unfold bind, sleep, ret.
    destruct (sleep_refusal E s); intros [= <- <-].
    - split; [reflexivity|]. exists []. auto.
    - split; [reflexivity|]. exists [Sleep s]. cbn.
      rewrite <- app_assoc. eauto 6. }
  assert (Hstop : forall (res : outcome (option Result.t)),
            (res, st1) = (o, st') ->
            ledger st' = ledger st
            /\ exists tail,
                 trace st' = trace st ++ Post recipient_email token :: tail
                 /\ (tail = [] \/ (exists s, tail = [Sleep s])
                     \/ (tail = [Exchange] /\ o <> Ret None))).
  { intros res [= <- <-]. split; [reflexivity|]. exists []. auto. }
  assert (Hrefresh : forall (res : Result.t),
            bind (get_access_token true) (fun _ => ret (Some res)) E st1
            = (o, st') ->
            ledger st' = ledger st
            /\ exists tail,
                 trace st' = trace st ++ Post recipient_email token :: tail
                 /\ (tail = [] \/ (exists s, tail = [Sleep s])
                     \/ (tail = [Exchange] /\ o <> Ret None))).
  { intros res. unfold bind.
    rewrite (get_access_token_exchange E st1 true (or_introl eq_refl)).
    cbn zeta. cbn [before_exchange negb].
    destruct (t_access_token _); intros [= <- <-];
      (split; [reflexivity|]; exists [Exchange]; cbn;
       rewrite <- app_assoc; split; [reflexivity|]; right; right;
       split; [reflexivity|discriminate]). }
  destruct (post E (posts st)) as [msg|r]; cbn [is_request_exception].
  - destruct (attempt <? max_retries - 1); [apply Hsleep | apply Hstop].
  - destruct (status_code r =? 202); [apply Hstop|].
    destruct (status_code r =? 401).
    + unfold bind at 1, error_data_of.
      destruct (truthy (text r));
        [destruct (json r) as [d|msg]; [unfold ret at 1|unfold raise at 1]
        |unfold ret at 1];
        cbn [is_request_exception].
      * destruct (_ || _); [|apply Hstop].
        destruct (bind (get_access_token true) _ E st1)
          as [[res|[e|e]] st2] eqn:Hg; cbn [is_request_exception].
        -- intros Heq. eapply Hrefresh. rewrite Hg. exact Heq.
        -- exfalso. revert Hg. unfold bind.
           rewrite (get_access_token_exchange E st1 true (or_introl eq_refl)).
           cbn zeta. destruct (t_access_token _); discriminate.
        -- intros Heq. eapply Hrefresh. rewrite Hg. exact Heq.
      * destruct (attempt <? max_retries - 1); [apply Hsleep | apply Hstop].
      * destruct (_ || _); [|apply Hstop].
        destruct (bind (get_access_token true) _ E st1)
          as [[res|[e|e]] st2] eqn:Hg; cbn [is_request_exception].
        -- intros Heq. eapply Hrefresh. rewrite Hg. exact Heq.
        -- exfalso. revert Hg. unfold bind.
           rewrite (get_access_token_exchange E st1 true (or_introl eq_refl)).
           cbn zeta. destruct (t_access_token _); discriminate.
        -- intros Heq. eapply Hrefresh. rewrite Hg. exact Heq.
    + destruct (_ || _); [|apply Hstop].
      unfold bind at 1, error_data_of.
      destruct (truthy (text r));
        [destruct (json r) as [d|msg]; [unfold ret at 1|unfold raise at 1]
        |unfold ret at 1];
        cbn [is_request_exception].
      * destruct (attempt <? max_retries - 1); [|apply Hstop].
        intros H. apply (Hsleep (wait_time_of (wait_seconds_of r) attempt)).
        revert H. unfold bind, sleep, ret.
        destruct (sleep_refusal E _); auto.
      * destruct (attempt <? max_retries - 1); [apply Hsleep | apply Hstop].
      * destruct (attempt <? max_retries - 1); [|apply Hstop].
        intros H. apply (Hsleep (wait_time_of (wait_seconds_of r) attempt)).
        revert H. unfold bind, sleep, ret.
        destruct (sleep_refusal E _); auto.
Qed.

Lemma retry_loop_events (recipient_email token : string) (max_retries : Z)
    (attempts : list Z) :
  forall E st o st',
    retry_loop recipient_email token max_retries attempts E st = (o, st') ->
    ledger st' = ledger st
    /\ exists evs,
         trace st' = trace st ++ evs
         /\ Forall (fun ev => ev = Exchange \/ is_sleep ev = true
                              \/ ev = Post recipient_email token) evs
         /\ (count is_post evs <= length attempts)%nat
         /\ (count is_exchange evs <= 1)%nat.
Proof.
  induction attempts as [|attempt attempts IH]; intros E st o st';
    cbn [retry_loop].
  - intros [= <- <-]. split; [reflexivity|]. exists [].
    rewrite app_nil_r. repeat split; auto.
  - unfold bind.
    destruct (attempt_once recipient_email token max_retries attempt E st)
      as [o1 st1] eqn:Hturn.
    destruct (attempt_once_events _ _ _ _ _ _ _ _ Hturn)
      as (Hl & tail & Ht & Htail).
    assert (Hstop : (count is_post (Post recipient_email token :: tail)
                     <= S (length attempts))%nat
                    /\ (count is_exchange (Post recipient_email token :: tail)
                        <= 1)%nat
                    /\ Forall (fun ev => ev = Exchange \/ is_sleep ev = true
                                         \/ ev = Post recipient_email token)
                         (Post recipient_email token :: tail)).
    { destruct Htail as [->|[[s ->]|[-> _]]]; cbn;
        (split; [lia|]; split; [lia|]);
        repeat first [apply List.Forall_nil | apply List.Forall_cons]; auto. }
    destruct o1 as [[res|]|e].
    + intros [= <- <-]. split; [exact Hl|].
      exists (Post recipient_email token :: tail).
      cbn [length]. tauto.
    + intros Hrest. destruct (IH E st1 o st' Hrest)
        as (Hl' & evs & Ht' & Hall & Hp & Hx).
      split; [congruence|].
      exists ((Post recipient_email token :: tail) ++ evs).
      rewrite Ht', Ht, <- app_assoc. split; [reflexivity|].
      destruct Hstop as (_ & _ & Hall1).
      split; [apply Forall_app; auto|].
      rewrite !count_app.
      destruct Htail as [->|[[s ->]|[_ Hne]]]; [| |congruence];
        cbn [length] in *; cbn; lia.
    + intros [= <- <-]. split; [exact Hl|].
      exists (Post recipient_email token :: tail).
      cbn [length]. tauto.
Qed.

Lemma length_range (n : Z) : length (range n) = Z.to_nat n.
Proof. unfold range. rewrite length_map, length_seq. reflexivity. Qed.

(** X1. However the mail endpoint answers, and whether the identity
    provider grants a token or refuses it, one call of [send_email] posts
    at most [max_retries] requests (none when [max_retries] is zero or
    negative), every one of them for the recipient of the call and with one
    and the same bearer token, and it leaves the ledger file alone. *)
Theorem send_email_budget (recipient_email : string) (max_retries : Z)
    (E : env) (st : state) :
  exists token evs,
    trace (snd (send_email recipient_email max_retries E st))
    = trace st ++ evs
    /\ Forall (fun ev => ev = Exchange \/ is_sleep ev = true
                         \/ ev = Post recipient_email token) evs
    /\ (count is_post evs <= Z.to_nat max_retries)%nat
    /\ ledger (snd (send_email recipient_email max_retries E st))
       = ledger st.
Proof.
  destruct (send_email recipient_email max_retries E st) as [o st']
    eqn:Hrun.
  cbn [snd]. revert Hrun. unfold send_email, bind at 1.
  pose proof (get_access_token_events false E st) as Hget. cbn zeta in Hget.
  destruct (get_access_token false E st) as [[token|e] st1];
    cbn [snd] in Hget; destruct Hget as [Hl1 Ht1].
  - unfold bind at 1, prepare_message.
    assert (Hfirst : exists evs1,
              trace st1 = trace st ++ evs1
              /\ Forall (fun ev => ev = Exchange \/ is_sleep ev = true
                                   \/ ev = Post recipient_email token) evs1
              /\ count is_post evs1 = 0%nat
              /\ (count is_exchange evs1 <= 1)%nat).
    { destruct Ht1 as [Ht1|Ht1]; [exists []|exists [Exchange]];
        rewrite ?app_nil_r; repeat split; auto. }
    destruct Hfirst as (evs1 & Htr1 & Hall1 & Hp1 & Hx1).
    destruct (asset_error E recipient_email) as [msg|].
    + intros [= <- <-]. exists token, evs1.
      split; [exact Htr1|]. split; [exact Hall1|].
      split; [lia | exact Hl1].
    + unfold bind.
      destruct (retry_loop recipient_email token max_retries
                  (range max_retries) E st1) as [o2 st2] eqn:Hloop.
      destruct (retry_loop_events _ _ _ _ _ _ _ _ Hloop)
        as (Hl2 & evs2 & Htr2 & Hall2 & Hp2 & Hx2).
      rewrite length_range in Hp2.
      assert (Hst : trace st2 = trace st ++ evs1 ++ evs2)
        by (rewrite Htr2, Htr1, <- app_assoc; reflexivity).
      destruct o2 as [[res|]|e]; intros [= <- <-];
        exists token, (evs1 ++ evs2); rewrite !count_app;
        (split; [exact Hst|]; split; [apply Forall_app; auto|];
         split; [lia|congruence]).
  - intros [= <- <-]. exists EmptyString.
    destruct Ht1 as [Ht1|Ht1]; [exists []|exists [Exchange]];
      rewrite ?app_nil_r;
      (split; [exact Ht1|]; split; [auto|]; split; [cbn; lia | exact Hl1]).
Qed.

(* ===================================================================== *)
(** * Answers that end the call, answers that are tried again             *)
(* ===================================================================== *)

Lemma attempt_once_accepted (E : env) (st : state)
    (recipient_email token : string) (max_retries attempt : Z)
    (r : response) :
  post E (posts st) = PostResponse r -> status_code r = 202 ->
  attempt_once recipient_email token max_retries attempt E st
  = (Ret (Some (sent_ok recipient_email 202)),
     posted recipient_email token st).
Proof.
  intros Hpost Hs. unfold attempt_once, try_except, bind, requests_post.
  rewrite Hpost, Hs. reflexivity.
Qed.

Lemma attempt_once_rejected (E : env) (st : state)
    (recipient_email token : string) (max_retries attempt : Z)
    (r : response) :
  post E (posts st) = PostResponse r -> plain_rejection r ->
  attempt_once recipient_email token max_retries attempt E st
  = (Ret (Some (failed recipient_email (Some (status_code r)) (text r))),
     posted recipient_email token st).
Proof.
  intros Hpost (H202 & Hcase).
  unfold attempt_once, try_except, bind at 1, requests_post. rewrite Hpost.
  destruct (Z.eqb_spec (status_code r) 202); [contradiction|].
  destruct Hcase as [(H401 & H429 & Hmark)|(H401 & Hbody)].
  - destruct (Z.eqb_spec (status_code r) 401); [contradiction|].
    destruct (Z.eqb_spec (status_code r) 429); [contradiction|].
    rewrite Hmark. reflexivity.
  - rewrite H401. cbn [Z.eqb Pos.eqb]. unfold bind, error_data_of.
    destruct Hbody as [Ht|(d & Hd & Hn1 & Hn2)].
    + rewrite Ht. reflexivity.
    + rewrite Hd. destruct (truthy (text r)); unfold ret.
      * rewrite Hn1, Hn2. reflexivity.
      * reflexivity.
Qed.

Lemma attempt_once_raised (E : env) (st : state)
    (recipient_email token : string) (max_retries attempt : Z)
    (msg : string) :
  post E (posts st) = PostRaises msg ->
  attempt_once recipient_email token max_retries attempt E st
  = if attempt <? max_retries - 1
    then (Ret None,
          log (Sleep (transient_backoff attempt))
              (posted recipient_email token st))
    else (Ret (Some (failed recipient_email None
                       ("Request exception: " +:+ msg))),
          posted recipient_email token st).
Proof.
  intros Hpost. unfold attempt_once, try_except, bind at 1, requests_post.
  rewrite Hpost. cbn [is_request_exception exn_str].
  destruct (attempt <? max_retries - 1); [|reflexivity].
  unfold bind. rewrite sleep_short by apply transient_backoff_bounds.
  reflexivity.
Qed.

(** Attempts that each post a request and then sleep: the loop runs
    through them and leaves their events in the trace. *)
Lemma retry_loop_sleeps (recipient_email token : string) (max_retries : Z)
    (w : Z -> Z) (attempts : list Z) :
  forall E st,
    (forall j a st_j,
        attempts !! j = Some a -> posts st_j = (posts st + j)%nat ->
        attempt_once recipient_email token max_retries a E st_j
        = (Ret None, log (Sleep (w a)) (posted recipient_email token st_j))) ->
    exists st',
      retry_loop recipient_email token max_retries attempts E st
      = (Ret None, st')
      /\ trace st'
         = trace st ++ posts_and_sleeps recipient_email token w attempts
      /\ posts st' = (posts st + length attempts)%nat
      /\ exchanges st' = exchanges st
      /\ access_token st' = access_token st
      /\ token_expires_at st' = token_expires_at st
      /\ ledger st' = ledger st.
Proof.
  induction attempts as [|a attempts IH]; intros E st Hturn.
  - exists st. cbn. rewrite app_nil_r, Nat.add_0_r. auto 10.
  - cbn [retry_loop]. unfold bind.
    rewrite (Hturn 0%nat a st eq_refl) by lia.
    destruct (IH E (log (Sleep (w a)) (posted recipient_email token st)))
      as (st' & -> & Ht & Hp & Hx & Ha & He & Hl).
    { intros j b st_j Hj Hpj. apply (Hturn (S j)); [exact Hj|].
      rewrite Hpj. cbn. lia. }
    exists st'. split; [reflexivity|].
    split; [rewrite Ht; cbn; rewrite <- !app_assoc; reflexivity|].
    split; [rewrite Hp; cbn; lia|]. auto.
Qed.

Lemma lookup_range (n : Z) (j : nat) (a : Z) :
  range n !! j = Some a -> a = Z.of_nat j /\ (j < Z.to_nat n)%nat.
Proof.
  unfold range. generalize (Z.to_nat n) as m. intros m.
  assert (H : forall start,
             List.map Z.of_nat (seq start m) !! j = Some a ->
             a = Z.of_nat (start + j) /\ (j < m)%nat).
  { revert j. induction m as [|m IH]; intros j start;
      [destruct j; discriminate|].
    cbn [seq List.map]. destruct j as [|j]; cbn.
    - intros [= <-]. split; [f_equal; lia | lia].
    - intros Hj. destruct (IH j (S start) Hj) as [-> Hlt].
      split; [f_equal; lia | lia]. }
  apply (H 0%nat).
Qed.

Lemma range_snoc (n : Z) : 0 < n -> range n = range (n - 1) ++ [n - 1].
Proof.
  intros Hn. unfold range.
  replace (Z.to_nat n) with (S (Z.to_nat (n - 1))) by lia.
  rewrite seq_S, List.map_app. cbn [List.map Nat.add]. do 2 f_equal. lia.
Qed.

Lemma range_cons (n : Z) :
  0 < n -> exists rest, range n = 0 :: rest.
Proof.
  intros Hn. unfold range.
  replace (Z.to_nat n) with (S (Z.to_nat (n - 1))) by lia.
  cbn [seq List.map]. eauto.
Qed.

(** [send_email] when the loop runs through [earlier] and then meets a
    turn that returns. *)
Lemma send_email_after (E : env) (st st1 st2 st3 : state)
    (recipient_email token : string) (max_retries attempt : Z)
    (earlier rest : list Z) (res : Result.t) :
  get_access_token false E st = (Ret token, st1) ->
  asset_error E recipient_email = None ->
  range max_retries = earlier ++ attempt :: rest ->
  retry_loop recipient_email token max_retries earlier E st1
  = (Ret None, st2) ->
  attempt_once recipient_email token max_retries attempt E st2
  = (Ret (Some res), st3) ->
  send_email recipient_email max_retries E st = (Ret res, st3).
Proof.
  intros Htok Hasset Hrange Hearlier Hturn.
  apply (send_email_returns E st st1 st3 _ token); try assumption.
  rewrite Hrange, (retry_loop_app _ _ _ earlier _ E st1 st2 Hearlier).
  cbn [retry_loop]. unfold bind. rewrite Hturn. reflexivity.
Qed.

(** X2. An answer that the code neither accepts, nor takes for
    throttling, nor decodes as a 401 for an expired token (a status other
    than 202, 401 and 429 without the throttling marker in its body, such
    as a 400, a 403 or a 500; or a 401 whose body is empty or decodes to
    JSON without the signal) ends the call at once: at whichever attempt
    it arrives, the loop returns the failure with the status and the body
    of the answer, sleeps no second and posts no further request.  So a
    call whose first request is answered that way makes that one request
    only, however many attempts it was given.  (A 401 whose body is not
    JSON is not among these answers: decoding it raises, and the call
    goes on as after a transport error.) *)
Theorem rejection_is_final (E : env) (st : state)
    (recipient_email bearer : string) (max_retries attempt : Z)
    (rest : list Z) (r : response) :
  post E (posts st) = PostResponse r ->
  plain_rejection r ->
  retry_loop recipient_email bearer max_retries (attempt :: rest) E st
  = (Ret (Some (failed recipient_email (Some (status_code r)) (text r))),
     posted recipient_email bearer st)
  /\ trace (posted recipient_email bearer st)
     = trace st ++ [Post recipient_email bearer]
  /\ forall st0,
       get_access_token false E st0 = (Ret bearer, st) ->
       asset_error E recipient_email = None ->
       0 < max_retries ->
       send_email recipient_email max_retries E st0
       = (Ret (failed recipient_email (Some (status_code r)) (text r)),
          posted recipient_email bearer st).
Proof.
  intros Hpost Hrej.
  pose proof (attempt_once_rejected E st recipient_email bearer max_retries)
    as Hturn.
  split; [|split; [reflexivity|]].
  - cbn [retry_loop]. unfold bind.
    rewrite (Hturn attempt r Hpost Hrej). reflexivity.
  - intros st0 Htok Hasset Hpos.
    destruct (range_cons max_retries Hpos) as [rest' Hrange].
    apply (send_email_after E st0 st st _ _ bearer max_retries 0 [] rest');
      auto.
Qed.

Lemma rejection_is_final_witness :
  plain_rejection server_error
  /\ send_email "a@x.com" 5 (always (PostResponse server_error)) fresh
     = (Ret (failed "a@x.com" (Some 500) "Internal Server Error"),
        State (Some "T") (Some 4600) 1 1 1 None
          [Exchange; Post "a@x.com" "T"]).
Proof.
  assert (Hrej : plain_rejection server_error).
  { split; [discriminate|]. left.
    split; [discriminate|]. split; [discriminate | reflexivity]. }
  split; [exact Hrej|].
  exact (proj2 (proj2
           (rejection_is_final (always (PostResponse server_error))
              (State (Some "T") (Some 4600) 1 1 0 None [Exchange])
              "a@x.com" "T" 5 0 [] server_error eq_refl Hrej))
           fresh eq_refl eq_refl eq_refl).
Defined.

(** The loop over the first [n] attempts when each of them meets a
    transport error and attempts remain after them. *)
Lemma retry_loop_raised (E : env) (st : state)
    (recipient_email token : string) (max_retries n : Z) :
  n <= max_retries - 1 ->
  (forall k, (k < Z.to_nat n)%nat ->
             exists msg, post E (posts st + k)%nat = PostRaises msg) ->
  exists st',
    retry_loop recipient_email token max_retries (range n) E st
    = (Ret None, st')
    /\ trace st'
       = trace st
         ++ posts_and_sleeps recipient_email token transient_backoff (range n)
    /\ posts st' = (posts st + Z.to_nat n)%nat
    /\ exchanges st' = exchanges st
    /\ access_token st' = access_token st
    /\ token_expires_at st' = token_expires_at st
    /\ ledger st' = ledger st.
Proof.
  intros Hn Hraise.
  destruct (retry_loop_sleeps recipient_email token max_retries
              transient_backoff (range n) E st) as (st' & H).
  { intros j a st_j Hj Hp. apply lookup_range in Hj as [-> Hlt].
    destruct (Hraise j Hlt) as [msg Hpost]. rewrite <- Hp in Hpost.
    rewrite (attempt_once_raised E st_j _ _ _ _ msg Hpost).
    destruct (Z.ltb_spec (Z.of_nat j) (max_retries - 1)); [reflexivity|lia]. }
  exists st'. rewrite length_range in H. exact H.
Qed.

(** X3. When the connection fails at every attempt, a call with
    [max_retries] attempts posts [max_retries] requests, sleeps [min(2^k,
    30)] seconds after the k-th of them (k = 0, 1, ...) except the last, and
    returns a failure without status code whose error is "Request exception:
    " followed by the text of the last error. *)
Theorem transport_errors_exhaust (E : env) (st st1 : state)
    (recipient_email token : string) (max_retries : Z)
    (msg : nat -> string) :
  get_access_token false E st = (Ret token, st1) ->
  asset_error E recipient_email = None ->
  0 < max_retries ->
  (forall k, (k < Z.to_nat max_retries)%nat ->
             post E (posts st1 + k)%nat = PostRaises (msg k)) ->
  exists st',
    send_email recipient_email max_retries E st
    = (Ret (failed recipient_email None
              ("Request exception: "
               +:+ msg (Z.to_nat (max_retries - 1)))), st')
    /\ trace st'
       = trace st1
         ++ posts_and_sleeps recipient_email token
              (fun k => Z.min (2 ^ k) 30) (range (max_retries - 1))
         ++ [Post recipient_email token]
    /\ posts st' = (posts st1 + Z.to_nat max_retries)%nat
    /\ exchanges st' = exchanges st1.
Proof.
  intros Htok Hasset Hpos Hraise.
  destruct (retry_loop_raised E st1 recipient_email token max_retries
              (max_retries - 1)) as (st2 & Hloop & Ht & Hp & Hx & _).
  { lia. }
  { intros k Hk. exists (msg k). apply Hraise. lia. }
  assert (Hlast : post E (posts st2)
                  = PostRaises (msg (Z.to_nat (max_retries - 1)))).
  { rewrite Hp. apply Hraise. lia. }
  exists (posted recipient_email token st2). split.
  - apply (send_email_after E st st1 st2 _ _ token max_retries
             (max_retries - 1) (range (max_retries - 1)) []);
      auto using range_snoc.
    rewrite (attempt_once_raised E st2 _ _ _ _ _ Hlast).
    destruct (Z.ltb_spec (max_retries - 1) (max_retries - 1));
      [lia|reflexivity].
  - split; [cbn; rewrite Ht, <- app_assoc; reflexivity|].
    split; [cbn; rewrite Hp; lia | exact Hx].
Qed.

Lemma transport_errors_exhaust_witness :
  send_email "a@x.com" 5 unreachable fresh
  = (Ret (failed "a@x.com" None "Request exception: timed out"),
     State (Some "T") (Some 4600) 1 1 5 None
       [Exchange; Post "a@x.com" "T"; Sleep 1; Post "a@x.com" "T"; Sleep 2;
        Post "a@x.com" "T"; Sleep 4; Post "a@x.com" "T"; Sleep 8;
        Post "a@x.com" "T"]).
Proof.
  destruct (transport_errors_exhaust unreachable fresh
              (State (Some "T") (Some 4600) 1 1 0 None [Exchange])
              "a@x.com" "T" 5 (fun _ => "timed out")
              eq_refl eq_refl eq_refl (fun _ _ => eq_refl))
    as (st' & Hrun & _).
  rewrite Hrun. f_equal.
  pose proof Hrun as Hc. vm_compute in Hc. congruence.
Defined.

(** X4. A call recovers from transport errors as long as an attempt is left:
    when the first [n] requests fail in transport and the next one is
    accepted, the call returns success after [n + 1] requests and the [n]
    sleeps of the backoff. *)
Theorem transport_errors_recover (E : env) (st st1 : state)
    (recipient_email token : string) (max_retries n : Z) (r : response) :
  get_access_token false E st = (Ret token, st1) ->
  asset_error E recipient_email = None ->
  0 <= n < max_retries ->
  (forall k, (k < Z.to_nat n)%nat ->
             exists msg, post E (posts st1 + k)%nat = PostRaises msg) ->
  post E (posts st1 + Z.to_nat n)%nat = PostResponse r ->
  status_code r = 202 ->
  exists st',
    send_email recipient_email max_retries E st
    = (Ret (sent_ok recipient_email 202), st')
    /\ trace st'
       = trace st1
         ++ posts_and_sleeps recipient_email token
              (fun k => Z.min (2 ^ k) 30) (range n)
         ++ [Post recipient_email token].
Proof.
  intros Htok Hasset Hn Hraise Hpost Hs.
  destruct (retry_loop_raised E st1 recipient_email token max_retries n)
    as (st2 & Hloop & Ht & Hp & _); [lia | exact Hraise |].
  rewrite <- Hp in Hpost.
  assert (Hrange : exists rest, range max_retries = range n ++ n :: rest).
  { unfold range. exists (List.map Z.of_nat
                            (seq (S (Z.to_nat n))
                                 (Z.to_nat max_retries - S (Z.to_nat n)))).
    replace (Z.to_nat max_retries)
      with (Z.to_nat n + S (Z.to_nat max_retries - S (Z.to_nat n)))%nat
      at 1 by lia.
    rewrite seq_app, List.map_app. cbn [seq List.map Nat.add].
    do 2 f_equal. lia. }
  destruct Hrange as [rest Hrange].
  exists (posted recipient_email token st2). split.
  - apply (send_email_after E st st1 st2 _ _ token max_retries n
             (range n) rest); auto.
    apply (attempt_once_accepted E st2 _ _ _ _ r Hpost Hs).
  - cbn. rewrite Ht, <- app_assoc. reflexivity.
Qed.

Lemma transport_errors_recover_witness :
  send_email "a@x.com" 5
    (Env sample_clock (fun _ => grant "T" (Some 3600))
       (fun n => match n with
                 | O | S O => PostRaises "timed out"
                 | _ => PostResponse
                          (Response 202 EmptyString None
                             (JsonError json_error_msg))
                 end)
       (fun _ => None) None false (fun _ => None))
    fresh
  = (Ret (sent_ok "a@x.com" 202),
     State (Some "T") (Some 4600) 1 1 3 None
       [Exchange; Post "a@x.com" "T"; Sleep 1; Post "a@x.com" "T"; Sleep 2;
        Post "a@x.com" "T"]).
Proof.
  destruct (transport_errors_recover
              (Env sample_clock (fun _ => grant "T" (Some 3600))
                 (fun n => match n with
                           | O | S O => PostRaises "timed out"
                           | _ => PostResponse
                                    (Response 202 EmptyString None
                                       (JsonError json_error_msg))
                           end)
                 (fun _ => None) None false (fun _ => None))
              fresh (State (Some "T") (Some 4600) 1 1 0 None [Exchange])
              "a@x.com" "T" 5 2
              (Response 202 EmptyString None (JsonError json_error_msg))
              eq_refl eq_refl ltac:(lia))
    as (st' & Hrun & _).
  - intros [|[|k]] Hk; [eexists; reflexivity..|]. cbn in Hk. lia.
  - reflexivity.
  - reflexivity.
  - rewrite Hrun. f_equal.
    pose proof Hrun as Hc. vm_compute in Hc. congruence.
Defined.

(* ===================================================================== *)
(** * Throttling: the schedule and the Retry-After header                 *)
(* ===================================================================== *)

(** What a turn does with a throttling answer whose body decodes. *)
Lemma attempt_once_throttling (E : env) (st : state)
    (recipient_email token : string) (max_retries attempt : Z)
    (r : response) :
  post E (posts st) = PostResponse r ->
  throttling r -> decodes r ->
  attempt_once recipient_email token max_retries attempt E st
  = if attempt <? max_retries - 1 then
      match sleep_refusal E (wait_time_of (wait_seconds_of r) attempt) with
      | Some msg =>
          (Raise (Exception msg), posted recipient_email token st)
      | None =>
          (Ret None,
           log (Sleep (wait_time_of (wait_seconds_of r) attempt))
               (posted recipient_email token st))
      end
    else (Ret (Some (failed recipient_email (Some (status_code r))
                       (text r))),
          posted recipient_email token st).
Proof.
  intros Hpost (H202 & H401 & Hthr) Hdec.
  unfold attempt_once, try_except, bind at 1, requests_post. rewrite Hpost.
  destruct (Z.eqb_spec (status_code r) 202); [contradiction|].
  destruct (Z.eqb_spec (status_code r) 401); [contradiction|].
  assert (Hb : (status_code r =? 429)
               || contains "ApplicationThrottled" (text r) = true).
  { destruct Hthr as [->| ->]; [reflexivity | apply orb_true_r]. }
  rewrite Hb. unfold bind at 1.
  destruct (error_data_of_decodes r E
              (log (Post recipient_email token) (next_post st)) Hdec)
    as [d ->].
  destruct (attempt <? max_retries - 1); [|reflexivity].
  unfold bind, sleep, ret.
  destruct (sleep_refusal E _); reflexivity.
Qed.

(** The durations that [time.sleep] takes and those it refuses. *)
Lemma sleep_refusal_taken (E : env) (w : Z) :
  sleep_taken E w -> sleep_refusal E w = None.
Proof.
  intros [[H0 Hmax] Hlong]. unfold sleep_refusal.
  assert (H1 : (w <? - sleep_max) = false)
    by (apply Z.ltb_ge; unfold sleep_max in *; lia).
  assert (H2 : (sleep_max <? w) = false) by (apply Z.ltb_ge; lia).
  assert (H3 : (w <? 0) = false) by (apply Z.ltb_ge; lia).
  rewrite H1, H2, H3. cbn [orb].
  destruct (Z.leb_spec w 600); [reflexivity | apply Hlong; assumption].
Qed.

Lemma sleep_refusal_negative (E : env) (w : Z) :
  - sleep_max <= w < 0 -> sleep_refusal E w = Some negative_sleep_msg.
Proof.
  intros [Hmin H0]. unfold sleep_refusal.
  assert (H1 : (w <? - sleep_max) = false) by (apply Z.ltb_ge; lia).
  assert (H2 : (sleep_max <? w) = false)
    by (apply Z.ltb_ge; unfold sleep_max in *; lia).
  assert (H3 : (w <? 0) = true) by (apply Z.ltb_lt; lia).
  rewrite H1, H2, H3. reflexivity.
Qed.

Lemma sleep_refusal_outside (E : env) (w : Z) :
  w < 0 \/ sleep_max < w -> is_Some (sleep_refusal E w).
Proof.
  intros H. unfold sleep_refusal.
  destruct ((w <? - sleep_max) || (sleep_max <? w)) eqn:Hout; [eauto|].
  apply orb_false_iff in Hout as [_ H2]. apply Z.ltb_ge in H2.
  destruct (Z.ltb_spec w 0); [eauto | lia].
Qed.

Lemma int_of_str_truthy (h : string) (w : Z) :
  int_of_str h = Some w -> truthy h = true.
Proof. destruct h; [discriminate | reflexivity]. Qed.

Lemma wait_time_header (r : response) (h : string) (w attempt : Z) :
  retry_after r = Some h -> int_of_str h = Some w -> w <> 0 ->
  wait_time_of (wait_seconds_of r) attempt = w.
Proof.
  intros Hh Hint Hw. unfold wait_seconds_of, wait_time_of.
  rewrite Hh, (int_of_str_truthy h w Hint), Hint.
  destruct (Z.eqb_spec w 0); [contradiction | reflexivity].
Qed.

(** X5. A throttling answer whose Retry-After header reads as a positive
    integer [w] that [time.sleep] takes (at most [sleep_max], and not
    refused by the platform) makes the turn, with attempts left, sleep
    exactly [w] seconds and try again: the value is taken as it is, also
    beyond the 600 seconds that bound the exponential backoff.  (The header
    is read as [int] reads it: blanks around the digits, a sign and single
    underscores between digits are accepted.)  When the next request is
    accepted the call returns success after that one sleep. *)
Theorem retry_after_honoured (E : env) (st : state)
    (recipient_email bearer : string) (max_retries attempt : Z)
    (r : response) (h : string) (w : Z) :
  post E (posts st) = PostResponse r ->
  throttling r -> decodes r ->
  retry_after r = Some h -> int_of_str h = Some w -> 0 < w ->
  sleep_taken E w ->
  attempt < max_retries - 1 ->
  attempt_once recipient_email bearer max_retries attempt E st
  = (Ret None, log (Sleep w) (posted recipient_email bearer st))
  /\ forall st0 r2,
       get_access_token false E st0 = (Ret bearer, st) ->
       asset_error E recipient_email = None ->
       attempt = 0 ->
       post E (S (posts st)) = PostResponse r2 -> status_code r2 = 202 ->
       exists st',
         send_email recipient_email max_retries E st0
         = (Ret (sent_ok recipient_email 202), st')
         /\ trace st'
            = trace st ++ [Post recipient_email bearer; Sleep w;
                           Post recipient_email bearer].
Proof.
  intros Hpost Hthr Hdec Hh Hint Hw Htaken Hlt.
  assert (Hturn :
    attempt_once recipient_email bearer max_retries attempt E st
    = (Ret None, log (Sleep w) (posted recipient_email bearer st))).
  { rewrite (attempt_once_throttling E st _ _ _ _ r Hpost Hthr Hdec).
    rewrite (wait_time_header r h w attempt Hh Hint) by lia.
    destruct (Z.ltb_spec attempt (max_retries - 1)); [|lia].
    rewrite (sleep_refusal_taken E w Htaken). reflexivity. }
  split; [exact Hturn|].
  intros st0 r2 Htok Hasset -> Hpost2 Hs2.
  set (st2 := log (Sleep w) (posted recipient_email bearer st)) in *.
  exists (posted recipient_email bearer st2). split.
  - assert (Hrange : exists rest, range max_retries = [0] ++ 1 :: rest).
    { unfold range.
      replace (Z.to_nat max_retries)
        with (S (S (Z.to_nat (max_retries - 2)))) by lia.
      cbn [seq List.map]. eauto. }
    destruct Hrange as [rest Hrange].
    apply (send_email_after E st0 st st2 _ _ bearer max_retries 1 [0] rest);
      auto.
    + cbn [retry_loop]. unfold bind. rewrite Hturn. reflexivity.
    + apply (attempt_once_accepted E st2 _ _ _ _ r2); assumption.
  - cbn. rewrite <- !app_assoc. reflexivity.
Qed.

Lemma retry_after_honoured_witness :
  int_of_str " +9_00 " = Some 900
  /\ send_email "a@x.com" 5 (first_then_accept (retry_in " +9_00 ")) fresh
     = (Ret (sent_ok "a@x.com" 202),
        State (Some "T") (Some 4600) 1 1 2 None
          [Exchange; Post "a@x.com" "T"; Sleep 900; Post "a@x.com" "T"]).
Proof.
  split; [reflexivity|].
  assert (Hthr : throttling (retry_in " +9_00 ")).
  { split; [discriminate|]. split; [discriminate|]. left. reflexivity. }
  assert (Hdec : decodes (retry_in " +9_00 ")).
  { right. exists "{}". reflexivity. }
  assert (Htaken : sleep_taken (first_then_accept (retry_in " +9_00 ")) 900).
  { split; [unfold sleep_max; lia | reflexivity]. }
  destruct (proj2
              (retry_after_honoured (first_then_accept (retry_in " +9_00 "))
                 (State (Some "T") (Some 4600) 1 1 0 None [Exchange])
                 "a@x.com" "T" 5 0 (retry_in " +9_00 ") " +9_00 " 900
                 eq_refl Hthr Hdec eq_refl eq_refl eq_refl Htaken eq_refl)
              fresh
              (Response 202 EmptyString None (JsonError json_error_msg))
              eq_refl eq_refl eq_refl eq_refl eq_refl)
    as (st' & Hrun & _).
  rewrite Hrun. f_equal.
  pose proof Hrun as Hc. vm_compute in Hc. congruence.
Defined.

(** X6. A throttling answer whose Retry-After header reads as a negative
    integer, or as one beyond [sleep_max], met with attempts left: the
    value is taken as the wait, [time.sleep] refuses it, and the error is
    not one the retry loop handles.  The turn raises, and so does the call
    when this is its first answer; no sleep takes place and no further
    request is posted.  For a negative value down to [- sleep_max] the
    error is the [ValueError] of a negative duration. *)
Theorem refused_retry_after_raises (E : env) (st : state)
    (recipient_email bearer : string) (max_retries attempt : Z)
    (r : response) (h : string) (w : Z) :
  post E (posts st) = PostResponse r ->
  throttling r -> decodes r ->
  retry_after r = Some h -> int_of_str h = Some w ->
  w < 0 \/ sleep_max < w ->
  attempt < max_retries - 1 ->
  exists msg,
    (- sleep_max <= w < 0 -> msg = negative_sleep_msg)
    /\ attempt_once recipient_email bearer max_retries attempt E st
       = (Raise (Exception msg), posted recipient_email bearer st)
    /\ forall st0,
         get_access_token false E st0 = (Ret bearer, st) ->
         asset_error E recipient_email = None ->
         attempt = 0 ->
         send_email recipient_email max_retries E st0
         = (Raise (Exception msg), posted recipient_email bearer st).
Proof.
  intros Hpost Hthr Hdec Hh Hint Hw Hlt.
  destruct (sleep_refusal_outside E w Hw) as [msg Hmsg].
  exists msg. split.
  { intros Hneg. rewrite (sleep_refusal_negative E w Hneg) in Hmsg.
    congruence. }
  assert (Hturn :
    attempt_once recipient_email bearer max_retries attempt E st
    = (Raise (Exception msg), posted recipient_email bearer st)).
  { rewrite (attempt_once_throttling E st _ _ _ _ r Hpost Hthr Hdec).
    rewrite (wait_time_header r h w attempt Hh Hint)
      by (unfold sleep_max in Hw; lia).
    destruct (Z.ltb_spec attempt (max_retries - 1)); [|lia].
    rewrite Hmsg. reflexivity. }
  split; [exact Hturn|].
  intros st0 Htok Hasset ->.
  destruct (range_cons max_retries ltac:(lia)) as [rest Hrange].
  unfold send_email, bind at 1. rewrite Htok.
  unfold bind at 1, prepare_message. rewrite Hasset.
  unfold bind at 1. rewrite Hrange. cbn [retry_loop]. unfold bind at 1.
  rewrite Hturn. reflexivity.
Qed.

Lemma refused_retry_after_raises_witness :
  int_of_str "-5" = Some (-5)
  /\ send_email "a@x.com" 5 (first_then_accept (retry_in "-5")) fresh
     = (Raise (Exception negative_sleep_msg),
        State (Some "T") (Some 4600) 1 1 1 None
          [Exchange; Post "a@x.com" "T"]).
Proof.
  split; [reflexivity|].
  assert (Hthr : throttling (retry_in "-5")).
  { split; [discriminate|]. split; [discriminate|]. left. reflexivity. }
  assert (Hdec : decodes (retry_in "-5")).
  { right. exists "{}". reflexivity. }
  destruct (refused_retry_after_raises (first_then_accept (retry_in "-5"))
              (State (Some "T") (Some 4600) 1 1 0 None [Exchange])
              "a@x.com" "T" 5 0 (retry_in "-5") "-5" (-5)
              eq_refl Hthr Hdec eq_refl eq_refl
              (or_introl eq_refl) eq_refl)
    as (msg & Hmsg & _ & Hcall).
  rewrite (Hcall fresh eq_refl eq_refl eq_refl).
  rewrite (Hmsg ltac:(unfold sleep_max; lia)). reflexivity.
Defined.

Lemma throttling_schedule_aux (E : env) (st st1 : state)
    (recipient_email token : string) (max_retries : Z)
    (r : nat -> response) :
  get_access_token false E st = (Ret token, st1) ->
  asset_error E recipient_email = None ->
  0 < max_retries ->
  (forall k, (k < Z.to_nat max_retries)%nat ->
             post E (posts st1 + k)%nat = PostResponse (r k)
             /\ throttled_bare (r k)) ->
  exists st',
    send_email recipient_email max_retries E st
    = (Ret (failed recipient_email
              (Some (status_code (r (Z.to_nat (max_retries - 1)))))
              (text (r (Z.to_nat (max_retries - 1))))), st')
    /\ trace st'
       = trace st1
         ++ posts_and_sleeps recipient_email token
              (fun k => Z.min (60 * 2 ^ k) 600) (range (max_retries - 1))
         ++ [Post recipient_email token]
    /\ posts st' = (posts st1 + Z.to_nat max_retries)%nat.
Proof.
  intros Htok Hasset Hpos Hthr.
  destruct (retry_loop_sleeps recipient_email token max_retries
              throttle_backoff (range (max_retries - 1)) E st1)
    as (st2 & Hloop & Ht & Hp & _).
  { intros j a st_j Hj Hpj. apply lookup_range in Hj as [-> Hlt].
    destruct (Hthr j ltac:(lia)) as (Hpost & Hthrot & Hnone & Hdec).
    rewrite <- Hpj in Hpost.
    rewrite (attempt_once_throttling E st_j _ _ _ _ (r j) Hpost Hthrot Hdec).
    rewrite (wait_time_plain (r j) _ Hnone).
    destruct (Z.ltb_spec (Z.of_nat j) (max_retries - 1)); [|lia].
    rewrite sleep_refusal_short by apply throttle_backoff_bounds.
    reflexivity. }
  rewrite length_range in Hp.
  destruct (Hthr (Z.to_nat (max_retries - 1)) ltac:(lia))
    as (Hpost & Hthrot & Hnone & Hdec).
  rewrite <- Hp in Hpost.
  exists (posted recipient_email token st2). split.
  - apply (send_email_after E st st1 st2 _ _ token max_retries
             (max_retries - 1) (range (max_retries - 1)) []);
      auto using range_snoc.
    rewrite (attempt_once_throttling E st2 _ _ _ _ _ Hpost Hthrot Hdec).
    destruct (Z.ltb_spec (max_retries - 1) (max_retries - 1));
      [lia|reflexivity].
  - split; [cbn; rewrite Ht, <- app_assoc; reflexivity|].
    cbn. rewrite Hp. lia.
Qed.

(** X7. The schedule of the throttling backoff for any number of attempts:
    when every request of a call with [max_retries] attempts is answered
    with a throttling answer (status 429, or the marker
    "ApplicationThrottled" in the body) that has no Retry-After header and a
    body that decodes, the call posts [max_retries] requests, sleeps [min(60
    * 2^k, 600)] seconds after the k-th of them (60, 120, 240, 480, then 600
    each time) except the last, and returns the failure with the status and
    the body of the last answer. *)
Theorem throttling_schedule (E : env) (st st1 : state)
    (recipient_email token : string) (max_retries : Z)
    (r : nat -> response) :
  get_access_token false E st = (Ret token, st1) ->
  asset_error E recipient_email = None ->
  0 < max_retries ->
  (forall k, (k < Z.to_nat max_retries)%nat ->
             post E (posts st1 + k)%nat = PostResponse (r k)
             /\ throttled_bare (r k)) ->
  exists st',
    send_email recipient_email max_retries E st
    = (Ret (failed recipient_email
              (Some (status_code (r (Z.to_nat (max_retries - 1)))))
              (text (r (Z.to_nat (max_retries - 1))))), st')
    /\ trace st'
       = trace st1
         ++ posts_and_sleeps recipient_email token
              (fun k => Z.min (60 * 2 ^ k) 600) (range (max_retries - 1))
         ++ [Post recipient_email token]
    /\ posts st' = (posts st1 + Z.to_nat max_retries)%nat.
Proof.
  exact (throttling_schedule_aux E st st1 recipient_email token max_retries
           r).
Qed.

Lemma throttling_schedule_witness :
  send_email "a@x.com" 7 (always (PostResponse (throttled_json None))) fresh
  = (Ret (failed "a@x.com" (Some 429) "{}"),
     State (Some "T") (Some 4600) 1 1 7 None
       [Exchange; Post "a@x.com" "T"; Sleep 60; Post "a@x.com" "T";
        Sleep 120; Post "a@x.com" "T"; Sleep 240; Post "a@x.com" "T";
        Sleep 480; Post "a@x.com" "T"; Sleep 600; Post "a@x.com" "T";
        Sleep 600; Post "a@x.com" "T"]).
Proof.
  destruct (throttling_schedule
              (always (PostResponse (throttled_json None))) fresh
              (State (Some "T") (Some 4600) 1 1 0 None [Exchange])
              "a@x.com" "T" 7 (fun _ => throttled_json None)
              eq_refl eq_refl eq_refl)
    as (st' & Hrun & _).
  - intros k _. split; [reflexivity|].
    split; [|split; [reflexivity|right; exists "{}"; reflexivity]].
    split; [discriminate|]. split; [discriminate|]. left. reflexivity.
  - rewrite Hrun. f_equal.
    pose proof Hrun as Hc. vm_compute in Hc. congruence.
Defined.

(* ===================================================================== *)
(** * Further properties of the token provider                            *)
(* ===================================================================== *)

(** X8. When the exchange is refused (the answer of the identity provider
    holds no access token), [get_access_token] raises "Failed to acquire
    token: " followed by the error description of the answer, or else its
    error, or else "Unknown error"; one exchange was made, and the cached
    token and its expiry are what they were before the call: a refused
    refresh does not clear the cache. *)
Theorem refused_exchange_keeps_cache (E : env) (st : state)
    (force_refresh : bool) :
  force_refresh = true \/ (forall tok, ~ cache_fresh E st tok) ->
  t_access_token (acquire_token_for_client E (exchanges st)) = None ->
  exists st',
    get_access_token force_refresh E st
    = (Raise (Exception
                ("Failed to acquire token: "
                 +:+ token_error_msg
                       (acquire_token_for_client E (exchanges st)))), st')
    /\ access_token st' = access_token st
    /\ token_expires_at st' = token_expires_at st
    /\ trace st' = trace st ++ [Exchange]
    /\ exchanges st' = S (exchanges st).
Proof.
  intros Hcase Hnone.
  rewrite (get_access_token_exchange E st force_refresh Hcase).
  cbn zeta. rewrite Hnone. eexists. split; [reflexivity|].
  unfold before_exchange.
  destruct (negb force_refresh), (token_set st), (expiry_set st);
    cbn; auto.
Qed.

Lemma refused_exchange_keeps_cache_witness :
  get_access_token true refusing
    (State (Some "T") (Some 5000) 0 0 0 None [])
  = (Raise (Exception "Failed to acquire token: AADSTS7000215"),
     State (Some "T") (Some 5000) 0 1 0 None [Exchange]).
Proof.
  destruct (refused_exchange_keeps_cache refusing
              (State (Some "T") (Some 5000) 0 0 0 None []) true
              (or_introl eq_refl) eq_refl)
    as (st' & Hrun & _).
  assert (Hst : st' = State (Some "T") (Some 5000) 0 1 0 None [Exchange]).
  { pose proof Hrun as Hc. vm_compute in Hc. injection Hc as <-.
    reflexivity. }
  rewrite Hrun, Hst. reflexivity.
Defined.


(** X9. A 401 answer with the signal of an expired token, when the refresh
    is refused: the error of the token provider is not one the retry loop
    handles, so the loop raises it instead of returning the failure "Token
    expired", and so does the call, at whichever attempt the answer arrives;
    the token the sender holds stays the old one. *)
Theorem refused_refresh_escapes (E : env) (st : state)
    (recipient_email bearer : string) (max_retries attempt : Z)
    (rest : list Z) (r : response) (d : string) :
  post E (posts st) = PostResponse r ->
  status_code r = 401 ->
  truthy (text r) = true -> json r = JsonValue d ->
  token_expired_signal d ->
  t_access_token (acquire_token_for_client E (exchanges st)) = None ->
  exists st',
    retry_loop recipient_email bearer max_retries (attempt :: rest) E st
    = (Raise (Exception
                ("Failed to acquire token: "
                 +:+ token_error_msg
                       (acquire_token_for_client E (exchanges st)))), st')
    /\ trace st' = trace st ++ [Post recipient_email bearer; Exchange]
    /\ access_token st' = access_token st
    /\ token_expires_at st' = token_expires_at st
    /\ forall st0 st1 earlier,
         get_access_token false E st0 = (Ret bearer, st1) ->
         asset_error E recipient_email = None ->
         range max_retries = earlier ++ attempt :: rest ->
         retry_loop recipient_email bearer max_retries earlier E st1
         = (Ret None, st) ->
         send_email recipient_email max_retries E st0
         = (Raise (Exception
                     ("Failed to acquire token: "
                      +:+ token_error_msg
                            (acquire_token_for_client E (exchanges st)))),
            st').
Proof.
  intros Hpost Hstatus Htext Hjson Hsig Hnone.
  set (st1 := posted recipient_email bearer st).
  assert (Hloop :
    retry_loop recipient_email bearer max_retries (attempt :: rest) E st
    = (Raise (Exception
                ("Failed to acquire token: "
                 +:+ token_error_msg
                       (acquire_token_for_client E (exchanges st)))),
       log Exchange (next_exchange st1))).
  { cbn [retry_loop]. unfold bind at 1.
    unfold attempt_once, try_except, bind at 1, requests_post.
    rewrite Hpost, Hstatus. cbn [Z.eqb Pos.eqb].
    unfold bind at 1, error_data_of. rewrite Htext, Hjson. unfold ret at 1.
    rewrite (signal_detected d Hsig).
    unfold bind at 1.
    rewrite (get_access_token_exchange E _ true (or_introl eq_refl)).
    cbn -[String.append]. rewrite Hnone. reflexivity. }
  exists (log Exchange (next_exchange st1)).
  split; [exact Hloop|].
  split; [cbn; rewrite <- app_assoc; reflexivity|].
  split; [reflexivity|]. split; [reflexivity|].
  intros st0 st2 earlier Hget Hasset Hrange Hearlier.
  unfold send_email, bind at 1. rewrite Hget.
  unfold bind at 1, prepare_message. rewrite Hasset.
  unfold bind at 1. rewrite Hrange.
  rewrite (retry_loop_app _ _ _ earlier (attempt :: rest) E st2 st Hearlier).
  rewrite Hloop. reflexivity.
Qed.

Lemma refused_refresh_escapes_witness :
  send_email "a@x.com" 5 refusing
    (State (Some "T") (Some 5000) 0 0 0 None [])
  = (Raise (Exception "Failed to acquire token: AADSTS7000215"),
     State (Some "T") (Some 5000) 1 1 1 None
       [Post "a@x.com" "T"; Exchange]).
Proof.
  destruct (refused_refresh_escapes refusing
              (State (Some "T") (Some 5000) 1 0 0 None [])
              "a@x.com" "T" 5 0 [1; 2; 3; 4] unauthorized
              "InvalidAuthenticationToken"
              eq_refl eq_refl eq_refl eq_refl (or_introl eq_refl) eq_refl)
    as (st' & Hloop & _ & _ & _ & Hsend).
  assert (Hst : st' = State (Some "T") (Some 5000) 1 1 1 None
                        [Post "a@x.com" "T"; Exchange]).
  { pose proof Hloop as Hc. vm_compute in Hc. injection Hc as <-.
    reflexivity. }
  rewrite (Hsend (State (Some "T") (Some 5000) 0 0 0 None [])
             (State (Some "T") (Some 5000) 1 0 0 None []) []
             eq_refl eq_refl eq_refl eq_refl), Hst.
  reflexivity.
Defined.

Lemma trace_before_exchange (force_refresh : bool) (st : state) :
  trace (before_exchange force_refresh st) = trace st
  /\ exchanges (before_exchange force_refresh st) = exchanges st
  /\ access_token (before_exchange force_refresh st) = access_token st
  /\ token_expires_at (before_exchange force_refresh st)
     = token_expires_at st.
Proof.
  unfold before_exchange.
  destruct (negb force_refresh), (token_set st), (expiry_set st); auto.
Qed.

(** X10. How long a granted token is reused.  After a call that obtained
    [token] by an exchange, at clock reading [issued] and for [lifetime]
    seconds (3600 when the answer gives none), the next call without forced
    refresh returns that token without an exchange when the token is not the
    empty string, [issued + lifetime] is not zero and the clock then reads
    less than [issued + lifetime - 300]; in every other case the next call
    makes a new exchange.  So a token granted for 300 seconds or less is
    never reused while the clock does not run backwards. *)
Theorem granted_token_lifetime (E : env) (st st1 : state)
    (force_refresh : bool) (token : string) :
  get_access_token force_refresh E st = (Ret token, st1) ->
  exchanges st1 = S (exchanges st) ->
  let issued := time_at E (pred (time_reads st1)) in
  let lifetime :=
    default 3600 (t_expires_in (acquire_token_for_client E (exchanges st))) in
  let next := time_at E (time_reads st1) in
  (truthy token = true -> issued + lifetime <> 0 ->
   next < issued + lifetime - 300 ->
   get_access_token false E st1 = (Ret token, tick st1))
  /\ (truthy token = false \/ issued + lifetime = 0
      \/ issued + lifetime - 300 <= next ->
      trace (snd (get_access_token false E st1)) = trace st1 ++ [Exchange])
  /\ (lifetime <= 300 -> issued <= next ->
      trace (snd (get_access_token false E st1)) = trace st1 ++ [Exchange]).
Proof.
  intros Hget Hex issued lifetime next.
  assert (Hcase : force_refresh = true \/ forall tok, ~ cache_fresh E st tok).
  { destruct force_refresh; [auto|]. right. intros tok Hfresh.
    rewrite (get_access_token_cached E st tok Hfresh) in Hget.
    injection Hget as _ <-. cbn in Hex. lia. }
  rewrite (get_access_token_exchange E st force_refresh Hcase) in Hget.
  cbn zeta in Hget.
  destruct (trace_before_exchange force_refresh st) as (_ & Hx0 & _).
  set (st0 := before_exchange force_refresh st) in *.
  destruct (t_access_token _) as [token'|]; [|discriminate].
  injection Hget as -> <-.
  assert (Hissued : issued = time_at E (time_reads st0)) by reflexivity.
  assert (Hnext : next = time_at E (S (time_reads st0))) by reflexivity.
  clearbody issued next.
  set (st1 := with_expiry _ _) in *.
  assert (Htok : token_set st1 = if truthy token then Some token else None)
    by reflexivity.
  assert (Hexp : expiry_set st1
                 = if issued + lifetime =? 0 then None
                   else Some (issued + lifetime)).
  { rewrite Hissued. reflexivity. }
  assert (Hreads : time_at E (time_reads st1) = next).
  { rewrite Hnext. reflexivity. }
  assert (Hstale : truthy token = false \/ issued + lifetime = 0
                   \/ issued + lifetime - 300 <= next ->
                   trace (snd (get_access_token false E st1))
                   = trace st1 ++ [Exchange]).
  { intros Hno.
    assert (Hnone : forall tok, ~ cache_fresh E st1 tok).
    { intros tok (Ht & expires_at & He & Hlt).
      rewrite Htok in Ht. rewrite Hexp in He. rewrite Hreads in Hlt.
      destruct (truthy token); [|discriminate].
      destruct (Z.eqb_spec (issued + lifetime) 0); [discriminate|].
      injection He as <-.
      destruct Hno as [Hno|[Hno|Hno]]; [discriminate | contradiction | lia]. }
    rewrite (get_access_token_exchange E st1 false (or_intror Hnone)).
    cbn zeta.
    destruct (trace_before_exchange false st1) as (Htr & _).
    destruct (t_access_token _); cbn [snd];
      (transitivity (trace (before_exchange false st1) ++ [Exchange]);
       [reflexivity | rewrite Htr; reflexivity]). }
  split; [|split; [exact Hstale|]].
  - intros Ht Hne Hlt. apply get_access_token_cached.
    split; [rewrite Htok, Ht; reflexivity|].
    exists (issued + lifetime). split.
    + rewrite Hexp. destruct (Z.eqb_spec (issued + lifetime) 0);
        [contradiction | reflexivity].
    + rewrite Hreads. exact Hlt.
  - intros Hshort Hmono. apply Hstale. right. right. lia.
Qed.

Lemma granted_token_lifetime_witness :
  get_access_token false (granting (Some 3600))
    (State (Some "T") (Some 4600) 1 1 0 None [Exchange])
  = (Ret "T", State (Some "T") (Some 4600) 2 1 0 None [Exchange])
  /\ trace (snd (get_access_token false (granting (Some 300))
                   (State (Some "T") (Some 1300) 1 1 0 None [Exchange])))
     = [Exchange; Exchange].
Proof.
  split.
  - exact (proj1 (granted_token_lifetime (granting (Some 3600)) fresh
                    (State (Some "T") (Some 4600) 1 1 0 None [Exchange])
                    false "T" eq_refl eq_refl)
             eq_refl ltac:(discriminate) eq_refl).
  - exact (proj2 (proj2
             (granted_token_lifetime (granting (Some 300)) fresh
                (State (Some "T") (Some 1300) 1 1 0 None [Exchange])
                false "T" eq_refl eq_refl))
             ltac:(discriminate) ltac:(discriminate)).
Defined.

(* ===================================================================== *)
(** * Further properties of the campaign runner                           *)
(* ===================================================================== *)

Lemma with_lines_app (file : option string) (xs ys : list string) :
  with_lines file (xs ++ ys) = with_lines (with_lines file xs) ys.
Proof. unfold with_lines. apply fold_left_app. Qed.

(** What the loop over the recipients does, whatever the environment:
    it returns; the new results are for recipients of the list, in the
    order of the list, none of them in the set the loop started with;
    every recipient of the list outside that set has a result; no
    address is delivered twice; and the ledger, when open, grows by the
    lines of the delivered addresses, in order. *)
Lemma send_loop_spec (l : list string) :
  forall total progress_fp i sent_emails results E st,
    exists res' st',
      send_loop total progress_fp i l sent_emails results E st
      = (Ret (results ++ res'), st')
      /\ sublist (List.map Result.recipient res') l
      /\ Forall (fun x => Result.recipient x ∉ sent_emails) res'
      /\ (forall x, x ∈ l -> x ∉ sent_emails ->
                    x ∈ List.map Result.recipient res')
      /\ NoDup (delivered res')
      /\ ledger st'
         = if progress_fp then with_lines (ledger st) (delivered res')
           else ledger st.
Proof.
  induction l as [|a l IH]; intros total progress_fp i sent_emails results
    E st; cbn [send_loop].
  - exists [], st. rewrite app_nil_r. split; [reflexivity|].
    split; [constructor|]. split; [constructor|].
    split; [intros x Hx; apply elem_of_nil in Hx; contradiction|].
    split; [constructor|]. destruct progress_fp; reflexivity.
  - destruct (decide (a ∈ sent_emails)) as [Ha|Ha].
    + destruct (IH total progress_fp (i + 1) sent_emails results E st)
        as (res' & st' & Heq & Hsub & Hout & Hcov & Hnd & Hled).
      exists res', st'. split; [exact Heq|].
      split; [apply sublist_cons, Hsub|]. split; [exact Hout|].
      split; [|auto].
      intros x Hx Hnot. apply elem_of_cons in Hx as [->|Hx];
        [contradiction | auto].
    + unfold bind.
      destruct (send_guarded_spec total progress_fp i a sent_emails results
                  E st)
        as (res & sent' & st1 & evs1 & -> & Hrec & _ & _ & Hcases).
      cbn [fst snd].
      destruct (IH total progress_fp (i + 1) sent' (results ++ [res]) E st1)
        as (res' & st' & -> & Hsub & Hout & Hcov & Hnd & Hled).
      exists (res :: res'), st'.
      split; [rewrite <- app_assoc; reflexivity|].
      assert (Hsent : forall x, x ∈ sent_emails -> x ∈ sent').
      { intros x Hx.
        destruct Hcases as [(_ & -> & _)|(_ & -> & _)]; [|exact Hx].
        apply elem_of_union. auto. }
      split; [cbn [List.map]; rewrite Hrec; apply sublist_skip, Hsub|].
      split.
      { constructor; [rewrite Hrec; exact Ha|].
        eapply Forall_impl; [exact Hout|]. cbn. intros x Hx Hin.
        apply Hx, Hsent, Hin. }
      split.
      { intros x Hx Hnot. cbn [List.map]. rewrite Hrec.
        apply elem_of_cons in Hx as [->|Hx]; [left|].
        destruct (decide (x = a)) as [->|Hne]; [left|]. right.
        apply Hcov; [exact Hx|].
        destruct Hcases as [(_ & -> & _)|(_ & -> & _)]; [|exact Hnot].
        rewrite elem_of_union, elem_of_singleton. tauto. }
      unfold delivered in *. cbn [List.filter].
      destruct Hcases as [(Hs & -> & Hl1)|(Hs & -> & Hl1)]; rewrite Hs.
      * cbn [List.map]. rewrite Hrec. split.
        -- constructor; [|exact Hnd].
           intros Hin. apply list_elem_of_In, in_map_iff in Hin
             as (y & Hy & Hin).
           apply List.filter_In in Hin as [Hin _].
           rewrite Forall_forall in Hout.
           apply (Hout y); [apply list_elem_of_In, Hin|].
           rewrite Hy. apply elem_of_union. left.
           apply elem_of_singleton. reflexivity.
        -- rewrite Hled, Hl1. destruct progress_fp; reflexivity.
      * split; [exact Hnd|]. rewrite Hled, Hl1. reflexivity.
Qed.

Lemma with_lines_some (content : string) (xs : list string) :
  with_lines (Some content) xs = Some (content +:+ ledger_lines xs).
Proof.
  revert content. induction xs as [|x xs IH]; intros content.
  - cbn. rewrite append_nil_r. reflexivity.
  - cbn [with_lines fold_left ledger_lines fold_right] in *.
    cbn [default from_option].
    change (fold_left _ xs ?f) with (with_lines f xs). rewrite IH.
    rewrite !append_assoc. reflexivity.
Qed.

Lemma load_progress_loaded (progress_file : bool) (E : env) (st : state) :
  load_progress progress_file E st = (Ret (loaded progress_file E st), st).
Proof.
  unfold loaded. destruct (load_progress_spec progress_file E st)
    as (s & -> & _). reflexivity.
Qed.

Lemma open_append_spec (progress_file : bool) (E : env) (st : state) :
  open_append progress_file E st
  = (Ret (progress_file && negb (ledger_open_error E)),
     if progress_file && negb (ledger_open_error E)
     then set_ledger (default EmptyString (ledger st)) st else st).
Proof.
  unfold open_append.
  destruct (progress_file && negb (ledger_open_error E)); reflexivity.
Qed.

(** X11. When a run of the campaign returns, its results are for
    recipients of the list from [start_index] on, in the order of the list,
    none of them among the addresses loaded from the ledger; and every
    recipient of that part of the list that was not loaded from the ledger
    has a result, a success or a failure: a recipient that fails, also by
    an exception, does not keep the run from the recipients after it. *)
Theorem campaign_results_cover (recipient_list : list string)
    (start_index : Z) (progress_file : bool) (E : env) (st st' : state)
    (results : list Result.t) :
  send_emails_one_by_one recipient_list start_index progress_file E st
  = (Ret results, st') ->
  sublist (List.map Result.recipient results)
          (remaining start_index recipient_list)
  /\ Forall (fun x => Result.recipient x ∉ loaded progress_file E st)
            results
  /\ forall x,
       x ∈ remaining start_index recipient_list ->
       x ∉ loaded progress_file E st ->
       x ∈ List.map Result.recipient results.
Proof.
  unfold send_emails_one_by_one, bind.
  rewrite load_progress_loaded, open_append_spec.
  fold (remaining start_index recipient_list).
  destruct (send_loop_spec (remaining start_index recipient_list)
              (len (remaining start_index recipient_list))
              (progress_file && negb (ledger_open_error E)) 1
              (loaded progress_file E st) [] E
              (if progress_file && negb (ledger_open_error E)
               then set_ledger (default EmptyString (ledger st)) st else st))
    as (res' & st2 & Heq & Hsub & Hout & Hcov & _).
  rewrite Heq. intros [= <- <-]. auto.
Qed.

Lemma campaign_results_cover_witness :
  sublist ["a@x.com"; "b@y.com"; "a@x.com"; "c@z.org"]
          (remaining 0 ["a@x.com"; "b@y.com"; "a@x.com"; "c@z.org"])
  /\ Forall (fun x => Result.recipient x
                      ∉ loaded false
                          (first_then_accept (retry_in "-5")) fresh)
            [failed "a@x.com" None negative_sleep_msg;
             sent_ok "b@y.com" 202; sent_ok "a@x.com" 202;
             sent_ok "c@z.org" 202]
  /\ forall x,
       x ∈ remaining 0 ["a@x.com"; "b@y.com"; "a@x.com"; "c@z.org"] ->
       x ∉ loaded false (first_then_accept (retry_in "-5")) fresh ->
       x ∈ ["a@x.com"; "b@y.com"; "a@x.com"; "c@z.org"].
Proof.
  apply (campaign_results_cover
           ["a@x.com"; "b@y.com"; "a@x.com"; "c@z.org"] 0 false
           (first_then_accept (retry_in "-5")) fresh
           (State (Some "T") (Some 4600) 4 1 4 None
              [Exchange; Post "a@x.com" "T"; Post "b@y.com" "T"; Sleep 5;
               Post "a@x.com" "T"; Sleep 5; Post "c@z.org" "T"])
           [failed "a@x.com" None negative_sleep_msg;
            sent_ok "b@y.com" 202; sent_ok "a@x.com" 202;
            sent_ok "c@z.org" 202]).
  vm_compute. reflexivity.
Defined.

(** X12. No address is delivered twice in a run: the recipients of the
    successful results are pairwise distinct, also when the list names an
    address several times, and none of them was loaded from the ledger. *)
Theorem no_address_delivered_twice (recipient_list : list string)
    (start_index : Z) (progress_file : bool) (E : env) (st : state) :
  exists results st',
    send_emails_one_by_one recipient_list start_index progress_file E st
    = (Ret results, st')
    /\ NoDup (delivered results)
    /\ Forall (fun x => x ∉ loaded progress_file E st) (delivered results).
Proof.
  unfold send_emails_one_by_one, bind.
  rewrite load_progress_loaded, open_append_spec.
  fold (remaining start_index recipient_list).
  destruct (send_loop_spec (remaining start_index recipient_list)
              (len (remaining start_index recipient_list))
              (progress_file && negb (ledger_open_error E)) 1
              (loaded progress_file E st) [] E
              (if progress_file && negb (ledger_open_error E)
               then set_ledger (default EmptyString (ledger st)) st else st))
    as (res' & st' & Heq & _ & Hout & _ & Hnd & _).
  exists res', st'. rewrite Heq. split; [reflexivity|].
  split; [exact Hnd|].
  unfold delivered. apply Forall_forall. intros x Hx.
  apply list_elem_of_In, in_map_iff in Hx as (y & <- & Hy).
  apply List.filter_In in Hy as [Hy _].
  rewrite Forall_forall in Hout. apply Hout, list_elem_of_In, Hy.
Qed.

(** ** A run that meets no failure *)

Lemma get_access_token_granted (force_refresh : bool) (E : env)
    (st : state) :
  (forall n, t_access_token (acquire_token_for_client E n) <> None) ->
  exists token st1,
    get_access_token force_refresh E st = (Ret token, st1)
    /\ posts st1 = posts st /\ ledger st1 = ledger st.
Proof.
  intros Hgrant. unfold get_access_token. run.
  specialize (Hgrant (exchanges st)).
  destruct (negb force_refresh);
    [destruct (token_set st); [destruct (expiry_set st)|]|];
    cbn beta iota; try destruct (_ <? _); cbn;
    try (destruct (t_access_token _); [|contradiction]);
    eexists _, _; (split; [reflexivity|]); auto.
Qed.

Lemma send_email_accepted (x : string) (max_retries : Z) (E : env)
    (st : state) :
  (forall n, exists r, post E n = PostResponse r /\ status_code r = 202) ->
  (forall n, t_access_token (acquire_token_for_client E n) <> None) ->
  asset_error E x = None ->
  0 < max_retries ->
  exists st',
    send_email x max_retries E st = (Ret (sent_ok x 202), st')
    /\ posts st' = S (posts st) /\ ledger st' = ledger st.
Proof.
  intros Hpost Hgrant Hasset Hpos.
  destruct (get_access_token_granted false E st Hgrant)
    as (token & st1 & Hget & Hp1 & Hl1).
  destruct (Hpost (posts st1)) as (r & Hr & Hs).
  destruct (range_cons max_retries Hpos) as [rest Hrange].
  exists (posted x token st1). split.
  - apply (send_email_after E st st1 st1 _ _ token max_retries 0 [] rest);
      auto.
    apply (attempt_once_accepted E st1 _ _ _ _ r Hr Hs).
  - cbn. rewrite Hp1, Hl1. auto.
Qed.

Lemma send_loop_accepted (l : list string) :
  forall total progress_fp i sent_emails before results E st,
    (forall n, exists r, post E n = PostResponse r /\ status_code r = 202) ->
    (forall n, t_access_token (acquire_token_for_client E n) <> None) ->
    (forall x, asset_error E x = None) ->
    (forall x, x ∈ sent_emails <-> x ∈ before) ->
    exists st',
      send_loop total progress_fp i l sent_emails results E st
      = (Ret (results
              ++ List.map (fun x => sent_ok x 202)
                          (first_occurrences before l)), st')
      /\ posts st'
         = (posts st + length (first_occurrences before l))%nat.
Proof.
  induction l as [|a l IH]; intros total progress_fp i sent_emails before
    results E st Hpost Hgrant Hasset Hseen;
    cbn [send_loop first_occurrences].
  - exists st. cbn. rewrite app_nil_r, Nat.add_0_r. auto.
  - assert (Hnext : forall x,
               x ∈ {[a]} ∪ sent_emails <-> x ∈ before ++ [a]).
    { intros x. rewrite elem_of_union, elem_of_singleton, elem_of_app,
        list_elem_of_singleton, Hseen. tauto. }
    destruct (decide (a ∈ sent_emails)) as [Ha|Ha];
      destruct (decide (a ∈ before)) as [Hb|Hb];
      try (apply Hseen in Ha; contradiction);
      try (apply Hseen in Hb; contradiction).
    + apply IH; auto. intros x.
      rewrite elem_of_app, list_elem_of_singleton, <- Hseen.
      split; [auto|]. intros [?| ->]; auto.
    + unfold bind, send_guarded, try_except, send_one, bind at 1.
      destruct (send_email_accepted a 5 E st Hpost Hgrant (Hasset a)
                  ltac:(lia)) as (st1 & -> & Hp1 & _).
      cbn [Result.success sent_ok].
      assert (Hturn : exists st2,
                (let* sent_emails' :=
                   let* _ := when progress_fp (write_line a) in
                   ret ({[a]} ∪ sent_emails) in
                 let results' := results ++ [sent_ok a 202] in
                 let* _ := when (i <? total) (sleep 5) in
                 ret (sent_emails', results')) E st1
                = (Ret ({[a]} ∪ sent_emails, results ++ [sent_ok a 202]),
                   st2)
                /\ posts st2 = posts st1).
      { unfold bind, when, write_line, sleep, ret.
        destruct progress_fp, (i <? total); cbn; eauto. }
      destruct Hturn as (st2 & Hturn & Hp2).
      unfold sent_ok in *. rewrite Hturn. cbn [fst snd].
      destruct (IH total progress_fp (i + 1) ({[a]} ∪ sent_emails)
                  (before ++ [a])
                  (results ++ [Result.Make true a (Some 202) None
                                 (Some "Email sent successfully")])
                  E st2 Hpost Hgrant Hasset Hnext)
        as (st' & -> & Hp').
      exists st'. split; [cbn [List.map]; rewrite <- app_assoc; reflexivity|].
      rewrite Hp', Hp2, Hp1. cbn [length]. lia.
Qed.

(** X14. In a run without ledger file, when the provider grants every
    exchange, the assets are in order and the endpoint accepts every
    message, the run delivers to each address of the list (from
    [start_index] on) once, at its first occurrence and in the order of the
    list: these are its results, all of them successes, and it posts one
    request for each. *)
Theorem accepted_campaign (recipient_list : list string) (start_index : Z)
    (E : env) (st : state) :
  (forall n, exists r, post E n = PostResponse r /\ status_code r = 202) ->
  (forall n, t_access_token (acquire_token_for_client E n) <> None) ->
  (forall x, asset_error E x = None) ->
  let new := first_occurrences [] (remaining start_index recipient_list) in
  exists st',
    send_emails_one_by_one recipient_list start_index false E st
    = (Ret (List.map (fun x => sent_ok x 202) new), st')
    /\ posts st' = (posts st + length new)%nat.
Proof.
  intros Hpost Hgrant Hasset new.
  unfold send_emails_one_by_one, bind.
  rewrite load_progress_loaded, open_append_spec. cbn [andb].
  fold (remaining start_index recipient_list).
  apply (send_loop_accepted (remaining start_index recipient_list)
           (len (remaining start_index recipient_list)) false 1
           (loaded false E st) [] [] E st Hpost Hgrant Hasset).
  intros x. unfold loaded, load_progress.
  rewrite elem_of_nil. split; [|contradiction].
  apply not_elem_of_empty.
Qed.

Lemma accepted_campaign_witness :
  send_emails_one_by_one ["a@x.com"; "b@y.com"; "c@z.org"; "b@y.com"] 1
    false accepting fresh
  = (Ret [sent_ok "b@y.com" 202; sent_ok "c@z.org" 202],
     State (Some "T") (Some 4600) 2 1 2 None
       [Exchange; Post "b@y.com" "T"; Sleep 5; Post "c@z.org" "T";
        Sleep 5]).
Proof.
  destruct (accepted_campaign ["a@x.com"; "b@y.com"; "c@z.org"; "b@y.com"]
              1 accepting fresh)
    as (st' & Hrun & _).
  - intros n. eexists. split; reflexivity.
  - intros n. discriminate.
  - intros x. reflexivity.
  - rewrite Hrun. f_equal.
    pose proof Hrun as Hc. vm_compute in Hc. congruence.
Defined.

(* ===================================================================== *)
(** * Further properties of the extraction and of the pipeline            *)
(* ===================================================================== *)

(** ** What the extraction returns *)

(** What [email_pattern] matches is a well-formed address. *)
Lemma email_match_well_formed (prev : option ascii) (s r : string) :
  match_here email_pattern prev s = Some r ->
  exists m, s = m +:+ r /\ well_formed m.
Proof.
  unfold email_pattern. cbn [match_here].
  destruct (at_boundary prev s); [|discriminate].
  intros H. apply match_many_some in H as (l & r1 & -> & Hl & Hnl & H).
  destruct r1 as [|c r1]; [discriminate|].
  destruct (Ascii.eqb_spec "@" c) as [<-|]; [|discriminate].
  apply match_many_some in H as (d & r2 & -> & Hd & Hnd & H).
  destruct r2 as [|c r2]; [discriminate|].
  destruct (Ascii.eqb_spec "." c) as [<-|]; [|discriminate].
  apply match_many_some in H as (t & r3 & -> & Ht & Hnt & H).
  destruct (at_boundary _ r3); [|discriminate]. injection H as <-.
  exists (l +:+ "@" +:+ d +:+ "." +:+ t). split.
  - rewrite !append_assoc. reflexivity.
  - exists l, d, t. repeat split; auto; lia.
Qed.

Lemma findall_from_well_formed (s : string) :
  forall skip prev x,
    x ∈ findall_from email_pattern skip prev s -> well_formed x.
Proof.
  induction s as [|c s IH]; intros skip prev x; cbn [findall_from].
  - intros H. apply elem_of_nil in H. contradiction.
  - destruct skip as [|k]; [|apply IH].
    destruct (match_here email_pattern prev (String c s)) as [r|] eqn:Hm;
      [|apply IH].
    destruct (email_match_well_formed prev (String c s) r Hm)
      as (m & Heq & Hwf).
    rewrite Heq at 1. rewrite length_append.
    replace (String.length m + String.length r - String.length r)%nat
      with (String.length m) by lia.
    destruct (String.length m) as [|n] eqn:Hn; [apply IH|].
    intros H. apply elem_of_cons in H as [->|H]; [|exact (IH _ _ _ H)].
    rewrite Heq, <- Hn, take_append. exact Hwf.
Qed.

Lemma lower_append (a b : string) : lower (a +:+ b) = lower a +:+ lower b.
Proof.
  induction a as [|c a IH]; [reflexivity|].
  rewrite append_cons. cbn [lower]. rewrite IH. reflexivity.
Qed.

Lemma length_lower (a : string) : String.length (lower a) = String.length a.
Proof.
  induction a as [|c a IH]; [reflexivity|]. cbn. rewrite IH. reflexivity.
Qed.

Lemma lower_char_classes (c : ascii) :
  (local_class c = true -> local_class (lower_char c) = true)
  /\ (domain_class c = true -> domain_class (lower_char c) = true)
  /\ (is_ascii_alpha c = true -> is_ascii_alpha (lower_char c) = true)
  /\ lower_char (lower_char c) = lower_char c
  /\ is_word (lower_char c) = is_word c.
Proof.
  destruct c as [[] [] [] [] [] [] [] []]; vm_compute; auto.
Qed.

Lemma all_in_lower (cls : ascii -> bool) (a : string) :
  (forall c, cls c = true -> cls (lower_char c) = true) ->
  all_in cls a = true -> all_in cls (lower a) = true.
Proof.
  intros Hc. unfold all_in. induction a as [|c a IH]; [reflexivity|].
  cbn [lower list_ascii_of_string forallb]. rewrite !andb_true_iff.
  intros [H1 H2]. auto.
Qed.

Lemma lower_idempotent (a : string) : lower (lower a) = lower a.
Proof.
  induction a as [|c a IH]; [reflexivity|]. cbn [lower].
  rewrite IH, (proj1 (proj2 (proj2 (proj2 (lower_char_classes c))))).
  reflexivity.
Qed.

Lemma well_formed_lower (m : string) : well_formed m -> well_formed (lower m).
Proof.
  intros (l & d & t & -> & Hl & Hnl & Hd & Hnd & Ht & Hnt).
  exists (lower l), (lower d), (lower t).
  rewrite !lower_append, !length_lower. split; [reflexivity|].
  split; [apply all_in_lower; [apply lower_char_classes | exact Hl]|].
  split; [exact Hnl|].
  split; [apply all_in_lower; [apply lower_char_classes | exact Hd]|].
  split; [exact Hnd|].
  split; [apply all_in_lower; [apply lower_char_classes | exact Ht]|].
  exact Hnt.
Qed.

(** The extraction returns the first match of the pattern in the
    stripped line, in lower case: every match passes the validator. *)
Lemma extract_email_first_match (line : string) :
  extract_email_from_line line
  = if truthy (strip line)
    then match findall email_pattern (strip line) with
         | m :: _ => Some (lower m)
         | [] => None
         end
    else None.
Proof.
  unfold extract_email_from_line.
  destruct (truthy (strip line)); [|reflexivity].
  destruct (findall email_pattern (strip line)) as [|m ms] eqn:Hf;
    [reflexivity|].
  cbn [List.find].
  assert (Hwf : well_formed m).
  { apply (findall_from_well_formed (strip line) 0 None).
    unfold findall in Hf. rewrite Hf. left. }
  rewrite (proj2 (is_valid_email_iff m) (or_introl Hwf)). reflexivity.
Qed.

Lemma extract_email_well_formed (line e : string) :
  extract_email_from_line line = Some e ->
  well_formed e /\ lower e = e.
Proof.
  rewrite extract_email_first_match.
  destruct (truthy (strip line)); [|discriminate].
  destruct (findall email_pattern (strip line)) as [|m ms] eqn:Hf;
    [discriminate|].
  intros [= <-]. split; [|apply lower_idempotent].
  apply well_formed_lower.
  apply (findall_from_well_formed (strip line) 0 None).
  unfold findall in Hf. rewrite Hf. left.
Qed.

(** X15. Whatever the line, an address that [extract_email_from_line]
    returns is a well-formed address in lower case: it passes
    [is_valid_email] (so the format validation that follows in the pipeline
    has nothing to reject), and lower-casing or stripping it changes
    nothing. *)
Theorem extracted_address_is_valid (line e : string) :
  extract_email_from_line line = Some e ->
  well_formed e
  /\ is_valid_email e = true
  /\ lower e = e
  /\ strip e = e.
Proof.
  intros He. destruct (extract_email_well_formed line e He) as [Hwf Hlow].
  split; [exact Hwf|].
  split; [apply is_valid_email_iff; auto|].
  split; [exact Hlow|].
  apply (extract_email_safe line e He).
Qed.

Lemma extracted_address_is_valid_witness :
  extract_email_from_line "Jane Doe <Jane.Doe@Example.COM>, sales"
  = Some "jane.doe@example.com"
  /\ is_valid_email "jane.doe@example.com" = true.
Proof.
  split; [reflexivity|].
  exact (proj1 (proj2
           (extracted_address_is_valid
              "Jane Doe <Jane.Doe@Example.COM>, sales"
              "jane.doe@example.com" eq_refl))).
Defined.

(** ** The stages of the pipeline *)

Lemma extract_loop_spec (emails : list string) :
  forall i extracted invalid,
    fst (extract_loop i emails (extracted, invalid))
    = extracted ++ omap extract_email_from_line emails
    /\ len (fst (extract_loop i emails (extracted, invalid)))
       + len (snd (extract_loop i emails (extracted, invalid)))
       = len extracted + len invalid + len emails.
Proof.
  unfold len.
  induction emails as [|line emails IH]; intros i extracted invalid;
    cbn [extract_loop omap list_omap].
  - rewrite app_nil_r. cbn. split; [reflexivity | lia].
  - destruct (extract_email_from_line line) as [e|] eqn:He.
    + assert (Ht : truthy e = true).
      { apply extract_email_safe in He as (Ht & _). exact Ht. }
      rewrite Ht.
      destruct (IH (i + 1) (extracted ++ [e]) invalid) as [-> ->].
      rewrite <- app_assoc, length_app. cbn [length app].
      split; [reflexivity | lia].
    + destruct (IH (i + 1) extracted (invalid ++ [(i, take 50 line)]))
        as [-> ->].
      rewrite length_app. cbn [length]. split; [reflexivity | lia].
Qed.

Lemma format_loop_all_valid (unique_emails : list string) :
  forall valid invalid,
    Forall (fun e => is_valid_email e = true) unique_emails ->
    format_loop unique_emails (valid, invalid)
    = (valid ++ unique_emails, invalid).
Proof.
  induction unique_emails as [|e l IH]; intros valid invalid Hall;
    cbn [format_loop].
  - rewrite app_nil_r. reflexivity.
  - apply Forall_cons in Hall as [He Hall]. rewrite He, (IH _ _ Hall).
    rewrite <- app_assoc. reflexivity.
Qed.

Lemma omap_extract_valid (emails : list string) :
  Forall (fun e => well_formed e /\ lower e = e)
         (omap extract_email_from_line emails).
Proof.
  apply Forall_forall. intros e He.
  apply list_elem_of_omap in He as (line & _ & He).
  exact (extract_email_well_formed line e He).
Qed.

(** The pipeline up to its third stage, in closed form: the addresses
    extracted from the lines, their first occurrences, and nothing
    rejected by the format validation. *)
Lemma pipeline_stages (emails : list string) :
  exists invalid_lns seen,
    extract_loop 1 emails ([], [])
    = (omap extract_email_from_line emails, invalid_lns)
    /\ len (omap extract_email_from_line emails) + len invalid_lns
       = len emails
    /\ dedup_loop (omap extract_email_from_line emails) (∅, [], 0)
       = (seen,
          first_occurrences [] (omap extract_email_from_line emails),
          later_occurrences [] (omap extract_email_from_line emails))
    /\ format_loop
         (first_occurrences [] (omap extract_email_from_line emails))
         ([], [])
       = (first_occurrences [] (omap extract_email_from_line emails), []).
Proof.
  destruct (extract_loop_spec emails 1 [] []) as [Hex Hlen].
  destruct (extract_loop 1 emails ([], [])) as [extracted invalid_lns].
  cbn [fst snd app] in *. subst extracted.
  destruct (dedup_loop_refines (omap extract_email_from_line emails)
              [] [] ∅ 0) as (seen & Hdedup & _).
  { intros x. rewrite elem_of_empty, elem_of_nil. tauto. }
  exists invalid_lns, seen. split; [reflexivity|].
  split; [unfold len in *; cbn in Hlen; lia|].
  split; [exact Hdedup|].
  rewrite format_loop_all_valid; [reflexivity|].
  apply Forall_forall. intros e He.
  apply first_occurrences_elem in He as [He _].
  pose proof (omap_extract_valid emails) as Hall.
  rewrite Forall_forall in Hall. destruct (Hall e He) as [Hwf _].
  apply is_valid_email_iff. auto.
Qed.

(** X16. The statistics of the pipeline add up, whatever the lines and
    whatever the external validator does: every line either yields an
    address or is counted as invalid; every extracted address is either a
    duplicate or passes the format validation; and the format validation
    rejects nothing, since the extraction only returns addresses that pass
    it. *)
Theorem statistics_add_up (D : disify) (emails : list string)
    (use_disify : bool) :
  let s := snd (filter_and_validate_emails D emails use_disify) in
  total_lines s = len emails
  /\ total_lines s = extracted_emails s + invalid_lines s
  /\ extracted_emails s = duplicates_removed s + format_valid_emails s
  /\ invalid_emails s = 0.
Proof.
  unfold filter_and_validate_emails.
  destruct (pipeline_stages emails)
    as (invalid_lns & seen & -> & Hlen & -> & ->).
  destruct (if use_disify && negb (bool_decide (_ = [])) then _ else _)
    as [final_valid dstats].
  cbn. split; [reflexivity|]. split; [lia|].
  split; [|reflexivity].
  pose proof (occurrences_length (omap extract_email_from_line emails) []).
  lia.
Qed.

(** X17. Without the external validator the pipeline returns the addresses
    extracted from the lines, each at its first occurrence and in the order
    of the lines: a list without repetition of well-formed addresses in
    lower case, in which every extracted address occurs. *)
Theorem pipeline_without_validator (D : disify) (emails : list string) :
  let recipients := fst (filter_and_validate_emails D emails false) in
  recipients = first_occurrences [] (omap extract_email_from_line emails)
  /\ NoDup recipients
  /\ Forall (fun e => is_valid_email e = true /\ lower e = e) recipients
  /\ forall line e,
       line ∈ emails -> extract_email_from_line line = Some e ->
       e ∈ recipients.
Proof.
  unfold filter_and_validate_emails.
  destruct (pipeline_stages emails)
    as (invalid_lns & seen & -> & Hlen & -> & ->).
  cbn [andb fst]. split; [reflexivity|].
  split; [apply first_occurrences_NoDup|]. split.
  - apply Forall_forall. intros e He.
    apply first_occurrences_elem in He as [He _].
    pose proof (omap_extract_valid emails) as Hall.
    rewrite Forall_forall in Hall. destruct (Hall e He) as [Hwf Hlow].
    split; [apply is_valid_email_iff; auto | exact Hlow].
  - intros line e Hline He. apply first_occurrences_elem.
    split; [|apply not_elem_of_nil].
    apply list_elem_of_omap. eauto.
Qed.

(** X18. When the validation service fails for every batch, the pipeline
    with the validator switched on returns what it returns with the
    validator switched off: the same recipients and the same statistics. *)
Theorem validator_down_is_validator_off (D : disify)
    (emails : list string) :
  (forall l i, batch_fails D l i) ->
  filter_and_validate_emails D emails true
  = filter_and_validate_emails D emails false.
Proof.
  intros Hdown. unfold filter_and_validate_emails.
  destruct (pipeline_stages emails)
    as (invalid_lns & seen & -> & Hlen & -> & ->).
  set (unique := first_occurrences [] (omap extract_email_from_line emails)).
  cbn [andb].
  destruct (bool_decide (unique = [])) eqn:Hempty; cbn [negb]; [reflexivity|].
  rewrite (validate_emails_service_down D unique (Hdown unique)).
  assert (Hall : List.filter is_valid_email unique = unique).
  { apply forallb_filter_id, forallb_forall. intros e He.
    apply list_elem_of_In, first_occurrences_elem in He as [He _].
    pose proof (omap_extract_valid emails) as Hv.
    rewrite Forall_forall in Hv. destruct (Hv e He) as [Hwf _].
    apply is_valid_email_iff. auto. }
  rewrite Hall. reflexivity.
Qed.

Lemma validator_down_is_validator_off_witness :
  filter_and_validate_emails disify_down
    ["a@x.com"; "not an address"; "A@x.com"; "b@y.com"] true
  = (["a@x.com"; "b@y.com"], Stats 4 3 1 1 0 2 0 0 2).
Proof.
  rewrite (validator_down_is_validator_off disify_down
             ["a@x.com"; "not an address"; "A@x.com"; "b@y.com"]).
  - vm_compute. reflexivity.
  - intros l i. apply status_not_200 with (status := 500) (body := None);
      [reflexivity | discriminate].
Defined.

(** ** Where the extraction finds the address *)

Lemma last_char_app (prev : option ascii) (a b : string) :
  last_char prev (a +:+ b) = last_char (last_char prev a) b.
Proof.
  revert prev. induction a as [|c a IH]; intros prev; [reflexivity|].
  rewrite append_cons. cbn [last_char]. apply IH.
Qed.

(** A greedy repetition gives back, one by one, the characters after
    which the rest of the pattern finds no match. *)
Lemma match_many_fallback (cls : ascii -> bool) (min : nat)
    (k : option ascii -> string -> option string) (extra post : string) :
  forall n prev,
    all_in cls extra = true ->
    match post with String c _ => cls c = false | EmptyString => True end ->
    (forall e1 e2, extra = e1 +:+ e2 -> e1 <> EmptyString ->
                   k (last_char prev e1) (e2 +:+ post) = None) ->
    match_many cls min k n prev (extra +:+ post)
    = if (min <=? n)%nat then k prev (extra +:+ post) else None.
Proof.
  induction extra as [|c e IH]; intros n prev Hall Hpost Hfail.
  - rewrite append_nil_l. destruct post as [|c p]; cbn [match_many].
    + reflexivity.
    + rewrite Hpost. reflexivity.
  - rewrite append_cons. cbn [match_many].
    unfold all_in in Hall. cbn [list_ascii_of_string forallb] in Hall.
    apply andb_true_iff in Hall as [Hc Hall]. rewrite Hc.
    rewrite (IH (S n) (Some c) Hall Hpost).
    + pose proof (Hfail (String c EmptyString) e eq_refl
                    ltac:(discriminate)) as H0.
      cbn [last_char] in H0. rewrite H0.
      destruct (min <=? S n)%nat; reflexivity.
    + intros e1 e2 -> Hne.
      apply (Hfail (String c e1) e2 eq_refl). discriminate.
Qed.

(** A greedy repetition stops where the rest of the pattern first
    matches, counted from the longest run. *)
Lemma match_many_backoff (cls : ascii -> bool) (min : nat)
    (k : option ascii -> string -> option string)
    (taken extra post r : string) :
  forall n prev,
    all_in cls taken = true -> all_in cls extra = true ->
    match post with String c _ => cls c = false | EmptyString => True end ->
    (forall e1 e2, extra = e1 +:+ e2 -> e1 <> EmptyString ->
                   k (last_char prev (taken +:+ e1)) (e2 +:+ post) = None) ->
    (min <= n + String.length taken)%nat ->
    k (last_char prev taken) (extra +:+ post) = Some r ->
    match_many cls min k n prev (taken +:+ extra +:+ post) = Some r.
Proof.
  induction taken as [|c t IH]; intros n prev Ht He Hpost Hfail Hmin Hk.
  - rewrite append_nil_l.
    rewrite (match_many_fallback cls min k extra post n prev He Hpost).
    + cbn in Hmin, Hk. destruct (Nat.leb_spec min n); [exact Hk | lia].
    + intros e1 e2 Heq Hne. apply (Hfail e1 e2 Heq Hne).
  - rewrite append_cons. cbn [match_many].
    unfold all_in in Ht. cbn [list_ascii_of_string forallb] in Ht.
    apply andb_true_iff in Ht as [Hc Ht]. rewrite Hc.
    rewrite (IH (S n) (Some c) Ht He Hpost); [reflexivity| |
      cbn [String.length] in Hmin; lia | exact Hk].
    intros e1 e2 Heq Hne. apply (Hfail e1 e2 Heq Hne).
Qed.

Lemma separator_spec (c : ascii) :
  separator c = true ->
  is_word c = false /\ local_class c = false /\ domain_class c = false
  /\ is_ascii_alpha c = false /\ Ascii.eqb "." c = false.
Proof.
  destruct c as [[] [] [] [] [] [] [] []]; vm_compute; auto; discriminate.
Qed.

Lemma alpha_spec (c : ascii) :
  is_ascii_alpha c = true ->
  is_word c = true /\ domain_class c = true /\ Ascii.eqb "." c = false.
Proof.
  destruct c as [[] [] [] [] [] [] [] []]; vm_compute; auto; discriminate.
Qed.

Lemma last_char_word (t : string) (prev : option ascii) :
  all_in is_ascii_alpha t = true -> (1 <= String.length t)%nat ->
  word_before (last_char prev t) = true.
Proof.
  revert prev. induction t as [|c t IH]; intros prev Hall Hlen;
    [cbn in Hlen; lia|].
  unfold all_in in Hall. cbn [list_ascii_of_string forallb] in Hall.
  apply andb_true_iff in Hall as [Hc Hall]. cbn [last_char].
  destruct t as [|c' t].
  - cbn. apply alpha_spec, Hc.
  - apply IH; [exact Hall | cbn; lia].
Qed.

Lemma leads_out_spec (post : string) (cls : ascii -> bool) :
  leads_out post ->
  (forall c, separator c = true -> cls c = false) ->
  match post with String c _ => cls c = false | EmptyString => True end.
Proof. destruct post; cbn; auto. Qed.

Lemma match_here_boundary (pat : pattern) (prev : option ascii) (s : string) :
  match_here (WordBoundary :: pat) prev s
  = if at_boundary prev s then match_here pat prev s else None.
Proof. reflexivity. Qed.

Lemma match_here_char (c : ascii) (pat : pattern) (prev : option ascii)
    (s : string) :
  match_here (Char c :: pat) prev s
  = match s with
    | String c' s' => if Ascii.eqb c c' then match_here pat (Some c') s'
                      else None
    | EmptyString => None
    end.
Proof. reflexivity. Qed.

(** At a position that a separator (or the start of the line) precedes,
    the pattern matches a well-formed address that begins with a word
    character and is followed by a separator (or the end of the line),
    and matches it whole. *)
Lemma email_match_exact (prev : option ascii) (addr post : string) :
  well_formed addr -> word_after addr = true ->
  word_before prev = false -> leads_out post ->
  match_here email_pattern prev (addr +:+ post) = Some post.
Proof.
  intros (l & d & t & -> & Hl & Hnl & Hd & Hnd & Ht & Hnt) Hfirst Hprev Hout.
  unfold email_pattern. rewrite match_here_boundary.
  assert (Hb : at_boundary prev
                 ((l +:+ "@" +:+ d +:+ "." +:+ t) +:+ post) = true).
  { unfold at_boundary. rewrite Hprev.
    destruct l as [|c l]; [cbn in Hnl; lia|]. exact Hfirst. }
  rewrite Hb, match_here_many, !append_assoc.
  (* the local part *)
  rewrite <- (append_nil_l ("@" +:+ d +:+ "." +:+ t +:+ post)).
  apply match_many_backoff;
    [exact Hl | reflexivity | reflexivity | | lia |].
  { intros [|c e1] e2 Heq Hne; [contradiction | discriminate]. }
  rewrite append_nil_l.
  change ("@" +:+ d +:+ "." +:+ t +:+ post)
    with (String "@" (d +:+ "." +:+ t +:+ post)).
  rewrite match_here_char. cbn [Ascii.eqb Bool.eqb andb].
  rewrite match_here_many.
  (* the domain *)
  rewrite <- (append_assoc "." t post).
  apply match_many_backoff; [exact Hd | | | | lia |].
  - rewrite all_in_app. cbn.
    apply (all_in_impl is_ascii_alpha); [|exact Ht].
    intros c Hc. apply alpha_spec, Hc.
  - apply leads_out_spec; [exact Hout|].
    intros c Hc. apply separator_spec, Hc.
  - intros [|c e1] e2 Heq Hne; [contradiction|].
    rewrite !append_cons, append_nil_l in Heq.
    injection Heq as <- ->. rewrite match_here_char.
    destruct e2 as [|c2 e2].
    + rewrite append_nil_l. destruct post as [|c p]; [reflexivity|].
      cbn in Hout. destruct (separator_spec c Hout) as (_ & _ & _ & _ & ->).
      reflexivity.
    + rewrite append_cons. rewrite all_in_app in Ht.
      apply andb_true_iff in Ht as [_ Ht].
      unfold all_in in Ht. cbn [list_ascii_of_string forallb] in Ht.
      apply andb_true_iff in Ht as [Hc2 _].
      destruct (alpha_spec c2 Hc2) as (_ & _ & ->). reflexivity.
  - rewrite append_assoc.
    change ("." +:+ t +:+ post) with (String "." (t +:+ post)).
    rewrite match_here_char. cbn [Ascii.eqb Bool.eqb andb].
    rewrite match_here_many.
    (* the top-level domain *)
    rewrite <- (append_nil_l post) at 1.
    apply match_many_backoff; [exact Ht | reflexivity | | | lia |].
    + apply leads_out_spec; [exact Hout|].
      intros c Hc. apply separator_spec, Hc.
    + intros [|c e1] e2 Heq Hne; [contradiction | discriminate].
    + rewrite append_nil_l, match_here_boundary. unfold at_boundary.
      rewrite (last_char_word t _ Ht) by lia.
      assert (Hw : word_after post = false).
      { destruct post as [|c p]; [reflexivity|]. cbn in *.
        apply separator_spec, Hout. }
      rewrite Hw. reflexivity.
Qed.

(** Before the address the pattern finds no match: a run of local-part
    characters in the text that leads in is never followed by [@]. *)
Lemma no_match_in_lead (pre rest : string) (prev : option ascii) :
  pre <> EmptyString -> leads_in pre ->
  match_here email_pattern prev (pre +:+ rest) = None.
Proof.
  intros Hne [Hat Hlast].
  destruct (match_here email_pattern prev (pre +:+ rest)) as [r|] eqn:Hm;
    [|reflexivity].
  exfalso. revert Hm. unfold email_pattern. rewrite match_here_boundary.
  destruct (at_boundary prev (pre +:+ rest)); [|discriminate].
  rewrite match_here_many. intros Hm.
  apply match_many_some in Hm as (taken & rest' & Heq & Htaken & _ & Hk).
  rewrite match_here_char in Hk.
  destruct rest' as [|c rest']; [discriminate|].
  destruct (Ascii.eqb_spec "@" c) as [<-|]; [|discriminate]. clear Hk.
  revert taken Heq Htaken Hat Hlast Hne. generalize (@None ascii) as p.
  induction pre as [|c pre IH]; intros p taken Heq Htaken Hat Hlast Hne;
    [contradiction|].
  unfold all_in in Hat. cbn [list_ascii_of_string forallb] in Hat.
  apply andb_true_iff in Hat as [Hc Hat].
  rewrite append_cons in Heq. destruct taken as [|c' taken].
  - rewrite append_nil_l in Heq. injection Heq as -> _.
    discriminate.
  - rewrite append_cons in Heq. injection Heq as <- Heq.
    unfold all_in in Htaken. cbn [list_ascii_of_string forallb] in Htaken.
    apply andb_true_iff in Htaken as [Hcls Htaken].
    cbn [last_char] in Hlast. destruct pre as [|c2 pre].
    + cbn [last_char] in Hlast.
      destruct (separator_spec c Hlast) as (_ & Hl & _). congruence.
    + apply (IH (Some c) taken Heq Htaken Hat Hlast). discriminate.
Qed.

Lemma findall_from_after_lead (pre s : string) :
  forall prev,
    leads_in pre ->
    findall_from email_pattern 0 prev (pre +:+ s)
    = findall_from email_pattern 0 (last_char prev pre) s.
Proof.
  induction pre as [|c pre IH]; intros prev Hlead; [reflexivity|].
  rewrite append_cons. cbn [findall_from last_char].
  rewrite <- append_cons.
  rewrite (no_match_in_lead (String c pre) s prev ltac:(discriminate) Hlead).
  apply IH. destruct Hlead as [Hat Hlast]. split.
  - unfold all_in in *. cbn [list_ascii_of_string forallb] in Hat.
    apply andb_true_iff in Hat as [_ Hat]. exact Hat.
  - cbn [last_char] in Hlast. destruct pre as [|c2 pre]; [exact I|].
    exact Hlast.
Qed.

Lemma well_formed_nonempty (addr : string) :
  well_formed addr -> exists c rest, addr = String c rest.
Proof.
  intros (l & d & t & -> & _ & Hnl & _).
  destruct l as [|c l]; [cbn in Hnl; lia|].
  rewrite append_cons. eauto.
Qed.

(** The first match in a line whose address is set off from the text
    around it. *)
Lemma extract_email_around (line pre addr post : string) :
  strip line = pre +:+ addr +:+ post ->
  leads_in pre -> well_formed addr -> word_after addr = true ->
  leads_out post ->
  extract_email_from_line line = Some (lower addr).
Proof.
  intros Hline Hin Hwf Hfirst Hout.
  rewrite extract_email_first_match, Hline.
  destruct (well_formed_nonempty addr Hwf) as (c & rest & ->).
  assert (Ht : truthy (pre +:+ String c rest +:+ post) = true).
  { destruct pre; reflexivity. }
  rewrite Ht. unfold findall. rewrite (findall_from_after_lead pre _ None Hin).
  assert (Hprev : word_before (last_char None pre) = false).
  { destruct Hin as [_ Hlast]. destruct (last_char None pre) as [p|];
      [|reflexivity]. cbn. apply separator_spec, Hlast. }
  pose proof (email_match_exact (last_char None pre) (String c rest) post
                Hwf Hfirst Hprev Hout) as Hm.
  pose proof (take_append (String c rest) post) as Htake.
  pose proof (length_append (String c rest) post) as Hlen.
  rewrite append_cons in *.
  cbn [findall_from]. rewrite Hm, Hlen.
  replace (String.length (String c rest) + String.length post
           - String.length post)%nat
    with (String.length (String c rest)) by lia.
  cbn [String.length] in *. rewrite Htake. reflexivity.
Qed.

(** X19. The extraction finds an address in the text around it.  When the
    stripped line is a well-formed address that begins with a letter, a
    digit or an underscore, with text before it that holds no [@] and ends
    with a separator (or with nothing before it), and text after it that
    begins with a separator (or with nothing after it), the extraction
    returns that address in lower case.  A separator is any character that
    is neither a word character nor one of [._%+-]: a blank, a comma, an
    angle bracket, a quote and so on. *)
Theorem extraction_finds_address (line pre addr post : string) :
  strip line = pre +:+ addr +:+ post ->
  leads_in pre -> well_formed addr -> word_after addr = true ->
  leads_out post ->
  extract_email_from_line line = Some (lower addr).
Proof.
  exact (extract_email_around line pre addr post).
Qed.

Lemma extraction_finds_address_witness :
  extract_email_from_line
    ("  Jane Doe <Jane.Doe@Example.COM>, sales" +:+ String LF EmptyString)
  = Some "jane.doe@example.com".
Proof.
  apply (extraction_finds_address _ "Jane Doe <" "Jane.Doe@Example.COM"
           ">, sales").
  - reflexivity.
  - split; reflexivity.
  - exists "Jane.Doe", "Example", "COM". repeat split; cbn; lia.
  - reflexivity.
  - reflexivity.
Defined.

(* ===================================================================== *)
(** * Loading the recipients                                              *)
(* ===================================================================== *)

(** ** [strip] and the end of a line *)

Lemma lstrip_by_app (sp : ascii -> bool) (b x : string) :
  lstrip_by sp (b +:+ x)
  = match lstrip_by sp b with
    | EmptyString => lstrip_by sp x
    | String c r => String c r +:+ x
    end.
Proof.
  induction b as [|c b IH]; [reflexivity|].
  rewrite append_cons. cbn [lstrip_by].
  destruct (sp c); [exact IH | reflexivity].
Qed.

Lemma rstrip_by_snoc (sp : ascii -> bool) (b : string) (c : ascii) :
  sp c = true ->
  rstrip_by sp (b +:+ String c EmptyString) = rstrip_by sp b.
Proof.
  intros Hc. induction b as [|x b IH].
  - rewrite append_nil_l. cbn [rstrip_by]. rewrite Hc. reflexivity.
  - rewrite append_cons. cbn [rstrip_by]. rewrite IH. reflexivity.
Qed.

Lemma strip_line_feed (b : string) :
  strip (b +:+ String LF EmptyString) = strip b.
Proof.
  unfold strip. rewrite lstrip_by_app.
  destruct (lstrip_by isspace b) as [|c r]; [reflexivity|].
  apply rstrip_by_snoc. reflexivity.
Qed.

Lemma extract_email_strip (a b : string) :
  strip a = strip b ->
  extract_email_from_line a = extract_email_from_line b.
Proof. unfold extract_email_from_line. intros ->. reflexivity. Qed.

(** A line as the file yields it is the line without its end, or that
    line followed by a line feed. *)
Lemma raw_lines_file_lines (s : string) :
  Forall2 (fun a b => a = b \/ a = b +:+ String LF EmptyString)
          (raw_lines s) (file_lines s).
Proof.
  assert (H : forall n s, (String.length s <= n)%nat ->
                Forall2 (fun a b => a = b \/ a = b +:+ String LF EmptyString)
                        (raw_lines s) (file_lines s)).
  { clear s. induction n as [|n IH]; intros [|c s] Hlen;
      try (constructor; fail); cbn [String.length] in Hlen; [lia|].
    assert (Hs : (String.length s <= n)%nat) by lia.
    cbn [raw_lines file_lines].
    destruct (Ascii.eqb c LF).
    - constructor; [right; reflexivity | apply IH, Hs].
    - destruct (Ascii.eqb c CR).
      + destruct s as [|c' s].
        * constructor; [right; reflexivity | constructor].
        * destruct (Ascii.eqb c' LF).
          -- constructor; [right; reflexivity|]. apply IH.
             cbn [String.length] in Hs. lia.
          -- constructor; [right; reflexivity | apply IH, Hs].
      + specialize (IH s Hs).
        destruct IH as [|a b ra rb Hab IH]; constructor; auto.
        destruct Hab as [->| ->]; [left | right]; reflexivity. }
  apply (H (String.length s)). lia.
Qed.

Lemma omap_extract_raw_lines (s : string) :
  omap extract_email_from_line (raw_lines s)
  = omap extract_email_from_line (file_lines s)
  /\ length (raw_lines s) = length (file_lines s).
Proof.
  induction (raw_lines_file_lines s) as [|a b ra rb Hab _ [IH1 IH2]];
    [split; reflexivity|].
  cbn [omap list_omap length]. rewrite IH2. split; [|reflexivity].
  assert (He : extract_email_from_line a = extract_email_from_line b).
  { apply extract_email_strip. destruct Hab as [->| ->];
      [reflexivity | apply strip_line_feed]. }
  rewrite He. fold (omap extract_email_from_line ra).
  fold (omap extract_email_from_line rb). rewrite IH1. reflexivity.
Qed.

(** ** The pipeline in closed form *)

Lemma pipeline_closed_form (D : disify) (emails : list string)
    (use_disify : bool) :
  filter_and_validate_emails D emails use_disify
  = let extracted := omap extract_email_from_line emails in
    let unique := first_occurrences [] extracted in
    let '(final_valid, dstats) :=
      if use_disify && negb (bool_decide (unique = []))
      then validate_emails_with_disify D unique
      else (unique,
            DisifyStats (len unique) 0 0 0 (len unique) (len unique)) in
    (final_valid,
     Stats (len emails) (len extracted) (later_occurrences [] extracted)
           (len emails - len extracted) 0 (len unique)
           (d_disposable dstats) (d_invalid_dns dstats) (len final_valid)).
Proof.
  unfold filter_and_validate_emails.
  destruct (pipeline_stages emails)
    as (invalid_lns & seen & -> & Hlen & -> & ->).
  cbn zeta.
  destruct (if use_disify && negb (bool_decide (_ = [])) then _ else _)
    as [final_valid dstats].
  cbn [length]. do 2 f_equal. lia.
Qed.

Lemma pipeline_depends_on_lines (D : disify) (e1 e2 : list string)
    (use_disify : bool) :
  omap extract_email_from_line e1 = omap extract_email_from_line e2 ->
  length e1 = length e2 ->
  filter_and_validate_emails D e1 use_disify
  = filter_and_validate_emails D e2 use_disify.
Proof.
  intros Hex Hlen. rewrite !pipeline_closed_form. unfold len.
  rewrite Hex, Hlen. reflexivity.
Qed.

(** ** A batch that fails, through the validator and the pipeline *)

(** C4. When the exchange for a batch fails (the request raises or is
    answered with a status other than 200), the turn of the loop for that
    batch adds exactly the members of the batch that pass
    [is_valid_email] to the accumulated list and leaves every counter,
    [disposable] and [invalid_dns] among them, as it was; the loop then
    goes on with the batches that remain, and the list it ends with
    holds those members after what was accumulated before.  So it is for
    the validator as a whole: when the batch is one of the batches of the
    list, what [validate_emails_with_disify] returns is what the batches
    after it make of the list of the batches before it with those members
    added, counters unchanged.  And so it is for the pipeline: its
    recipients and its counts of disposable and unresolvable addresses are
    those of the validator, and every address of the failed batch is
    among the recipients, since an address that was extracted passes the
    format validation. *)
Theorem batch_fallback (D : disify) (email_list : list string) (i : nat)
    (starts : list nat) (all_valid_emails : list string)
    (total_stats : disify_stats) :
  batch_fails D email_list i ->
  let st' :=
    (all_valid_emails ++ List.filter is_valid_email (batch_at email_list i),
     total_stats) in
  disify_batch D email_list i (all_valid_emails, total_stats) = st'
  /\ d_disposable (snd st') = d_disposable total_stats
  /\ d_invalid_dns (snd st') = d_invalid_dns total_stats
  /\ disify_loop D email_list (i :: starts) (all_valid_emails, total_stats)
     = disify_loop D email_list starts st'
  /\ (exists later,
        fst (disify_loop D email_list (i :: starts)
               (all_valid_emails, total_stats))
        = all_valid_emails
          ++ List.filter is_valid_email (batch_at email_list i) ++ later)
  /\ forall before after,
       batch_starts (length email_list) = before ++ i :: after ->
       let earlier :=
         disify_loop D email_list before
           ([], DisifyStats 0 0 0 0 (len email_list) 0) in
       let final :=
         disify_loop D email_list after
           (fst earlier
            ++ List.filter is_valid_email (batch_at email_list i),
            snd earlier) in
       validate_emails_with_disify D email_list
       = (fst final, with_valid (snd final) (len (fst final)))
       /\ (exists later,
             fst final
             = fst earlier
               ++ List.filter is_valid_email (batch_at email_list i)
               ++ later)
       /\ forall emails,
            first_occurrences [] (omap extract_email_from_line emails)
            = email_list ->
            let pipeline := filter_and_validate_emails D emails true in
            fst pipeline = fst final
            /\ disposable_emails (snd pipeline) = d_disposable (snd final)
            /\ invalid_dns (snd pipeline) = d_invalid_dns (snd final)
            /\ forall x, x ∈ batch_at email_list i -> x ∈ fst pipeline.
Proof.
  intros Hfail st'. subst st'.
  split; [apply disify_batch_fails; assumption|].
  split; [reflexivity|]. split; [reflexivity|].
  split; [cbn [disify_loop]; rewrite disify_batch_fails by assumption;
          reflexivity|].
  split.
  { cbn [disify_loop]. rewrite disify_batch_fails by assumption.
    destruct (disify_loop_extends D email_list starts
                (all_valid_emails
                 ++ List.filter is_valid_email (batch_at email_list i),
                 total_stats)) as [later ->].
    exists later. cbn [fst]. rewrite app_assoc. reflexivity. }
  intros before after Hstarts. cbn zeta.
  assert (Hne : email_list <> []).
  { intros ->. cbn in Hstarts. destruct before; discriminate. }
  destruct (disify_loop D email_list before
              ([], DisifyStats 0 0 0 0 (len email_list) 0))
    as [acc ts] eqn:Hearlier.
  cbn [fst snd].
  destruct (disify_loop_extends D email_list after
              (acc ++ List.filter is_valid_email (batch_at email_list i),
               ts)) as [later Hlater].
  destruct (disify_loop D email_list after
              (acc ++ List.filter is_valid_email (batch_at email_list i),
               ts)) as [out ts'] eqn:Hfinal.
  cbn [fst snd] in *. rewrite <- app_assoc in Hlater.
  assert (Hval : validate_emails_with_disify D email_list
                 = (out, with_valid ts' (len out))).
  { unfold validate_emails_with_disify.
    destruct email_list as [|e l] eqn:Hl; [contradiction|].
    rewrite <- Hl in *. rewrite Hstarts, disify_loop_app, Hearlier.
    cbn [disify_loop].
    rewrite disify_batch_fails by assumption.
    rewrite Hfinal. reflexivity. }
  split; [exact Hval|]. split; [eauto|].
  intros emails Hunique.
  assert (Hpipe : filter_and_validate_emails D emails true
                  = (out,
                     Stats (len emails)
                       (len (omap extract_email_from_line emails))
                       (later_occurrences []
                          (omap extract_email_from_line emails))
                       (len emails
                        - len (omap extract_email_from_line emails))
                       0 (len email_list)
                       (d_disposable ts') (d_invalid_dns ts') (len out))).
  { rewrite pipeline_closed_form. cbn zeta.
    rewrite Hunique, Hval.
    rewrite (bool_decide_eq_false_2 _ Hne). reflexivity. }
  rewrite Hpipe. cbn [fst snd disposable_emails invalid_dns].
  split; [reflexivity|]. split; [reflexivity|]. split; [reflexivity|].
  intros x Hx. rewrite Hlater.
  apply elem_of_app. right. apply elem_of_app. left.
  apply list_elem_of_In, List.filter_In. split.
  { apply list_elem_of_In. exact Hx. }
  assert (Hin : x ∈ email_list).
  { unfold batch_at in Hx. apply subseteq_take, subseteq_drop in Hx.
    exact Hx. }
  rewrite <- Hunique in Hin.
  apply first_occurrences_elem in Hin as [Hin _].
  pose proof (omap_extract_valid emails) as Hall.
  rewrite Forall_forall in Hall. destruct (Hall x Hin) as [Hwf _].
  apply is_valid_email_iff. auto.
Qed.

Lemma batch_fallback_witness :
  batch_fails disify_down ["a@x.com"; "b@y.com"] 0
  /\ validate_emails_with_disify disify_down ["a@x.com"; "b@y.com"]
     = (["a@x.com"; "b@y.com"], DisifyStats 0 0 0 0 2 2)
  /\ filter_and_validate_emails disify_down
       ["A@x.com"; "not an address"; "Jane <b@y.com>"; "a@x.com"] true
     = (["a@x.com"; "b@y.com"], Stats 4 3 1 1 0 2 0 0 2).
Proof.
  assert (Hf : batch_fails disify_down ["a@x.com"; "b@y.com"] 0).
  { apply status_not_200 with (status := 500) (body := None);
      [reflexivity | discriminate]. }
  split; [exact Hf|].
  destruct (batch_fallback disify_down ["a@x.com"; "b@y.com"] 0 [] []
              (DisifyStats 0 0 0 0 2 0) Hf)
    as (_ & _ & _ & _ & _ & Hfun).
  destruct (Hfun [] [] eq_refl) as (Hval & _ & Hpipe).
  split; [rewrite Hval; reflexivity|].
  vm_compute. reflexivity.
Defined.

(** X20. The loader raises "Recipients file not found: " and the path
    when there is no file, and the error of reading when the file is there
    but cannot be opened or decoded.  For a file that reads as text it runs
    the pipeline over the lines of the file; how the lines are ended plays
    no role: two files with the same lines (ended by LF, CR LF or CR, the
    last one ended or not) give the same recipients and the same
    statistics. *)
Theorem loader_ignores_line_ends (D : disify) (file_path : string)
    (content1 content2 : string) (use_disify : bool) :
  file_lines content1 = file_lines content2 ->
  load_recipients_from_file D file_path (TextFile content1) use_disify
  = load_recipients_from_file D file_path (TextFile content2) use_disify
  /\ load_recipients_from_file D file_path (TextFile content1) use_disify
     = Ret (filter_and_validate_emails D (file_lines content1) use_disify)
  /\ load_recipients_from_file D file_path NoFile use_disify
     = Raise (Exception ("Recipients file not found: " +:+ file_path))
  /\ forall msg,
       load_recipients_from_file D file_path (BadFile msg) use_disify
       = Raise (Exception msg).
Proof.
  intros Hlines. unfold load_recipients_from_file.
  destruct (omap_extract_raw_lines content1) as [H1 L1].
  destruct (omap_extract_raw_lines content2) as [H2 L2].
  split; [|split; [|split; reflexivity]]; f_equal;
    apply pipeline_depends_on_lines; congruence.
Qed.

Lemma loader_ignores_line_ends_witness :
  load_recipients_from_file disify_down "recipients.txt"
    (TextFile
       ("A@x.com" +:+ String CR (String LF EmptyString) +:+ "b@y.com"))
    false
  = load_recipients_from_file disify_down "recipients.txt"
      (TextFile ("A@x.com" +:+ String LF EmptyString
                 +:+ "b@y.com" +:+ String LF EmptyString))
      false
  /\ load_recipients_from_file disify_down "recipients.txt"
       (TextFile ("A@x.com" +:+ String LF EmptyString
                  +:+ "b@y.com" +:+ String LF EmptyString))
       false
     = Ret (["a@x.com"; "b@y.com"], Stats 2 2 0 0 0 2 0 0 2).
Proof.
  split.
  - apply (loader_ignores_line_ends disify_down "recipients.txt"
             ("A@x.com" +:+ String CR (String LF EmptyString) +:+ "b@y.com")
             ("A@x.com" +:+ String LF EmptyString
              +:+ "b@y.com" +:+ String LF EmptyString) false).
    reflexivity.
  - vm_compute. reflexivity.
Defined.

(** ** Plain addresses pass unchanged *)

Lemma address_char_plain (c : ascii) :
  address_char c = true ->
  isspace c = false /\ Ascii.eqb c LF = false /\ Ascii.eqb c CR = false.
Proof.
  destruct c as [[] [] [] [] [] [] [] []]; vm_compute; auto; discriminate.
Qed.

Lemma well_formed_chars (e : string) :
  well_formed e -> all_in address_char e = true.
Proof.
  intros (l & d & t & -> & Hl & _ & Hd & _ & Ht & _).
  rewrite !all_in_app.
  rewrite (all_in_impl _ _ l (fun c => proj2 (proj2 (class_chars c))) Hl).
  rewrite (all_in_impl _ _ d (fun c => proj1 (class_chars c)) Hd).
  rewrite (all_in_impl _ _ t (fun c => proj1 (proj2 (class_chars c))) Ht).
  reflexivity.
Qed.

Lemma well_formed_safe (e : string) : well_formed e -> ledger_safe e.
Proof.
  intros Hwf. pose proof (well_formed_chars e Hwf) as Hall.
  destruct (well_formed_nonempty e Hwf) as (c & rest & Heq).
  split; [rewrite Heq; reflexivity|]. split.
  - apply strip_no_space. apply (all_in_impl address_char); [|exact Hall].
    intros x Hx. destruct (address_char_plain x Hx) as (-> & _).
    reflexivity.
  - unfold no_line_break. unfold all_in in Hall.
    rewrite forallb_forall in *. intros x Hx.
    destruct (address_char_plain x (Hall x Hx)) as (_ & -> & ->).
    reflexivity.
Qed.

Lemma extract_plain_address (e : string) :
  plain_address e -> extract_email_from_line e = Some e.
Proof.
  intros (Hwf & Hlow & Hfirst).
  rewrite <- Hlow at 2.
  apply (extract_email_around e EmptyString e EmptyString);
    auto; try (split; reflexivity).
  rewrite append_nil_l, append_nil_r.
  apply (well_formed_safe e Hwf).
Qed.

Lemma omap_extract_plain (l : list string) :
  Forall plain_address l -> omap extract_email_from_line l = l.
Proof.
  induction 1 as [|e l He _ IH]; [reflexivity|].
  cbn [omap list_omap]. rewrite (extract_plain_address e He).
  fold (omap extract_email_from_line l). rewrite IH. reflexivity.
Qed.

Lemma first_occurrences_NoDup_id (l before : list string) :
  NoDup l -> (forall x, x ∈ l -> x ∉ before) ->
  first_occurrences before l = l /\ later_occurrences before l = 0.
Proof.
  intros Hnd. revert before. induction Hnd as [|a l Ha Hnd IH];
    intros before Hdis; [split; reflexivity|].
  cbn [first_occurrences later_occurrences].
  destruct (decide (a ∈ before)) as [Hb|Hb].
  - exfalso. apply (Hdis a); [left | exact Hb].
  - destruct (IH (before ++ [a])) as [-> ->]; [|split; reflexivity].
    intros x Hx. rewrite elem_of_app, list_elem_of_singleton.
    intros [Hin| ->]; [|contradiction].
    apply (Hdis x); [right; exact Hx | exact Hin].
Qed.

Lemma file_lines_ledger_lines (l : list string) :
  Forall (fun e => no_line_break e = true) l ->
  file_lines (ledger_lines l) = l.
Proof.
  induction 1 as [|e l He _ IH]; [reflexivity|].
  cbn [ledger_lines fold_right]. fold (ledger_lines l).
  rewrite <- append_assoc, file_lines_app.
  - rewrite (file_lines_one e He), IH. reflexivity.
  - pose proof (ends_with_lf_app EmptyString e) as H.
    rewrite append_nil_l in H. exact H.
Qed.

Lemma plain_list_passes (D : disify) (l : list string) :
  NoDup l -> Forall plain_address l ->
  filter_and_validate_emails D l false
  = (l, Stats (len l) (len l) 0 0 0 (len l) 0 0 (len l)).
Proof.
  intros Hnd Hplain.
  rewrite pipeline_closed_form. cbn zeta.
  rewrite (omap_extract_plain l Hplain).
  destruct (first_occurrences_NoDup_id l [] Hnd) as [-> ->].
  { intros x _. apply not_elem_of_nil. }
  cbn. do 2 f_equal. lia.
Qed.

Lemma plain_file_passes (D : disify) (file_path : string)
    (l : list string) :
  NoDup l -> Forall plain_address l ->
  load_recipients_from_file D file_path (TextFile (ledger_lines l)) false
  = Ret (l, Stats (len l) (len l) 0 0 0 (len l) 0 0 (len l)).
Proof.
  intros Hnd Hplain.
  unfold load_recipients_from_file. f_equal.
  rewrite <- (plain_list_passes D l Hnd Hplain).
  destruct (omap_extract_raw_lines (ledger_lines l)) as [Hex Hlen].
  assert (Hlines : file_lines (ledger_lines l) = l).
  { apply file_lines_ledger_lines. eapply Forall_impl; [exact Hplain|].
    intros e (Hwf & _). apply (well_formed_safe e Hwf). }
  apply pipeline_depends_on_lines; rewrite ?Hex, ?Hlen, Hlines; reflexivity.
Qed.

(** X21. A list of plain addresses without repetition passes the pipeline
    unchanged, as a list of lines and as a file with one address per line
    (the file that the campaign writes as its ledger has this form): the
    recipients are the list itself, and the statistics count every line as
    extracted and valid, and nothing as duplicate or invalid.  An address is
    plain when it is well formed, in lower case, and begins with a letter, a
    digit or an underscore. *)
Theorem plain_addresses_pass_unchanged (D : disify) (file_path : string)
    (l : list string) :
  NoDup l -> Forall plain_address l ->
  filter_and_validate_emails D l false
  = (l, Stats (len l) (len l) 0 0 0 (len l) 0 0 (len l))
  /\ load_recipients_from_file D file_path (TextFile (ledger_lines l)) false
     = Ret (l, Stats (len l) (len l) 0 0 0 (len l) 0 0 (len l)).
Proof.
  intros Hnd Hplain.
  split; [apply plain_list_passes | apply plain_file_passes]; assumption.
Qed.

Lemma plain_addresses_pass_unchanged_witness :
  load_recipients_from_file disify_down "recipients.txt"
    (TextFile ("a@x.com" +:+ String LF EmptyString
           +:+ "b_1@y.org" +:+ String LF EmptyString))
    false
  = Ret (["a@x.com"; "b_1@y.org"], Stats 2 2 0 0 0 2 0 0 2).
Proof.
  apply (plain_addresses_pass_unchanged disify_down "recipients.txt"
           ["a@x.com"; "b_1@y.org"]).
  - apply NoDup_cons. split; [|apply NoDup_singleton].
    rewrite list_elem_of_singleton. discriminate.
  - repeat constructor.
    + exists "a", "x", "com". repeat split; cbn; lia.
    + exists "b_1", "y", "org". repeat split; cbn; lia.
Defined.

(* ===================================================================== *)
(** * Further properties of the external validation                       *)
(* ===================================================================== *)

(** ** [strip] is idempotent *)

Lemma rstrip_by_idempotent (sp : ascii -> bool) (s : string) :
  rstrip_by sp (rstrip_by sp s) = rstrip_by sp s.
Proof.
  induction s as [|c s IH]; [reflexivity|]. cbn [rstrip_by].
  destruct (rstrip_by sp s) as [|c' r] eqn:Hr.
  - destruct (sp c) eqn:Hc; [reflexivity|]. cbn. rewrite Hc. reflexivity.
  - cbn [rstrip_by]. cbn [rstrip_by] in IH. rewrite IH. reflexivity.
Qed.

Lemma lstrip_by_head (sp : ascii -> bool) (s : string) :
  match lstrip_by sp s with
  | String c _ => sp c = false
  | EmptyString => True
  end.
Proof.
  induction s as [|c s IH]; [exact I|]. cbn [lstrip_by].
  destruct (sp c) eqn:Hc; [exact IH | exact Hc].
Qed.

Lemma rstrip_by_head (sp : ascii -> bool) (s : string) :
  match s with String c _ => sp c = false | EmptyString => True end ->
  match rstrip_by sp s with
  | String c _ => sp c = false
  | EmptyString => True
  end.
Proof.
  destruct s as [|c s]; [auto|]. cbn [rstrip_by]. intros Hc.
  destruct (rstrip_by sp s); [rewrite Hc|]; exact Hc.
Qed.

Lemma strip_idempotent (s : string) : strip (strip s) = strip s.
Proof.
  unfold strip.
  pose proof (rstrip_by_head isspace _ (lstrip_by_head isspace s)) as Hh.
  destruct (rstrip_by isspace (lstrip_by isspace s)) as [|c r] eqn:Hr;
    [reflexivity|].
  cbn [lstrip_by]. rewrite Hh, <- Hr. apply rstrip_by_idempotent.
Qed.

Lemma view_lines_trimmed (text : string) : Forall trimmed (view_lines text).
Proof.
  unfold view_lines. apply Forall_forall. intros e He.
  apply list_elem_of_In, in_map_iff in He as (x & <- & Hx).
  apply List.filter_In in Hx as [_ Hx].
  split; [exact Hx | apply strip_idempotent].
Qed.

Lemma disify_batch_trimmed (D : disify) (email_list : list string)
    (i : nat) (acc : list string) (ts : disify_stats) :
  Forall trimmed email_list -> Forall trimmed acc ->
  Forall trimmed (fst (disify_batch D email_list i (acc, ts))).
Proof.
  intros Hin Hacc.
  assert (Hfall : forall valid,
             Forall trimmed valid ->
             Forall trimmed (fallback (batch_at email_list i) valid)).
  { intros valid Hvalid. unfold fallback.
    apply Forall_app. split; [exact Hvalid|].
    apply Forall_forall. intros e He.
    apply list_elem_of_In, List.filter_In in He as [He _].
    unfold batch_at in He. apply list_elem_of_In in He.
    apply subseteq_take, subseteq_drop in He.
    rewrite Forall_forall in Hin. auto. }
  assert (Hcounted : forall (result : mass_result) valid,
             Forall trimmed valid ->
             Forall trimmed
               (fst (let '(ts', raised) := accumulate result ts in
                     if raised
                     then (fallback (batch_at email_list i) valid, ts')
                     else (valid, ts')))).
  { intros result valid Hvalid.
    destruct (accumulate result ts) as [ts' []]; cbn [fst]; auto. }
  unfold disify_batch. cbn zeta.
  destruct (mass D i _) as [|status [result|]]; [cbn [fst]; auto| |];
    destruct (status =? 200); cbn [fst]; auto.
  destruct (session result) as [s|]; [destruct (truthy s)|];
    try (apply Hcounted; exact Hacc).
  destruct (view D i s) as [|vstatus vtext]; [cbn [fst]; auto|].
  destruct (vstatus =? 200); [destruct (truthy (strip vtext))|];
    try (apply Hcounted; exact Hacc).
  apply Hcounted, Forall_app. split; [exact Hacc|].
  apply view_lines_trimmed.
Qed.

Lemma disify_loop_trimmed (D : disify) (email_list : list string)
    (starts : list nat) :
  forall st,
    Forall trimmed email_list -> Forall trimmed (fst st) ->
    Forall trimmed (fst (disify_loop D email_list starts st)).
Proof.
  induction starts as [|i starts IH]; intros [acc ts] Hin Hacc;
    cbn [disify_loop]; [exact Hacc|].
  apply IH; [exact Hin|].
  apply disify_batch_trimmed; assumption.
Qed.

(** X22. Whatever the lines are and whatever the validation service answers,
    no recipient that the pipeline returns is the empty string or has white
    space at either end. *)
Theorem recipients_are_trimmed (D : disify) (emails : list string)
    (use_disify : bool) :
  Forall trimmed (fst (filter_and_validate_emails D emails use_disify)).
Proof.
  rewrite pipeline_closed_form. cbn zeta.
  set (unique := first_occurrences [] (omap extract_email_from_line emails)).
  assert (Hu : Forall trimmed unique).
  { apply Forall_forall. intros e He. subst unique.
    apply first_occurrences_elem in He as [He _].
    apply list_elem_of_omap in He as (line & _ & He).
    destruct (extract_email_safe line e He) as (Ht & Hs & _).
    split; assumption. }
  destruct (use_disify && negb (bool_decide (unique = []))); [|exact Hu].
  unfold validate_emails_with_disify.
  destruct unique as [|e unique'] eqn:Hunique; [constructor|].
  rewrite <- Hunique in *.
  pose proof (disify_loop_trimmed D unique
                (batch_starts (length unique))
                ([], DisifyStats 0 0 0 0 (len unique) 0) Hu
                (List.Forall_nil _)) as H.
  destruct (disify_loop D unique _ _) as [all_valid ts]. exact H.
Qed.

(** ** The batches *)

Lemma batch_starts_spec (n i : nat) :
  i ∈ batch_starts n <-> (exists j, i = (j * 500)%nat) /\ (i < n)%nat.
Proof.
  unfold batch_starts, batch_size. change (500 - 1)%nat with 499%nat.
  rewrite list_elem_of_In, in_map_iff.
  pose proof (Nat.div_mod_eq (n + 499) 500) as Hdiv.
  pose proof (Nat.mod_upper_bound (n + 499) 500 ltac:(lia)) as Hmod.
  split.
  - intros (j & <- & Hj). apply in_seq in Hj. split; [eauto|]. lia.
  - intros ((j & ->) & Hlt). exists j. split; [reflexivity|].
    apply in_seq. lia.
Qed.

(** The validator goes through the list in batches of at most 500
    addresses: the batches are not empty, they follow one another
    without gap or overlap, and together they are the list, so every
    address is submitted once. *)
Lemma batches_partition (email_list : list string) :
  concat (List.map (batch_at email_list) (batch_starts (length email_list)))
  = email_list
  /\ Forall (fun i => (1 <= length (batch_at email_list i) <= 500)%nat)
            (batch_starts (length email_list))
  /\ length (batch_starts (length email_list))
     = ((length email_list + 499) / 500)%nat.
Proof.
  split; [apply batches_cover|]. split.
  - apply Forall_forall. intros i Hi.
    apply batch_starts_spec in Hi as [_ Hlt].
    unfold batch_at, batch_size.
    rewrite length_take, length_drop. lia.
  - unfold batch_starts, batch_size.
    rewrite length_map, length_seq. reflexivity.
Qed.

(** The additions of a turn go through when the counters are integers. *)
Lemma accumulate_numeric (result : mass_result) (ts : disify_stats) :
  numeric result ->
  accumulate result ts
  = (DisifyStats (d_total ts + get0 (r_total result))
       (d_invalid_format ts + get0 (r_invalid_format result))
       (d_invalid_dns ts + get0 (r_invalid_dns result))
       (d_disposable ts + get0 (r_disposable result))
       (d_unique ts)
       (d_valid ts + get0 (r_valid result)), false).
Proof.
  intros (H1 & H2 & H3 & H4 & H5). unfold accumulate.
  destruct (r_total result) as [[a|]|]; [|contradiction|];
    destruct (r_invalid_format result) as [[b|]|]; try contradiction;
    destruct (r_invalid_dns result) as [[c|]|]; try contradiction;
    destruct (r_disposable result) as [[d|]|]; try contradiction;
    destruct (r_valid result) as [[e|]|]; try contradiction;
    cbn [add_to get0]; rewrite ?Z.add_0_r; reflexivity.
Qed.

(** X23. With the validator at work the answer of the service is taken as it
    is.  For a list of at most 500 addresses (one batch), when the service
    answers the batch with status 200, a session and counters that are
    integers where they are present, and the view of the session with
    status 200, the recipients are the lines of that view, stripped, the
    blank ones left out: they are not compared with the addresses that were
    submitted, and not validated again. *)
Theorem validator_answer_is_taken (D : disify) (email_list : list string)
    (result : mass_result) (s text : string) :
  (1 <= length email_list <= 500)%nat ->
  mass D 0 email_list = MassResponse 200 (Some result) ->
  numeric result ->
  session result = Some s -> truthy s = true ->
  view D 0 s = ViewResponse 200 text ->
  validate_emails_with_disify D email_list
  = (view_lines (strip text),
     DisifyStats (get0 (r_total result)) (get0 (r_invalid_format result))
       (get0 (r_invalid_dns result)) (get0 (r_disposable result))
       (len email_list) (len (view_lines (strip text)))).
Proof.
  intros Hlen Hmass Hnum Hsess Hs Hview. unfold validate_emails_with_disify.
  destruct email_list as [|e l] eqn:Hl; [cbn in Hlen; lia|].
  rewrite <- Hl in *.
  assert (Hstarts : batch_starts (length email_list) = [0%nat]).
  { unfold batch_starts, batch_size. change (500 - 1)%nat with 499%nat.
    replace ((length email_list + 499) / 500)%nat with 1%nat; [reflexivity|].
    apply Nat.div_unique with (r := (length email_list - 1)%nat); lia. }
  assert (Hbatch : batch_at email_list 0 = email_list).
  { unfold batch_at, batch_size. cbn [skipn]. apply take_ge. lia. }
  rewrite Hstarts. cbn [disify_loop]. unfold disify_batch.
  rewrite Hbatch, Hmass. cbn [Z.eqb Pos.eqb]. rewrite Hsess, Hs, Hview.
  cbn [Z.eqb Pos.eqb]. rewrite (accumulate_numeric _ _ Hnum).
  assert (Hview_lines : truthy (strip text) = false ->
                        view_lines (strip text) = []).
  { intros Ht. destruct (strip text); [reflexivity | discriminate]. }
  destruct (truthy (strip text)) eqn:Ht.
  - cbn. reflexivity.
  - rewrite (Hview_lines eq_refl). cbn. reflexivity.
Qed.

Lemma validator_answer_is_taken_witness :
  filter_and_validate_emails
    (answering ("z@z.zz" +:+ String LF EmptyString
                +:+ " not an address " +:+ String LF EmptyString
                +:+ "z@z.zz"))
    ["a@x.com"; "b@y.com"] true
  = (["z@z.zz"; "not an address"; "z@z.zz"], Stats 2 2 0 0 0 2 0 0 3)
  /\ fst (filter_and_validate_emails
            (miscounting ("z@z.zz" +:+ String LF EmptyString
                          +:+ " not an address " +:+ String LF EmptyString
                          +:+ "z@z.zz"))
            ["a@x.com"; "b@y.com"] true)
     = ["z@z.zz"; "not an address"; "z@z.zz"; "a@x.com"; "b@y.com"].
Proof.
  split; [|vm_compute; reflexivity].
  assert (Hnum : numeric (MassResult (Some "s1") (Some (Count 3))
                            (Some (Count 1)) None None (Some (Count 2)))).
  { repeat split; discriminate. }
  pose proof (validator_answer_is_taken
                (answering ("z@z.zz" +:+ String LF EmptyString
                            +:+ " not an address " +:+ String LF EmptyString
                            +:+ "z@z.zz"))
                ["a@x.com"; "b@y.com"]
                (MassResult (Some "s1") (Some (Count 3)) (Some (Count 1))
                            None None (Some (Count 2)))
                "s1"
                ("z@z.zz" +:+ String LF EmptyString
                 +:+ " not an address " +:+ String LF EmptyString
                 +:+ "z@z.zz")
                ltac:(cbn; lia) eq_refl Hnum eq_refl eq_refl eq_refl) as H.
  rewrite pipeline_closed_form. cbn zeta.
  change (first_occurrences [] (omap extract_email_from_line
                                  ["a@x.com"; "b@y.com"]))
    with ["a@x.com"; "b@y.com"].
  cbn [andb negb bool_decide decide_rel]. rewrite H.
  vm_compute. reflexivity.
Defined.

(* ===================================================================== *)
(** * Running the pipeline twice                                          *)
(* ===================================================================== *)

Lemma email_match_iff (prev : option ascii) (s : string) :
  is_Some (match_here email_pattern prev s)
  <-> at_boundary prev s = true
      /\ exists taken rest,
           s = taken +:+ rest /\ all_in local_class taken = true
           /\ (1 <= String.length taken)%nat
           /\ is_Some (match_here address_tail None rest).
Proof.
  unfold email_pattern. rewrite match_here_boundary.
  destruct (at_boundary prev s).
  - rewrite match_here_many, match_many_iff. split.
    + intros (taken & rest & Heq & Hall & Hlen & Hk). split; [reflexivity|].
      exists taken, rest. auto.
    + intros (_ & taken & rest & Heq & Hall & Hlen & Hk).
      exists taken, rest. auto.
  - split; [intros [? [=]] | intros [[=] _]].
Qed.

Lemma ascii_word_is_local (c : ascii) :
  is_ascii c = true -> is_word c = true -> local_class c = true.
Proof.
  destruct c as [[] [] [] [] [] [] [] []]; vm_compute; auto.
Qed.

(** In an ASCII text the first match of the pattern begins with a word
    character: where a match could begin with one of [.%+-], a match
    begins earlier. *)
Lemma first_match_word (s : string) :
  forall prev,
    ascii_text s ->
    word_before prev = false \/ ~ reaches_at s ->
    match findall_from email_pattern 0 prev s with
    | m :: _ => word_after m = true
    | [] => True
    end.
Proof.
  induction s as [|c s IH]; intros prev Hascii Hinv; [exact I|].
  unfold ascii_text, all_in in Hascii.
  cbn [list_ascii_of_string forallb] in Hascii.
  apply andb_true_iff in Hascii as [Hc Hascii].
  cbn [findall_from].
  destruct (match_here email_pattern prev (String c s)) as [rest|] eqn:Hm.
  - destruct (email_match_well_formed prev _ rest Hm) as (m & Heq & Hwf).
    destruct (well_formed_nonempty m Hwf) as (c0 & m' & ->).
    assert (Hsome : is_Some (match_here email_pattern prev (String c s)))
      by (rewrite Hm; eauto).
    apply email_match_iff in Hsome
      as (Hb & taken & rest' & Heq' & Hall & Hlen & Hk).
    assert (Hprev : word_before prev = false).
    { destruct Hinv as [Hp|Hno]; [exact Hp|]. exfalso. apply Hno.
      exists taken, rest'. auto. }
    unfold at_boundary in Hb. rewrite Hprev in Hb. cbn in Hb.
    clear Heq' IH. rewrite append_cons in Heq. injection Heq as <- ->.
    cbn [String.length]. rewrite length_append.
    replace (S (String.length m' + String.length rest)
             - String.length rest)%nat
      with (S (String.length m')) by lia.
    cbn [PyStr.take word_after]. exact Hb.
  - apply IH; [exact Hascii|].
    assert (Hnone : ~ is_Some (match_here email_pattern prev (String c s)))
      by (rewrite Hm; intros [? [=]]).
    rewrite email_match_iff in Hnone.
    destruct (is_word c) eqn:Hw.
    + right. intros (taken & rest' & Heq & Hall & Hk).
      pose proof (ascii_word_is_local c Hc Hw) as Hloc.
      assert (Hreach : exists taken0 rest0,
                String c s = taken0 +:+ rest0
                /\ all_in local_class taken0 = true
                /\ (1 <= String.length taken0)%nat
                /\ is_Some (match_here address_tail None rest0)).
      { exists (String c taken), rest'. rewrite append_cons, Heq.
        split; [reflexivity|]. split; [|split; [cbn; lia | exact Hk]].
        unfold all_in in *. cbn [list_ascii_of_string forallb].
        rewrite Hloc. exact Hall. }
      destruct Hinv as [Hp|Hno].
      * apply Hnone. split; [|exact Hreach].
        unfold at_boundary. rewrite Hp. exact Hw.
      * apply Hno. destruct Hreach as (t0 & r0 & H1 & H2 & _ & H3).
        exists t0, r0. auto.
    + left. exact Hw.
Qed.

Lemma all_in_lstrip (P sp : ascii -> bool) (s : string) :
  all_in P s = true -> all_in P (lstrip_by sp s) = true.
Proof.
  unfold all_in. induction s as [|c s IH]; [auto|].
  cbn [lstrip_by]. destruct (sp c); [|auto].
  cbn [list_ascii_of_string forallb]. intros H.
  apply andb_true_iff in H as [_ H]. auto.
Qed.

Lemma all_in_rstrip (P sp : ascii -> bool) (s : string) :
  all_in P s = true -> all_in P (rstrip_by sp s) = true.
Proof.
  unfold all_in. induction s as [|c s IH]; [auto|].
  cbn [list_ascii_of_string forallb rstrip_by]. intros H.
  apply andb_true_iff in H as [Hc H]. specialize (IH H).
  destruct (rstrip_by sp s) as [|c' r].
  - destruct (sp c); [reflexivity|]. cbn. rewrite Hc. reflexivity.
  - cbn [list_ascii_of_string forallb] in *. rewrite Hc. exact IH.
Qed.

(** From a line of ASCII text the extraction returns a plain address:
    well formed, in lower case, beginning with a letter, a digit or an
    underscore. *)
Lemma extract_from_ascii_plain (line e : string) :
  ascii_text line -> extract_email_from_line line = Some e ->
  plain_address e.
Proof.
  intros Hascii He.
  destruct (extract_email_well_formed line e He) as [Hwf Hlow].
  split; [exact Hwf|]. split; [exact Hlow|].
  rewrite extract_email_first_match in He.
  destruct (truthy (strip line)); [|discriminate].
  assert (Hs : ascii_text (strip line)).
  { unfold ascii_text, strip. apply all_in_rstrip, all_in_lstrip, Hascii. }
  pose proof (first_match_word (strip line) None Hs (or_introl eq_refl))
    as Hfirst.
  unfold findall in He.
  destruct (findall_from email_pattern 0 None (strip line)) as [|m ms];
    [discriminate|].
  injection He as <-. destruct m as [|c m]; [discriminate|].
  cbn [lower word_after] in *.
  rewrite (proj2 (proj2 (proj2 (proj2 (lower_char_classes c))))).
  exact Hfirst.
Qed.

(** X24. Sanitising is idempotent on ASCII input.  When the lines hold ASCII
    characters only, the recipients that the pipeline returns without the
    external validator pass the pipeline unchanged if they are run through
    it again, as a list or as a file with one address per line; the second
    run extracts every line and finds no duplicate and nothing invalid.  (A
    line with a letter outside ASCII right before an address can make the
    pipeline return an address that begins with a dot, from which a second
    run takes the dot away.) *)
Theorem sanitising_is_idempotent (D : disify) (file_path : string)
    (emails : list string) :
  Forall ascii_text emails ->
  let recipients := fst (filter_and_validate_emails D emails false) in
  filter_and_validate_emails D recipients false
  = (recipients,
     Stats (len recipients) (len recipients) 0 0 0 (len recipients) 0 0
           (len recipients))
  /\ load_recipients_from_file D file_path
       (TextFile (ledger_lines recipients)) false
     = Ret (recipients,
            Stats (len recipients) (len recipients) 0 0 0 (len recipients)
                  0 0 (len recipients)).
Proof.
  intros Hascii recipients.
  assert (Hrec : recipients
                 = first_occurrences []
                     (omap extract_email_from_line emails)).
  { subst recipients. rewrite pipeline_closed_form. reflexivity. }
  assert (Hnd : NoDup recipients).
  { rewrite Hrec. apply first_occurrences_NoDup. }
  assert (Hplain : Forall plain_address recipients).
  { rewrite Hrec. apply Forall_forall. intros e He.
    apply first_occurrences_elem in He as [He _].
    apply list_elem_of_omap in He as (line & Hline & He).
    rewrite Forall_forall in Hascii.
    exact (extract_from_ascii_plain line e (Hascii line Hline) He). }
  split; [apply plain_list_passes | apply plain_file_passes]; assumption.
Qed.

Lemma sanitising_is_idempotent_witness :
  fst (filter_and_validate_emails disify_down
         ["Jane <.Jane@X.com>"; "jane@x.com; b@y.org"] false)
  = ["jane@x.com"]
  /\ filter_and_validate_emails disify_down ["jane@x.com"] false
     = (["jane@x.com"], Stats 1 1 0 0 0 1 0 0 1)
  /\ fst (filter_and_validate_emails disify_down
            [String e_acute ".a@b.cc"] false)
     = [".a@b.cc"]
  /\ fst (filter_and_validate_emails disify_down [".a@b.cc"] false)
     = ["a@b.cc"].
Proof.
  split; [vm_compute; reflexivity|]. split.
  - assert (Hascii : Forall ascii_text
                       ["Jane <.Jane@X.com>"; "jane@x.com; b@y.org"]).
    { repeat constructor. }
    pose proof (proj1 (sanitising_is_idempotent disify_down "recipients.txt"
                         ["Jane <.Jane@X.com>"; "jane@x.com; b@y.org"]
                         Hascii)) as H.
    vm_compute in H. vm_compute. exact H.
  - split; vm_compute; reflexivity.
Defined.

(** A run returns, has no result for an address that it loaded from the
    ledger, and leaves no event about such an address. *)
Lemma campaign_runs (recipient_list : list string) (start_index : Z)
    (progress_file : bool) (E : env) (st : state) :
  exists results st',
    send_emails_one_by_one recipient_list start_index progress_file E st
    = (Ret results, st')
    /\ Forall (fun x => Result.recipient x ∉ loaded progress_file E st)
              results
    /\ forall x, x ∈ loaded progress_file E st ->
                 exists evs, trace st' = trace st ++ evs
                             /\ Forall (fun ev => ~ about x ev) evs.
Proof.
  unfold send_emails_one_by_one, bind.
  rewrite load_progress_loaded, open_append_spec.
  fold (remaining start_index recipient_list).
  set (st0 := if progress_file && negb (ledger_open_error E)
              then set_ledger (default EmptyString (ledger st)) st else st).
  assert (Htr : trace st0 = trace st).
  { subst st0. destruct (progress_file && negb (ledger_open_error E));
      reflexivity. }
  destruct (send_loop_spec (remaining start_index recipient_list)
              (len (remaining start_index recipient_list))
              (progress_file && negb (ledger_open_error E)) 1
              (loaded progress_file E st) [] E st0)
    as (res' & st' & Heq & _ & Hout & _).
  exists res', st'. split; [exact Heq|]. split; [exact Hout|].
  intros x Hx.
  destruct (send_loop_skips x (remaining start_index recipient_list)
              (len (remaining start_index recipient_list))
              (progress_file && negb (ledger_open_error E)) 1
              (loaded progress_file E st) [] E st0 Hx)
    as (res'' & evs & st'' & Heq' & Ht & He & _).
  rewrite Heq in Heq'. injection Heq' as _ <-.
  exists evs. rewrite Ht, Htr. auto.
Qed.

(* ===================================================================== *)
(** * The ledger across runs                                              *)
(* ===================================================================== *)

Lemma ledger_set_lines (xs : list string) :
  forall content y,
    ends_with_lf content = true -> Forall ledger_safe xs ->
    y ∈ ledger_set (content +:+ ledger_lines xs)
    <-> y ∈ ledger_set content \/ y ∈ xs.
Proof.
  induction xs as [|x xs IH]; intros content y Hend Hsafe.
  - cbn [ledger_lines fold_right]. rewrite append_nil_r, elem_of_nil. tauto.
  - apply Forall_cons in Hsafe as [Hx Hsafe].
    cbn [ledger_lines fold_right]. fold (ledger_lines xs).
    rewrite <- !append_assoc.
    rewrite (append_assoc content x (String LF EmptyString)).
    rewrite IH by (auto using ends_with_lf_app).
    rewrite (ledger_set_append content x y Hend Hx), elem_of_cons. tauto.
Qed.

Lemma delivered_sublist (res : list Result.t) (l : list string) :
  sublist (List.map Result.recipient res) l ->
  forall x, x ∈ delivered res -> x ∈ l.
Proof.
  intros Hsub x Hx. unfold delivered in Hx.
  apply list_elem_of_In, in_map_iff in Hx as (r & <- & Hr).
  apply List.filter_In in Hr as [Hr _].
  eapply elem_of_sublist; [|exact Hsub].
  apply list_elem_of_In, in_map. exact Hr.
Qed.

(** X25. What a run delivered is not sent again.  Take a run with a ledger
    file that it could open, over addresses that are safe for the ledger
    (not empty, no white space at either end, no line break), started from a
    ledger file whose last line is ended; the run may have met any number of
    failures.  Then a later run that reads the ledger it left behind, over
    any list of recipients, posts no request for an address that the first
    run delivered and has no result for it. *)
Theorem delivered_are_not_sent_again (E E2 : env) (st : state)
    (recipient_list recipient_list2 : list string)
    (start_index start_index2 : Z) :
  ledger_open_error E = false ->
  Forall ledger_safe recipient_list ->
  ledger_terminated (ledger st) ->
  ledger_read_error E2 = None ->
  exists res1 st1 res2 st2,
    send_emails_one_by_one recipient_list start_index true E st
    = (Ret res1, st1)
    /\ send_emails_one_by_one recipient_list2 start_index2 true E2 st1
       = (Ret res2, st2)
    /\ Forall (fun r => Result.recipient r ∉ delivered res1) res2
    /\ forall x, x ∈ delivered res1 ->
                 exists evs, trace st2 = trace st1 ++ evs
                             /\ Forall (fun ev => ~ about x ev) evs.
Proof.
  intros Hopen Hsafe Hterm Hread.
  (* the first run *)
  assert (Hrun1 : exists res1 st1,
            send_emails_one_by_one recipient_list start_index true E st
            = (Ret res1, st1)
            /\ ledger st1
               = Some (default EmptyString (ledger st)
                       +:+ ledger_lines (delivered res1))
            /\ forall x, x ∈ delivered res1 -> x ∈ recipient_list).
  { unfold send_emails_one_by_one, bind.
    rewrite load_progress_loaded, open_append_spec, Hopen.
    cbn [andb negb].
    fold (remaining start_index recipient_list).
    destruct (send_loop_spec (remaining start_index recipient_list)
                (len (remaining start_index recipient_list)) true 1
                (loaded true E st) [] E
                (set_ledger (default EmptyString (ledger st)) st))
      as (res1 & st1 & Heq & Hsub & _ & _ & _ & Hled).
    exists res1, st1. rewrite Heq. split; [reflexivity|]. split.
    - rewrite Hled. cbn [ledger set_ledger]. apply with_lines_some.
    - intros x Hx. apply (delivered_sublist res1 _ Hsub) in Hx.
      unfold remaining in Hx. destruct (start_index >? 0); [|exact Hx].
      apply (subseteq_drop _ _ _ Hx). }
  destruct Hrun1 as (res1 & st1 & Hrun1 & Hled1 & Hin1).
  (* what the second run loads *)
  assert (Hloaded : forall x, x ∈ delivered res1 -> x ∈ loaded true E2 st1).
  { intros x Hx.
    destruct (load_progress_spec true E2 st1) as (s & Hload & _ & _ & Hfull).
    unfold loaded. rewrite Hload.
    rewrite (Hfull eq_refl Hread _ Hled1).
    apply ledger_set_lines.
    - destruct (ledger st); [exact Hterm | reflexivity].
    - apply Forall_forall. intros y Hy.
      rewrite Forall_forall in Hsafe. apply Hsafe, Hin1, Hy.
    - right. exact Hx. }
  (* the second run *)
  destruct (campaign_runs recipient_list2 start_index2 true E2 st1)
    as (res2 & st2 & Hrun2 & Hout & Hskip).
  exists res1, st1, res2, st2. split; [exact Hrun1|].
  split; [exact Hrun2|]. split.
  - eapply Forall_impl; [exact Hout|]. cbn. intros r Hr Hdel.
    apply Hr, Hloaded, Hdel.
  - intros x Hx. apply Hskip, Hloaded, Hx.
Qed.

Lemma delivered_are_not_sent_again_witness :
  fst (send_emails_one_by_one ["a@x.com"; "b@y.com"] 0 true second_fails
         fresh)
  = Ret [sent_ok "a@x.com" 202;
         failed "b@y.com" (Some 500) "Internal Server Error"]
  /\ fst (send_emails_one_by_one ["a@x.com"; "b@y.com"] 0 true accepting
            (snd (send_emails_one_by_one ["a@x.com"; "b@y.com"] 0 true
                    second_fails fresh)))
     = Ret [sent_ok "b@y.com" 202]
  /\ exists res1 st1 res2 st2,
       send_emails_one_by_one ["a@x.com"; "b@y.com"] 0 true second_fails
         fresh
       = (Ret res1, st1)
       /\ send_emails_one_by_one ["a@x.com"; "b@y.com"] 0 true accepting st1
          = (Ret res2, st2)
       /\ Forall (fun r => Result.recipient r ∉ delivered res1) res2
       /\ forall x, x ∈ delivered res1 ->
                    exists evs, trace st2 = trace st1 ++ evs
                                /\ Forall (fun ev => ~ about x ev) evs.
Proof.
  split; [vm_compute; reflexivity|]. split; [vm_compute; reflexivity|].
  apply (delivered_are_not_sent_again second_fails accepting fresh
           ["a@x.com"; "b@y.com"] ["a@x.com"; "b@y.com"] 0 0).
  - reflexivity.
  - repeat constructor.
  - exact I.
  - reflexivity.
Defined.

(* ===================================================================== *)
(** * Runs that meet failures                                             *)
(* ===================================================================== *)

Lemma send_email_no_token (x : string) (max_retries : Z) (E : env)
    (st : state) :
  token_set st = None ->
  t_access_token (acquire_token_for_client E (exchanges st)) = None ->
  send_email x max_retries E st
  = (Raise (Exception
              ("Failed to acquire token: "
               +:+ token_error_msg
                     (acquire_token_for_client E (exchanges st)))),
     log Exchange (next_exchange st)).
Proof.
  intros Htok Hnone. unfold send_email, bind.
  assert (Hcase : false = true \/ forall tok, ~ cache_fresh E st tok).
  { right. intros tok (Ht & _). congruence. }
  rewrite (get_access_token_exchange E st false Hcase). cbn zeta.
  unfold before_exchange. cbn [negb]. rewrite Htok, Hnone. reflexivity.
Qed.

Lemma send_loop_no_token (msg : string) (l : list string) :
  forall total progress_fp i sent_emails results E st,
    token_set st = None ->
    (forall n, t_access_token (acquire_token_for_client E n) = None
               /\ token_error_msg (acquire_token_for_client E n) = msg) ->
    exists st',
      send_loop total progress_fp i l sent_emails results E st
      = (Ret (results
              ++ List.map
                   (fun x => failed x None
                               ("Failed to acquire token: " +:+ msg))
                   (outside sent_emails l)), st')
      /\ trace st'
         = trace st ++ repeat Exchange (length (outside sent_emails l))
      /\ ledger st' = ledger st.
Proof.
  induction l as [|a l IH]; intros total progress_fp i sent_emails results
    E st Htok Hrefuse; cbn [send_loop outside List.filter].
  - exists st. cbn. rewrite !app_nil_r. auto.
  - fold (outside sent_emails l).
    destruct (decide (a ∈ sent_emails)) as [Ha|Ha].
    + rewrite bool_decide_eq_false_2 by auto. apply IH; assumption.
    + rewrite bool_decide_eq_true_2 by exact Ha.
      unfold bind, send_guarded, try_except, send_one, bind at 1.
      destruct (Hrefuse (exchanges st)) as [Hnone Hmsg].
      rewrite (send_email_no_token a 5 E st Htok Hnone), Hmsg.
      cbn [any_exception exn_str]. unfold ret at 1. cbn [fst snd].
      destruct (IH total progress_fp (i + 1) sent_emails
                  (results
                   ++ [failed a None ("Failed to acquire token: " +:+ msg)])
                  E (log Exchange (next_exchange st)) Htok Hrefuse)
        as (st' & -> & Ht & Hl).
      exists st'. split; [cbn [List.map]; rewrite <- app_assoc; reflexivity|].
      split; [|exact Hl].
      rewrite Ht. cbn. rewrite <- app_assoc. reflexivity.
Qed.

(** X26. When no token can be had (the sender holds none and the identity
    provider refuses every exchange with the error text [msg]), a run posts
    no message: every recipient of the list that was not loaded from the
    ledger, repeated ones too, gets the failure "Failed to acquire token:
    [msg]"; the run makes one exchange for each of them, one right after the
    other without any sleep, and writes nothing to the ledger. *)
Theorem no_token_no_mail (recipient_list : list string) (start_index : Z)
    (progress_file : bool) (E : env) (st : state) (msg : string) :
  token_set st = None ->
  (forall n, t_access_token (acquire_token_for_client E n) = None
             /\ token_error_msg (acquire_token_for_client E n) = msg) ->
  let attempted :=
    outside (loaded progress_file E st)
            (remaining start_index recipient_list) in
  exists st',
    send_emails_one_by_one recipient_list start_index progress_file E st
    = (Ret (List.map
              (fun x => failed x None ("Failed to acquire token: " +:+ msg))
              attempted), st')
    /\ trace st' = trace st ++ repeat Exchange (length attempted).
Proof.
  intros Htok Hrefuse attempted.
  unfold send_emails_one_by_one, bind.
  rewrite load_progress_loaded, open_append_spec.
  fold (remaining start_index recipient_list).
  set (st0 := if progress_file && negb (ledger_open_error E)
              then set_ledger (default EmptyString (ledger st)) st else st).
  assert (H0 : token_set st0 = None /\ trace st0 = trace st).
  { subst st0. destruct (progress_file && negb (ledger_open_error E));
      auto. }
  destruct H0 as [Htok0 Htr0].
  destruct (send_loop_no_token msg (remaining start_index recipient_list)
              (len (remaining start_index recipient_list))
              (progress_file && negb (ledger_open_error E)) 1
              (loaded progress_file E st) [] E st0 Htok0 Hrefuse)
    as (st' & Heq & Ht & _).
  exists st'. split; [exact Heq|]. rewrite Ht, Htr0. reflexivity.
Qed.

Lemma no_token_no_mail_witness :
  send_emails_one_by_one ["a@x.com"; "b@y.com"; "a@x.com"] 0 true refusing
    fresh
  = (Ret [failed "a@x.com" None "Failed to acquire token: AADSTS7000215";
          failed "b@y.com" None "Failed to acquire token: AADSTS7000215";
          failed "a@x.com" None "Failed to acquire token: AADSTS7000215"],
     State None None 0 3 0 (Some EmptyString)
       [Exchange; Exchange; Exchange]).
Proof.
  destruct (no_token_no_mail ["a@x.com"; "b@y.com"; "a@x.com"] 0 true
              refusing fresh "AADSTS7000215" eq_refl
              (fun _ => conj eq_refl eq_refl))
    as (st' & Hrun & _).
  assert (Hst : st' = State None None 0 3 0 (Some EmptyString)
                        [Exchange; Exchange; Exchange]).
  { pose proof Hrun as Hc. vm_compute in Hc. injection Hc as <-.
    reflexivity. }
  rewrite Hrun, Hst. vm_compute. reflexivity.
Defined.

Lemma filter_posts_and_sleeps (recipient token : string) (w : Z -> Z)
    (attempts : list Z) :
  List.filter is_sleep (posts_and_sleeps recipient token w attempts)
  = List.map (fun k => Sleep (w k)) attempts
  /\ count is_post (posts_and_sleeps recipient token w attempts)
     = length attempts.
Proof.
  unfold posts_and_sleeps, count.
  induction attempts as [|a l [IH1 IH2]]; [split; reflexivity|].
  cbn [List.map concat app List.filter is_sleep is_post length].
  rewrite IH1, IH2. split; reflexivity.
Qed.

(** X27. What a throttled recipient costs.  In a run, a recipient is given
    five attempts.  When every request for it is answered with status 429,
    without Retry-After header and with a body that decodes, the run posts
    five requests for it, sleeps 60, 120, 240 and 480 seconds between them,
    records the failure with status 429, and then sleeps 30 seconds more
    before it goes on: 930 seconds in all, to which the 5 seconds between
    two recipients add when the recipient is not the last. *)
Theorem throttled_recipient_costs (E : env) (st : state) (x : string) :
  (forall n, exists r, post E n = PostResponse r /\ throttled_plain r) ->
  (forall n, t_access_token (acquire_token_for_client E n) <> None) ->
  asset_error E x = None ->
  exists res st' evs,
    send_emails_one_by_one [x] 0 false E st = (Ret [res], st')
    /\ Result.success res = false
    /\ Result.status_code res = Some 429
    /\ trace st' = trace st ++ evs
    /\ List.filter is_sleep evs
       = [Sleep 60; Sleep 120; Sleep 240; Sleep 480; Sleep 30]
    /\ count is_post evs = 5%nat.
Proof.
  intros Hpost Hgrant Hasset.
  unfold send_emails_one_by_one, bind, load_progress, open_append.
  cbn [andb]. cbn [Z.gtb Z.compare send_loop].
  destruct (decide (x ∈ (∅ : gset string))) as [Hin|_];
    [apply elem_of_empty in Hin; contradiction|].
  unfold bind, send_guarded, try_except, send_one, bind at 1.
  destruct (get_access_token_granted false E st Hgrant)
    as (token & st1 & Hget & Hp1 & _).
  pose proof (get_access_token_events false E st) as Hev.
  cbn zeta in Hev. rewrite Hget in Hev. cbn [snd] in Hev.
  destruct Hev as [_ Htr1].
  assert (Hr : exists r : nat -> response,
            forall k, post E (posts st1 + k)%nat = PostResponse (r k)
                      /\ throttled_plain (r k)).
  { assert (Hchoice : forall k, { r | post E (posts st1 + k)%nat
                                      = PostResponse r }).
    { intros k. destruct (post E (posts st1 + k)%nat) as [m|r] eqn:Hk.
      - exfalso. destruct (Hpost (posts st1 + k)%nat) as (r & Hr & _).
        congruence.
      - exists r. reflexivity. }
    exists (fun k => proj1_sig (Hchoice k)). intros k.
    destruct (Hchoice k) as [r Hk]. cbn [proj1_sig]. split; [exact Hk|].
    destruct (Hpost (posts st1 + k)%nat) as (r' & Hr' & Hthr).
    congruence. }
  destruct Hr as [r Hr].
  destruct (throttling_schedule_aux E st st1 x token 5 r Hget Hasset
              ltac:(lia)) as (st2 & Hrun & Htr2 & _).
  { intros k _. destruct (Hr k) as [Hk (Hs & Hh & Hd)].
    split; [exact Hk|]. split; [|split; [exact Hh | exact Hd]].
    split; [rewrite Hs; discriminate|].
    split; [rewrite Hs; discriminate | left; exact Hs]. }
  destruct (Hr 4%nat) as [_ (Hs4 & _)].
  change (Z.to_nat (5 - 1)) with 4%nat in Hrun. rewrite Hs4 in Hrun.
  rewrite Hrun. cbn [Result.success failed Result.error Result.status_code].
  unfold status_str. cbn [Result.status_code failed].
  assert (Hcool : contains "ApplicationThrottled" (default "Unknown error"
                     (Some (text (r 4%nat))))
                  || contains "429" (pretty 429) = true).
  { apply orb_true_iff. right. vm_compute. reflexivity. }
  rewrite Hcool. unfold when, bind, sleep, ret. cbn [Z.ltb Z.compare].
  cbn [fst snd app].
  destruct (filter_posts_and_sleeps x token
              (fun k => Z.min (60 * 2 ^ k) 600) (range (5 - 1)))
    as [Hf Hc].
  assert (Hevs : exists evs,
            trace (log (Sleep 30) st2) = trace st ++ evs
            /\ List.filter is_sleep evs
               = [Sleep 60; Sleep 120; Sleep 240; Sleep 480; Sleep 30]
            /\ count is_post evs = 5%nat).
  { cbn [trace log]. rewrite Htr2.
    destruct Htr1 as [-> | ->]; rewrite <- ?app_assoc;
      eexists; (split; [reflexivity|]);
      unfold count in *; rewrite ?List.filter_app, ?length_app, Hf, Hc;
      split; reflexivity. }
  destruct Hevs as (evs & Ht & Hs & Hp).
  eexists _, _, evs. split; [reflexivity|]. split; [reflexivity|].
  split; [reflexivity|]. auto.
Qed.

Lemma throttled_recipient_costs_witness :
  exists res st' evs,
    send_emails_one_by_one ["a@x.com"] 0 false
      (always (PostResponse (throttled_json None))) fresh
    = (Ret [res], st')
    /\ Result.success res = false
    /\ Result.status_code res = Some 429
    /\ trace st' = trace fresh ++ evs
    /\ List.filter is_sleep evs
       = [Sleep 60; Sleep 120; Sleep 240; Sleep 480; Sleep 30]
    /\ count is_post evs = 5%nat.
Proof.
  apply (throttled_recipient_costs
           (always (PostResponse (throttled_json None))) fresh "a@x.com").
  - intros n. exists (throttled_json None). split; [reflexivity|].
    split; [reflexivity|]. split; [reflexivity|].
    right. exists "{}". reflexivity.
  - intros n. discriminate.
  - reflexivity.
Defined.

(* ===================================================================== *)
(** * Logo and attachment                                                 *)
(* ===================================================================== *)

(** ** Base64 *)

Lemma below_64 (P : N -> Prop) :
  (forall k, (k < 64)%nat -> P (N.of_nat k)) ->
  forall n, (n < 64)%N -> P n.
Proof.
  intros H n Hn. rewrite <- (N2Nat.id n). apply H. lia.
Qed.

Lemma b64_char_index (n : N) :
  (n < 64)%N -> index_of (b64_char n) b64_alphabet = n.
Proof.
  revert n. apply below_64. intros k Hk.
  assert (H : forallb (fun k => N.eqb (index_of (b64_char (N.of_nat k))
                                         b64_alphabet) (N.of_nat k))
                      (seq 0 64) = true) by (vm_compute; reflexivity).
  rewrite forallb_forall in H. apply N.eqb_eq, H, in_seq. lia.
Qed.

Lemma b64_char_not_pad (n : N) : (n < 64)%N -> b64_char n <> pad.
Proof.
  revert n. apply below_64. intros k Hk.
  assert (H : forallb (fun k => negb (Ascii.eqb (b64_char (N.of_nat k)) pad))
                      (seq 0 64) = true) by (vm_compute; reflexivity).
  rewrite forallb_forall in H. specialize (H k ltac:(apply in_seq; lia)).
  apply negb_true_iff, Ascii.eqb_neq in H. exact H.
Qed.

Lemma b64_char_inj (n m : N) :
  (n < 64)%N -> (m < 64)%N -> b64_char n = b64_char m -> n = m.
Proof.
  intros Hn Hm H. rewrite <- (b64_char_index n Hn), <- (b64_char_index m Hm).
  rewrite H. reflexivity.
Qed.

(** The four groups of six bits determine the three bytes. *)
Lemma sextets_inj (n m : N) :
  (n < 16777216)%N -> (m < 16777216)%N ->
  (n / 262144 = m / 262144)%N ->
  ((n / 4096) mod 64 = (m / 4096) mod 64)%N ->
  ((n / 64) mod 64 = (m / 64) mod 64)%N ->
  (n mod 64 = m mod 64)%N ->
  n = m.
Proof.
  intros Hn Hm H1 H2 H3 H4.
  zify. Z.to_euclidean_division_equations. lia.
Qed.

Lemma byte_bound (a : Byte.byte) : (Byte.to_N a < 256)%N.
Proof. pose proof (Byte.to_N_bounded a). lia. Qed.

Lemma byte_eq (a b : Byte.byte) : Byte.to_N a = Byte.to_N b -> a = b.
Proof.
  intros H. apply (f_equal Byte.of_N) in H.
  rewrite !Byte.of_to_N in H. congruence.
Qed.

Lemma list3_ind {A} (P : list A -> Prop) :
  P [] -> (forall a, P [a]) -> (forall a b, P [a; b]) ->
  (forall a b c l, P l -> P (a :: b :: c :: l)) ->
  forall l, P l.
Proof.
  intros H0 H1 H2 H3.
  assert (H : forall l, P l /\ (forall a, P (a :: l))
                        /\ (forall a b, P (a :: b :: l))).
  { induction l as [|x l (IH0 & IH1 & IH2)]; [auto|].
    split; [apply IH1|]. split; [intros a; apply IH2|].
    intros a b. apply H3, IH0. }
  intros l. apply H.
Qed.

Lemma mod_64_bound (n : N) : (n mod 64 < 64)%N.
Proof. apply N.mod_upper_bound. discriminate. Qed.

Lemma top_sextet_bound (n : N) : (n < 16777216)%N -> (n / 262144 < 64)%N.
Proof. intros H. apply N.Div0.div_lt_upper_bound. lia. Qed.

Lemma triple_bound (a b c : Byte.byte) :
  (Byte.to_N a * 65536 + Byte.to_N b * 256 + Byte.to_N c < 16777216)%N.
Proof.
  pose proof (byte_bound a). pose proof (byte_bound b).
  pose proof (byte_bound c). lia.
Qed.

Lemma triple_eq (a b c a' b' c' : Byte.byte) :
  (Byte.to_N a * 65536 + Byte.to_N b * 256 + Byte.to_N c
   = Byte.to_N a' * 65536 + Byte.to_N b' * 256 + Byte.to_N c')%N ->
  a = a' /\ b = b' /\ c = c'.
Proof.
  pose proof (byte_bound a). pose proof (byte_bound b).
  pose proof (byte_bound c). pose proof (byte_bound a').
  pose proof (byte_bound b'). pose proof (byte_bound c').
  intros Heq. repeat split; apply byte_eq; lia.
Qed.

Ltac sextet_bound :=
  first [apply mod_64_bound | apply top_sextet_bound; assumption].

Ltac pad_clash :=
  match goal with
  | H : b64_char _ = pad |- _ =>
      apply b64_char_not_pad in H; [contradiction | apply mod_64_bound]
  | H : pad = b64_char _ |- _ =>
      symmetry in H;
      apply b64_char_not_pad in H; [contradiction | apply mod_64_bound]
  end.

Ltac sextets :=
  repeat match goal with
         | H : b64_char _ = b64_char _ |- _ =>
             apply b64_char_inj in H; [| sextet_bound | sextet_bound]
         end.

(** Different data have different encodings. *)
Lemma b64encode_inj (d1 : list Byte.byte) :
  forall d2, b64encode d1 = b64encode d2 -> d1 = d2.
Proof.
  induction d1 as [|a|a b|a b c d1 IH] using list3_ind;
    intros [|a' [|b' [|c' d2]]]; cbn [b64encode]; cbn zeta;
    try discriminate; try reflexivity; intros Heq;
    injection Heq; intros; try pad_clash.
  - (* one byte *)
    pose proof (triple_bound a Byte.x00 Byte.x00) as Hn.
    pose proof (triple_bound a' Byte.x00 Byte.x00) as Hm.
    cbn [Byte.to_N] in Hn, Hm. rewrite !N.add_0_r in Hn, Hm.
    sextets.
    assert (Ha : a = a'); [|subst; reflexivity].
    apply byte_eq.
    pose proof (byte_bound a). pose proof (byte_bound a').
    zify. Z.to_euclidean_division_equations. lia.
  - (* two bytes *)
    pose proof (triple_bound a b Byte.x00) as Hn.
    pose proof (triple_bound a' b' Byte.x00) as Hm.
    cbn [Byte.to_N] in Hn, Hm. rewrite !N.add_0_r in Hn, Hm.
    sextets.
    assert (Hnm : (Byte.to_N a * 65536 + Byte.to_N b * 256
                   = Byte.to_N a' * 65536 + Byte.to_N b' * 256)%N).
    { apply sextets_inj; try assumption.
      zify. Z.to_euclidean_division_equations. lia. }
    pose proof (byte_bound a). pose proof (byte_bound a').
    pose proof (byte_bound b). pose proof (byte_bound b').
    assert (Ha : a = a') by (apply byte_eq; lia).
    assert (Hb : b = b') by (apply byte_eq; lia).
    subst. reflexivity.
  - (* three bytes and more *)
    pose proof (triple_bound a b c) as Hn.
    pose proof (triple_bound a' b' c') as Hm.
    sextets.
    destruct (triple_eq a b c a' b' c') as (-> & -> & ->).
    { apply sextets_inj; assumption. }
    rewrite (IH d2); [reflexivity|]. assumption.
Qed.

Lemma b64encode_length (d : list Byte.byte) :
  String.length (b64encode d) = (4 * ((length d + 2) / 3))%nat.
Proof.
  induction d as [|a|a b|a b c d IH] using list3_ind; try reflexivity.
  cbn [b64encode]. cbn zeta. cbn [String.length length]. rewrite IH.
  replace (S (S (S (length d))) + 2)%nat with (1 * 3 + (length d + 2))%nat
    by lia.
  rewrite Nat.div_add_l by discriminate. lia.
Qed.

(** ** The attachment *)

(** X28. An attachment that was encoded is a file that is there.  Its
    content type is [application/pdf] whatever the file is, its name is the
    name of the path, its data are four characters for every three bytes
    begun, and they determine the bytes: files with the same encoded
    attachment have the same content. *)
Theorem attachment_encoding (A : assets) (p : path) (a : attachment) :
  encode_attachment A p = Ret a ->
  exists data,
    fs A (path_str p) = Content data
    /\ att_name a = path_name p
    /\ contentType a = "application/pdf"
    /\ String.length (contentBytes a) = (4 * ((length data + 2) / 3))%nat
    /\ forall A' p',
         encode_attachment A' p' = Ret a ->
         fs A' (path_str p') = Content data.
Proof.
  unfold encode_attachment.
  destruct (fs A (path_str p)) as [|msg|data] eqn:Hfs; try discriminate.
  intros Ha. injection Ha as <-. exists data. cbn.
  split; [reflexivity|]. split; [reflexivity|]. split; [reflexivity|].
  split; [apply b64encode_length|].
  intros A' p'.
  destruct (fs A' (path_str p')) as [|msg'|data'] eqn:Hfs';
    try discriminate.
  intros Ha. injection Ha as _ Henc.
  apply b64encode_inj in Henc. subst. reflexivity.
Qed.

Lemma attachment_encoding_witness :
  exists data,
    fs sample_assets "offer.pdf" = Content data
    /\ "offer.pdf" = "offer.pdf"
    /\ "application/pdf" = "application/pdf"
    /\ String.length "JVBERg==" = (4 * ((length data + 2) / 3))%nat
    /\ forall A' p',
         encode_attachment A' p'
         = Ret (Attachment "#microsoft.graph.fileAttachment" "offer.pdf"
                           "application/pdf" "JVBERg==") ->
         fs A' (path_str p') = Content data.
Proof.
  apply (attachment_encoding sample_assets (local_file "offer.pdf" ".pdf")
           (Attachment "#microsoft.graph.fileAttachment" "offer.pdf"
                       "application/pdf" "JVBERg==")).
  reflexivity.
Defined.

(** ** The logo *)

Lemma url_content_type_image (logo_url : string) (header : option string) :
  In (url_content_type logo_url header) image_types.
Proof.
  unfold url_content_type, image_types. cbn zeta.
  repeat match goal with
         | |- context [if ?b then _ else _] => destruct b
         end; cbn; auto.
Qed.

Lemma suffix_content_type_image (suffix : string) :
  In (suffix_content_type suffix) image_types.
Proof.
  unfold suffix_content_type, image_types.
  repeat match goal with
         | |- context [if ?b then _ else _] => destruct b
         end; cbn; auto.
Qed.

Lemma logo_from_url_uri (A : assets) (logo_url : option string)
    (uri : string) :
  logo_from_url A logo_url = Some uri ->
  exists content_type data,
    In content_type image_types /\ logo_source A logo_url data
    /\ uri = data_uri content_type data.
Proof.
  unfold logo_from_url. destruct logo_url as [url|]; [|discriminate].
  destruct (truthy url); [|discriminate].
  destruct (http_get A url) as [msg|status content header] eqn:Hget;
    [discriminate|].
  destruct (Z.eqb_spec status 200) as [->|_]; [|discriminate].
  intros Huri. injection Huri as <-.
  exists (url_content_type url header), content.
  split; [apply url_content_type_image|]. split; [|reflexivity].
  left. exists url, header. split; [reflexivity | exact Hget].
Qed.

Lemma logo_from_file_uri (A : assets) (logo_path : option path)
    (logo_url : option string) (uri : string) :
  logo_from_file A logo_path = Ret (Some uri) ->
  exists content_type data,
    In content_type image_types /\ logo_source A logo_url data
    /\ uri = data_uri content_type data.
Proof.
  unfold logo_from_file. cbn zeta.
  destruct (match logo_path with
            | Some p => Some p
            | None => List.find (path_exists A) possible_names
            end) as [p|]; [|discriminate].
  destruct (path_exists A p); [|discriminate].
  destruct (if String.eqb (lower (path_suffix p)) ".png" && PIL_AVAILABLE A
            then to_jpeg A (path_str p) else None) as [jpeg|] eqn:Hconv.
  - intros Huri. injection Huri as <-.
    exists "image/jpeg", jpeg. split; [cbn; auto|]. split; [|reflexivity].
    right; left. exists (path_str p).
    destruct (String.eqb (lower (path_suffix p)) ".png" && PIL_AVAILABLE A);
      [exact Hconv | discriminate].
  - destruct (fs A (path_str p)) as [|msg|data] eqn:Hfs; try discriminate.
    intros Huri. injection Huri as <-.
    exists (suffix_content_type (path_suffix p)), data.
    split; [apply suffix_content_type_image|]. split; [|reflexivity].
    right; right. exists (path_str p). exact Hfs.
Qed.

Lemma get_logo_base64_uri (A : assets) (logo_path : option path)
    (logo_url : option string) (uri : string) :
  get_logo_base64 A logo_path logo_url = Ret (Some uri) ->
  exists content_type data,
    In content_type image_types /\ logo_source A logo_url data
    /\ uri = data_uri content_type data.
Proof.
  unfold get_logo_base64.
  destruct (logo_from_url A logo_url) as [uri'|] eqn:Hurl.
  - intros Huri. injection Huri as <-. eapply logo_from_url_uri, Hurl.
  - apply logo_from_file_uri.
Qed.

(** What [send_email] reads off a data URI is what [get_logo_base64]
    put into it. *)
Lemma logo_parts_data_uri (content_type : string) (data : list Byte.byte)
    (logo_path : option path) :
  In content_type image_types ->
  logo_parts (data_uri content_type data) logo_path
  = Ret (content_type, b64encode data).
Proof.
  intros [<-|[<-|[<-|[]]]]; cbv -[b64encode]; reflexivity.
Qed.

Lemma truthy_data_uri (content_type : string) (data : list Byte.byte) :
  truthy (data_uri content_type data) = true.
Proof. reflexivity. Qed.

Lemma embed_logo_data_uri (content_type : string) (data : list Byte.byte)
    (logo_path : option path) (body_html : string) :
  In content_type image_types ->
  embed_logo (Some (data_uri content_type data)) logo_path body_html
  = Ret (replace placeholder
                 (base64_img_tag content_type (b64encode data)) body_html).
Proof.
  intros Hct. unfold embed_logo.
  rewrite truthy_data_uri, (logo_parts_data_uri _ _ _ Hct). reflexivity.
Qed.

Lemma replace_from_absent (old new s : string) :
  contains old s = false -> replace_from old new 0 s = s.
Proof.
  induction s as [|c s IH]; [reflexivity|].
  cbn [contains replace_from]. intros H.
  apply orb_false_iff in H as [Hp Hc]. rewrite Hp, (IH Hc). reflexivity.
Qed.

(** X29. Whatever logo [get_logo_base64] returns is a data URI of one of the
    three image types over bytes that were downloaded, converted or read;
    [send_email] recovers the type and the data from it and puts them in the
    place of every placeholder of the body.  A body without the placeholder
    is sent as it is. *)
Theorem logo_is_embedded (A : assets) (logo_path : option path)
    (logo_url : option string) (uri body_html : string) :
  get_logo_base64 A logo_path logo_url = Ret (Some uri) ->
  exists content_type data,
    In content_type image_types
    /\ logo_source A logo_url data
    /\ uri = data_uri content_type data
    /\ embed_logo (Some uri) logo_path body_html
       = Ret (replace placeholder
                      (base64_img_tag content_type (b64encode data))
                      body_html)
    /\ (contains placeholder body_html = false ->
        embed_logo (Some uri) logo_path body_html = Ret body_html).
Proof.
  intros Hget.
  destruct (get_logo_base64_uri _ _ _ _ Hget)
    as (content_type & data & Hct & Hsrc & ->).
  exists content_type, data.
  split; [exact Hct|]. split; [exact Hsrc|]. split; [reflexivity|].
  rewrite (embed_logo_data_uri _ _ _ _ Hct). split; [reflexivity|].
  intros Habs. unfold replace. rewrite (replace_from_absent _ _ _ Habs).
  reflexivity.
Qed.

Lemma logo_is_embedded_witness :
  exists content_type data,
    In content_type image_types
    /\ logo_source sample_assets (Some "https://example.com/logo.gif") data
    /\ "data:image/png;base64,iVA=" = data_uri content_type data
    /\ embed_logo (Some "data:image/png;base64,iVA=") None
                  ("<p>" +:+ placeholder +:+ "</p>")
       = Ret (replace placeholder
                      (base64_img_tag content_type (b64encode data))
                      ("<p>" +:+ placeholder +:+ "</p>"))
    /\ (contains placeholder ("<p>" +:+ placeholder +:+ "</p>") = false ->
        embed_logo (Some "data:image/png;base64,iVA=") None
                   ("<p>" +:+ placeholder +:+ "</p>")
        = Ret ("<p>" +:+ placeholder +:+ "</p>")).
Proof.
  apply (logo_is_embedded sample_assets None
           (Some "https://example.com/logo.gif")).
  reflexivity.
Defined.

(** ** What can fail before the first request *)

Lemma encode_attachment_raises (A : assets) (p : path) (e : exn) :
  encode_attachment A p = Raise e ->
  (fs A (path_str p) = Absent
   /\ e = Exception ("Attachment file not found: " +:+ path_str p))
  \/ (exists msg, fs A (path_str p) = Unreadable msg /\ e = Exception msg).
Proof.
  unfold encode_attachment.
  destruct (fs A (path_str p)) as [|msg|data]; intros He;
    try discriminate; injection He as <-.
  - left. split; reflexivity.
  - right. exists msg. split; reflexivity.
Qed.

Lemma get_logo_base64_raises (A : assets) (logo_path : option path)
    (logo_url : option string) (e : exn) :
  get_logo_base64 A logo_path logo_url = Raise e ->
  exists name msg, fs A name = Unreadable msg /\ e = Exception msg.
Proof.
  unfold get_logo_base64.
  destruct (logo_from_url A logo_url); [discriminate|].
  unfold logo_from_file. cbn zeta.
  destruct (match logo_path with
            | Some p => Some p
            | None => List.find (path_exists A) possible_names
            end) as [p|]; [|discriminate].
  destruct (path_exists A p); [|discriminate].
  destruct (if String.eqb (lower (path_suffix p)) ".png" && PIL_AVAILABLE A
            then to_jpeg A (path_str p) else None); [discriminate|].
  destruct (fs A (path_str p)) as [|msg|data] eqn:Hfs; try discriminate.
  intros He. injection He as <-. exists (path_str p), msg.
  split; [exact Hfs | reflexivity].
Qed.

Lemma embed_logo_returns (A : assets) (logo_path : option path)
    (logo_url : option string) (logo_base64 : option string)
    (body_html : string) :
  get_logo_base64 A logo_path logo_url = Ret logo_base64 ->
  exists body_html', embed_logo logo_base64 logo_path body_html
                     = Ret body_html'.
Proof.
  destruct logo_base64 as [uri|]; [|intros _; eexists; reflexivity].
  intros Hget.
  destruct (get_logo_base64_uri _ _ _ _ Hget)
    as (content_type & data & Hct & _ & ->).
  rewrite (embed_logo_data_uri _ _ _ _ Hct). eexists; reflexivity.
Qed.

(** X30. Preparing logo and attachment raises in two cases only: the
    attachment is not there, or a file that is there (the attachment or the
    logo) cannot be read.  A download that fails, a conversion that fails, a
    logo that is not found and the parsing of the data URI never stop the
    message. *)
Theorem prepare_raises_only_for_files (A : assets) (body_html : string)
    (attachment_path logo_path : option path) (logo_url : option string)
    (e : exn) :
  prepare_assets A body_html attachment_path logo_path logo_url = Raise e ->
  (exists p, attachment_path = Some p
             /\ fs A (path_str p) = Absent
             /\ e = Exception ("Attachment file not found: "
                               +:+ path_str p))
  \/ (exists name msg, fs A name = Unreadable msg /\ e = Exception msg).
Proof.
  unfold prepare_assets.
  destruct (get_logo_base64 A logo_path logo_url) as [logo_base64|e']
    eqn:Hget.
  - destruct (embed_logo_returns _ _ _ _ body_html Hget) as (b & ->).
    destruct attachment_path as [p|]; [|discriminate].
    destruct (encode_attachment A p) as [a|e'] eqn:Henc; [discriminate|].
    intros He. injection He as <-.
    destruct (encode_attachment_raises _ _ _ Henc)
      as [[Hfs ->]|(msg & Hfs & ->)].
    + left. exists p. repeat split. exact Hfs.
    + right. exists (path_str p), msg. split; [exact Hfs | reflexivity].
  - intros He. injection He as <-. right.
    eapply get_logo_base64_raises, Hget.
Qed.

Lemma prepare_raises_only_for_files_witness :
  (exists p, Some (local_file "terms.pdf" ".pdf") = Some p
             /\ fs sample_assets (path_str p) = Absent
             /\ Exception "Attachment file not found: terms.pdf"
                = Exception ("Attachment file not found: "
                             +:+ path_str p))
  \/ (exists name msg,
         fs sample_assets name = Unreadable msg
         /\ Exception "Attachment file not found: terms.pdf"
            = Exception msg).
Proof.
  apply (prepare_raises_only_for_files sample_assets
           ("<p>" +:+ placeholder +:+ "</p>")
           (Some (local_file "terms.pdf" ".pdf")) None
           (Some "https://example.com/logo.gif")).
  reflexivity.
Defined.
